(** * Smart FAQ Generator: a shallow embedding of [src/faqGenerator.js]

    The class [FAQGenerator] is a pipeline of pure string functions.  Each
    method is translated to a Rocq function of the same name; the JavaScript
    built-ins it calls ([trim], [split], [replace], [toLowerCase], regular
    expression matching, [Object.entries], [Array.prototype.sort]) are
    modelled in the module [Js].

    Strings are lists of characters ([list ascii]).  The model covers text
    made of 7-bit ASCII characters: on those, [toLowerCase], [toUpperCase],
    [\s], [\w] and [\b] are exactly what is written below.  Characters outside
    that range are treated as caseless symbols. *)

From Stdlib Require Import String Ascii Arith NArith ZArith QArith Bool Lia.
From Stdlib Require Import DecimalString.
From Stdlib Require Import List Permutation Sorted.
Import ListNotations.

Local Open Scope nat_scope.
Local Open Scope list_scope.

(** ** JavaScript built-ins *)

Module Js.

Definition str := list ascii.

(** A string literal of the source. *)
Definition lit (s : string) : str := list_ascii_of_string s.

Fixpoint str_eqb (a b : str) : bool :=
  match a, b with
  | [], [] => true
  | x :: a', y :: b' => Ascii.eqb x y && str_eqb a' b'
  | _, _ => false
  end.

Definition code (c : ascii) : N := N_of_ascii c.

Definition between (lo hi : N) (c : ascii) : bool :=
  (lo <=? code c)%N && (code c <=? hi)%N.

(** [[A-Z]], [[a-z]], [[0-9]] *)
Definition isUpper : ascii -> bool := between 65 90.
Definition isLower : ascii -> bool := between 97 122.
Definition isDigit : ascii -> bool := between 48 57.

(** [\s] on ASCII: tab, line feed, vertical tab, form feed, carriage return,
    space.  [String.prototype.trim] strips the same characters. *)
Definition isSpace (c : ascii) : bool :=
  between 9 13 c || (code c =? 32)%N.

(** [\n] *)
Definition isNewline (c : ascii) : bool := (code c =? 10)%N.

(** [\w]: letters, digits and the underscore. *)
Definition isWordChar (c : ascii) : bool :=
  isUpper c || isLower c || isDigit c || (code c =? 95)%N.

(** [[.!?]] *)
Definition isTerminator (c : ascii) : bool :=
  (code c =? 46)%N || (code c =? 33)%N || (code c =? 63)%N.

Definition toLowerChar (c : ascii) : ascii :=
  if isUpper c then ascii_of_N (code c + 32) else c.

Definition toUpperChar (c : ascii) : ascii :=
  if isLower c then ascii_of_N (code c - 32) else c.

(** [s.toLowerCase()], [s.toUpperCase()] *)
Definition toLowerCase (s : str) : str := map toLowerChar s.
Definition toUpperCase (s : str) : str := map toUpperChar s.

Fixpoint dropWhile (p : ascii -> bool) (s : str) : str :=
  match s with
  | [] => []
  | c :: s' => if p c then dropWhile p s' else s
  end.

Fixpoint takeWhile (p : ascii -> bool) (s : str) : str :=
  match s with
  | [] => []
  | c :: s' => if p c then c :: takeWhile p s' else []
  end.

(** [s.trim()] *)
Definition trimStart (s : str) : str := dropWhile isSpace s.
Definition trimEnd (s : str) : str := rev (dropWhile isSpace (rev s)).
Definition trim (s : str) : str := trimEnd (trimStart s).

(** [s.replace(/[p]+/g, r)]: every maximal run of characters of class [p]
    is replaced by [r].  [inRun] records that the previous character already
    belonged to the run being replaced. *)
Fixpoint replaceRunsFrom (p : ascii -> bool) (r : str) (inRun : bool) (s : str) : str :=
  match s with
  | [] => []
  | c :: s' =>
      if p c then (if inRun then [] else r) ++ replaceRunsFrom p r true s'
      else c :: replaceRunsFrom p r false s'
  end.

Definition replaceRuns (p : ascii -> bool) (r : str) (s : str) : str :=
  replaceRunsFrom p r false s.

(** [s.replace(/[p]/g, r)] for a one-character class [p] and a one-character
    replacement, and with the empty replacement. *)
Definition replaceEach (p : ascii -> bool) (r : ascii) (s : str) : str :=
  map (fun c => if p c then r else c) s.

Definition removeEach (p : ascii -> bool) (s : str) : str :=
  filter (fun c => negb (p c)) s.

(** [s.split(/[p]+/)]: the pieces between the maximal runs of separator
    characters.  A leading or trailing run gives an empty first or last piece,
    and the empty string gives one empty piece. *)
Fixpoint split (p : ascii -> bool) (s : str) : list str :=
  match s with
  | [] => [[]]
  | c :: s' =>
      if p c then
        match s' with
        | c' :: _ => if p c' then split p s' else [] :: split p s'
        | [] => [] :: split p s'
        end
      else
        match split p s' with
        | piece :: rest => (c :: piece) :: rest
        | [] => [[c]]
        end
  end.

(** [prefix] is how [s] starts. *)
Fixpoint startsWith (prefix s : str) : bool :=
  match prefix, s with
  | [], _ => true
  | x :: p', y :: s' => Ascii.eqb x y && startsWith p' s'
  | _ :: _, [] => false
  end.

(** [s.includes(t)] *)
Fixpoint includes (s t : str) : bool :=
  startsWith t s ||
  match s with
  | [] => false
  | _ :: s' => includes s' t
  end.

(** [a.join(sep)] *)
Fixpoint join (sep : str) (a : list str) : str :=
  match a with
  | [] => []
  | [x] => x
  | x :: a' => x ++ sep ++ join sep a'
  end.

(** [a.slice(0, n)] *)
Definition slice0 {A} (n : nat) (a : list A) : list A := firstn n a.

(** [a.includes(x)] on an array of strings *)
Definition arrayIncludes (a : list str) (x : str) : bool :=
  existsb (str_eqb x) a.

(** *** Regular expressions of the source *)

Definition isWordOpt (o : option ascii) : bool :=
  match o with
  | Some c => isWordChar c
  | None => false
  end.

(** [\b] between the character before the position ([None] at the start of
    the input) and the character after it ([None] at the end). *)
Definition wordBoundary (prev next : option ascii) : bool :=
  xorb (isWordOpt prev) (isWordOpt next).

Definition lastChar (s : str) : option ascii :=
  match rev s with
  | c :: _ => Some c
  | [] => None
  end.

(** A literal of a pattern with the [i] flag, matched where [s] starts: the
    matched text and what follows it. *)
Fixpoint matchLiteral (w s : str) : option (str * str) :=
  match w, s with
  | [], _ => Some ([], s)
  | x :: w', y :: s' =>
      if Ascii.eqb (toLowerChar x) (toLowerChar y) then
        match matchLiteral w' s' with
        | Some (m, rest) => Some (y :: m, rest)
        | None => None
        end
      else None
  | _ :: _, [] => None
  end.

(** A literal followed by [\d+].  The digits are taken greedily; the patterns
    of the source end in [\b], which no shorter run of digits satisfies. *)
Definition matchLiteralDigits (w s : str) : option (str * str) :=
  match matchLiteral w s with
  | Some (m, rest) =>
      match takeWhile isDigit rest with
      | [] => None
      | ds => Some (m ++ ds, dropWhile isDigit rest)
      end
  | None => None
  end.

(** [/\b(a1|a2|...)\b/i.test(s)]: some position of [s] has a word boundary,
    then one of the alternatives, then a word boundary. *)
Definition alternativeAt (alts : list (str -> option (str * str)))
    (prev : option ascii) (s : str) : bool :=
  wordBoundary prev (hd_error s) &&
  existsb (fun alt =>
             match alt s with
             | Some (m, rest) => wordBoundary (lastChar m) (hd_error rest)
             | None => false
             end) alts.

Fixpoint testFrom (alts : list (str -> option (str * str)))
    (prev : option ascii) (s : str) : bool :=
  alternativeAt alts prev s ||
  match s with
  | [] => false
  | c :: s' => testFrom alts (Some c) s'
  end.

Definition test (alts : list (str -> option (str * str))) (s : str) : bool :=
  testFrom alts None s.

(** [/[.!?]$/]: the last character is a terminator. *)
Definition endsWithTerminator (s : str) : bool :=
  match lastChar s with
  | Some c => isTerminator c
  | None => false
  end.

(** [[A-Z][a-z]+] where [s] starts.  The run of lower-case letters is the
    longest one: in the pattern of the source the word is followed by [\s] or
    by [\b], and neither matches in front of a lower-case letter. *)
Definition capitalWord (s : str) : option (str * str) :=
  match s with
  | c :: s' =>
      if isUpper c then
        match takeWhile isLower s' with
        | [] => None
        | w => Some (c :: w, dropWhile isLower s')
        end
      else None
  | [] => None
  end.

(** [[A-Z][a-z]+(?:\s+[A-Z][a-z]+)*\b] where [s] starts: the group is
    repeated greedily, and an iteration is given up when what follows it does
    not match.  Every call is on a shorter string, so [length s] is enough
    fuel. *)
Fixpoint phraseFuel (fuel : nat) (s : str) : option (str * str) :=
  match fuel with
  | 0 => None
  | S fuel' =>
      match capitalWord s with
      | None => None
      | Some (w, r) =>
          let ws := takeWhile isSpace r in
          let continued :=
            match ws with
            | [] => None
            | _ => phraseFuel fuel' (dropWhile isSpace r)
            end in
          match continued with
          | Some (m, rest) => Some (w ++ ws ++ m, rest)
          | None =>
              if wordBoundary (lastChar w) (hd_error r) then Some (w, r) else None
          end
      end
  end.

Definition phrase (s : str) : option (str * str) := phraseFuel (length s) s.

(** [text.match(/\b[A-Z][a-z]+(?:\s+[A-Z][a-z]+)*\b/g) || []]: the matches
    from left to right, each search starting where the previous match
    ended. *)
Fixpoint matchPhrasesFuel (fuel : nat) (prev : option ascii) (s : str) : list str :=
  match fuel with
  | 0 => []
  | S fuel' =>
      match s with
      | [] => []
      | c :: s' =>
          match (if wordBoundary prev (Some c) then phrase s else None) with
          | Some (m, rest) => m :: matchPhrasesFuel fuel' (lastChar m) rest
          | None => matchPhrasesFuel fuel' (Some c) s'
          end
      end
  end.

Definition matchPhrases (text : str) : list str :=
  matchPhrasesFuel (length text) None text.

(** *** Arrays: the stable sort *)

(** [a.sort(cmp)] is stable; [before x y] says that [cmp(x, y)] is not
    positive, so that [x] stays in front of [y]. *)
Fixpoint insertBy {A} (before : A -> A -> bool) (x : A) (l : list A) : list A :=
  match l with
  | [] => [x]
  | y :: l' => if before x y then x :: l else y :: insertBy before x l'
  end.

Definition sortBy {A} (before : A -> A -> bool) (l : list A) : list A :=
  fold_right (insertBy before) [] l.

(** [a.sort(cmp)] with a comparator that returns a number ([None] is [NaN],
    which the sort reads as [+0]).  The order the standard fixes is the one
    of a consistent comparator; a comparator that answers [NaN] for some
    pairs and not for others leaves it to the engine. *)
Definition sort {A} (cmp : A -> A -> option Z) (l : list A) : list A :=
  sortBy (fun x y => match cmp x y with
                     | Some v => (v <=? 0)%Z
                     | None => true
                     end) l.

(** *** Objects used as maps from words to counts *)

(** What a property of the count table holds: a number, or the text that
    [+ 1] makes from a value that is not a number. *)
Inductive cell :=
| Count (n : nat)
| NotNumber (s : str).

(** The own properties, in the order they were created. *)
Definition object := list (str * cell).

Fixpoint getOwn (o : object) (k : str) : option cell :=
  match o with
  | [] => None
  | (k', v) :: o' => if str_eqb k k' then Some v else getOwn o' k
  end.

(** [o[k] = v]: an existing property keeps its place. *)
Fixpoint setOwn (o : object) (k : str) (v : cell) : object :=
  match o with
  | [] => [(k, v)]
  | (k', v') :: o' =>
      if str_eqb k k' then (k', v) :: o' else (k', v') :: setOwn o' k v
  end.

(** The text of the function [Object], which an object literal inherits as
    [constructor]; it is the only property of [Object.prototype] whose name
    is made of lower-case letters and digits. *)
Definition objectFunctionText : str := lit "function Object() { [native code] }".

(** [(o[k] || 0) + 1] *)
Definition incremented (o : object) (k : str) : cell :=
  match getOwn o k with
  | Some (Count n) => Count (n + 1)
  | Some (NotNumber []) => Count 1
  | Some (NotNumber s) => NotNumber (s ++ lit "1")
  | None =>
      if str_eqb k (lit "constructor") then NotNumber (objectFunctionText ++ lit "1")
      else Count 1
  end.

(** A key is an array index when it is the decimal form of an integer
    below [2^32 - 1]. *)
Definition indexValue (k : str) : N :=
  fold_left (fun acc c => (acc * 10 + (code c - 48))%N) k 0%N.

Definition isArrayIndex (k : str) : bool :=
  match k with
  | [] => false
  | c :: k' =>
      forallb isDigit k &&
      (negb (code c =? 48)%N || match k' with [] => true | _ => false end) &&
      (length k <=? 10) && (indexValue k <? 4294967295)%N
  end.

(** [Object.entries(o)]: the array-index keys in ascending order, then the
    other keys in the order they were created. *)
Definition entries (o : object) : list (str * cell) :=
  sortBy (fun a b => (indexValue (fst a) <=? indexValue (fst b))%N)
         (filter (fun e => isArrayIndex (fst e)) o)
  ++ filter (fun e => negb (isArrayIndex (fst e))) o.

(** *** Values and completions *)

Inductive number :=
| NaN
| Infinity (negative : bool)
| Finite (q : Q).

Inductive value :=
| VUndefined
| VNull
| VBoolean (b : bool)
| VNumber (n : number)
| VBigInt (z : Z)
| VString (s : str)
| VSymbol
| VFunction
| VObject.

Inductive error := TypeError.

Inductive completion (A : Type) :=
| Normal (a : A)
| Throw (e : error).
Arguments Normal {A} a.
Arguments Throw {A} e.

(** [!v] is [negb (toBoolean v)]. *)
Definition toBoolean (v : value) : bool :=
  match v with
  | VUndefined | VNull => false
  | VBoolean b => b
  | VNumber NaN => false
  | VNumber (Infinity _) => true
  | VNumber (Finite q) => negb (Qeq_bool q 0)
  | VBigInt z => negb (z =? 0)%Z
  | VString s => negb (length s =? 0)
  | VSymbol | VFunction | VObject => true
  end.

Inductive typeTag :=
| TUndefined | TObject | TBoolean | TNumber | TBigInt | TString | TSymbol | TFunction.

Definition typeof (v : value) : typeTag :=
  match v with
  | VUndefined => TUndefined
  | VNull => TObject
  | VBoolean _ => TBoolean
  | VNumber _ => TNumber
  | VBigInt _ => TBigInt
  | VString _ => TString
  | VSymbol => TSymbol
  | VFunction => TFunction
  | VObject => TObject
  end.

Definition isStringTag (t : typeTag) : bool :=
  match t with
  | TString => true
  | _ => false
  end.

(** [v.trim()]: only a string has the method. *)
Definition callTrim (v : value) : completion str :=
  match v with
  | VString s => Normal (trim s)
  | _ => Throw TypeError
  end.

End Js.

(** ** The class [FAQGenerator] *)

Module FAQGenerator.
Import Js.

Record FAQ := { question : str; answer : str }.

(** [this.stopWords] *)
Definition stopWords : list str := map lit
  [ "a"; "an"; "the"; "is"; "are"; "was"; "were"; "be"; "been"; "being";
    "have"; "has"; "had"; "do"; "does"; "did"; "will"; "would"; "could";
    "should"; "may"; "might"; "must"; "shall"; "can"; "need"; "dare";
    "ought"; "used"; "to"; "of"; "in"; "for"; "on"; "with"; "at"; "by";
    "from"; "as"; "into"; "through"; "during"; "before"; "after"; "above";
    "below"; "between"; "under"; "again"; "further"; "then"; "once"; "here";
    "there"; "when"; "where"; "why"; "how"; "all"; "each"; "few"; "more";
    "most"; "other"; "some"; "such"; "no"; "nor"; "not"; "only"; "own";
    "same"; "so"; "than"; "too"; "very"; "just"; "and"; "but"; "if"; "or";
    "because"; "until"; "while"; "this"; "that"; "these"; "those"; "i"; "me";
    "my"; "myself"; "we"; "our"; "you"; "your"; "he"; "him"; "his"; "she";
    "her"; "it"; "its"; "they"; "them"; "their"; "what"; "which"; "who" ]%string.

(** [this.stopWords.has(word)] *)
Definition stopWords_has (word : str) : bool := arrayIncludes stopWords word.

(** The pieces of [extractSentences] before the length filter. *)
Definition sentencePieces (text : str) : list str :=
  map trim (split isTerminator (replaceRuns isNewline (lit " ") text)).

Definition extractSentences (text : str) : list str :=
  filter (fun s => 20 <? length s) (sentencePieces text).

(** [[a-zA-Z0-9\s]] *)
Definition isKeywordChar (c : ascii) : bool :=
  isLower c || isUpper c || isDigit c || isSpace c.

(** The array [words] of [extractKeywords]. *)
Definition keywordWords (text : str) : list str :=
  filter (fun word => (3 <? length word) && negb (stopWords_has word))
    (split isSpace
       (replaceEach (fun c => negb (isKeywordChar c)) " "%char (toLowerCase text))).

(** The table [wordCount] after the [forEach]. *)
Definition countWords (words : list str) : object :=
  fold_left (fun wordCount word => setOwn wordCount word (incremented wordCount word))
            words [].

(** Unary [+] on a cell: the texts a cell can hold do not read as numbers. *)
Definition toNumber (c : cell) : option Z :=
  match c with
  | Count n => Some (Z.of_nat n)
  | NotNumber _ => None
  end.

(** [(a, b) => b[1] - a[1]] *)
Definition byFrequency (a b : str * cell) : option Z :=
  match toNumber (snd b), toNumber (snd a) with
  | Some x, Some y => Some (x - y)%Z
  | _, _ => None
  end.

Definition extractKeywords (text : str) : list str :=
  map fst (slice0 15 (sort byFrequency (entries (countWords (keywordWords text))))).

Definition identifyTopics (text : str) (keywords : list str) : list str :=
  let matches := matchPhrases text in
  let topics :=
    fold_left (fun topics m =>
                 if (3 <? length m) && negb (arrayIncludes topics (toLowerCase m))
                 then topics ++ [m] else topics)
              matches [] in
  let topics :=
    fold_left (fun topics keyword =>
                 if negb (existsb (fun t => str_eqb (toLowerCase t) keyword) topics)
                 then topics ++ [keyword] else topics)
              (slice0 5 keywords) topics in
  slice0 8 topics.

Definition cleanAnswer (text : str) : str :=
  match text with
  | [] => []
  | _ =>
      let cleaned := trim (replaceRuns isSpace (lit " ") text) in
      let cleaned :=
        match cleaned with
        | c :: rest => toUpperChar c :: rest
        | [] => cleaned
        end in
      match cleaned with
      | [] => cleaned
      | _ => if negb (endsWithTerminator cleaned) then cleaned ++ lit "." else cleaned
      end
  end.

(** [if (x)] on the result of [find] over strings: [undefined] and the empty
    string are falsy. *)
Definition truthy (o : option str) : option str :=
  match o with
  | Some ((_ :: _) as s) => Some s
  | _ => None
  end.

(** [${x}] for an array element: a missing element reads [undefined]. *)
Definition interpolate (o : option str) : str :=
  match o with
  | Some s => s
  | None => lit "undefined"
  end.

(** [a || b] on array elements *)
Definition orElse (a b : option str) : option str :=
  match truthy a with
  | Some s => Some s
  | None => b
  end.

(** [sentence.toLowerCase().includes(topic.toLowerCase())] *)
Definition mentions (sentence topic : str) : bool :=
  includes (toLowerCase sentence) (toLowerCase topic).

(** [indicators.some(ind => sentence.toLowerCase().includes(ind))] *)
Definition hasIndicator (indicators : list str) (sentence : str) : bool :=
  existsb (fun ind => includes (toLowerCase sentence) ind) indicators.

Definition generateDefinitionFAQs (sentences topics : list str) : list FAQ :=
  fold_left (fun faqs topic =>
               match truthy (find (fun s => mentions s topic) sentences) with
               | Some relevantSentence =>
                   faqs ++ [{| question := lit "What is " ++ topic ++ lit "?";
                               answer := cleanAnswer relevantSentence |}]
               | None => faqs
               end)
            (slice0 3 topics) [].

Definition processIndicators : list str := map lit
  [ "step"; "process"; "method"; "way"; "approach"; "procedure"; "guide";
    "tutorial"; "instruction" ]%string.

(** [/\b(first|second|third|then|next|finally|step \d+)\b/i] *)
Definition stepPattern : list (str -> option (str * str)) :=
  map (fun w => matchLiteral (lit w))
      [ "first"; "second"; "third"; "then"; "next"; "finally" ]%string
  ++ [matchLiteralDigits (lit "step ")].

Definition generateProcessFAQs (sentences topics : list str) : list FAQ :=
  let faqs :=
    fold_left (fun faqs sentence =>
                 if hasIndicator processIndicators sentence then
                   match truthy (find (fun t => mentions sentence t) topics) with
                   | Some topic =>
                       faqs ++ [{| question := lit "How does " ++ topic ++ lit " work?";
                                   answer := cleanAnswer sentence |}]
                   | None => faqs
                   end
                 else faqs)
              sentences [] in
  let stepSentences := filter (test stepPattern) sentences in
  let faqs :=
    if (0 <? length stepSentences) && (0 <? length topics) then
      faqs ++ [{| question := lit "How do I get started with "
                                ++ interpolate (nth_error topics 0) ++ lit "?";
                  answer := cleanAnswer (join (lit ". ") (slice0 3 stepSentences)) |}]
    else faqs in
  slice0 2 faqs.

Definition featureIndicators : list str := map lit
  [ "feature"; "capability"; "function"; "option"; "include"; "provide";
    "offer"; "support"; "enable"; "allow" ]%string.

Definition generateFeatureFAQs (sentences topics : list str) : list FAQ :=
  let featureSentences := filter (hasIndicator featureIndicators) sentences in
  if (0 <? length featureSentences) && (0 <? length topics) then
    [{| question := lit "What features does " ++ interpolate (nth_error topics 0)
                      ++ lit " offer?";
        answer := cleanAnswer (join (lit ". ") (slice0 2 featureSentences)) |}]
  else [].

Definition benefitIndicators : list str := map lit
  [ "benefit"; "advantage"; "improve"; "help"; "save"; "increase"; "reduce";
    "better"; "efficient"; "effective" ]%string.

Definition generateBenefitFAQs (sentences topics : list str) : list FAQ :=
  let benefitSentences := filter (hasIndicator benefitIndicators) sentences in
  if (0 <? length benefitSentences) && (0 <? length topics) then
    [{| question := lit "Why should I use " ++ interpolate (nth_error topics 0)
                      ++ lit "?";
        answer := cleanAnswer (join (lit ". ") (slice0 2 benefitSentences)) |}]
  else [].

Definition canIndicators : list str := map lit
  [ "can"; "able"; "possible"; "support"; "allow" ]%string.

Definition requireIndicators : list str := map lit
  [ "require"; "need"; "must"; "necessary"; "prerequisite" ]%string.

(** [/\b(find|locate|access|available|download)\b/i] *)
Definition locationPattern : list (str -> option (str * str)) :=
  map (fun w => matchLiteral (lit w))
      [ "find"; "locate"; "access"; "available"; "download" ]%string.

(** [a[0]] as the argument of [cleanAnswer], which returns [''] for
    [undefined]. *)
Definition first (a : list str) : str :=
  match a with
  | s :: _ => s
  | [] => []
  end.

Definition generateTopicFAQs (sentences topics : list str) : list FAQ :=
  let faqs := [] in
  let canSentences := filter (hasIndicator canIndicators) sentences in
  let faqs :=
    if (0 <? length canSentences) && (1 <? length topics) then
      faqs ++ [{| question := lit "Can I customize "
                                ++ interpolate (orElse (nth_error topics 1) (nth_error topics 0))
                                ++ lit "?";
                  answer := cleanAnswer (first canSentences) |}]
    else faqs in
  let requireSentences := filter (hasIndicator requireIndicators) sentences in
  let faqs :=
    if 0 <? length requireSentences then
      faqs ++ [{| question := lit "What are the requirements for "
                                ++ interpolate (nth_error topics 0) ++ lit "?";
                  answer := cleanAnswer (first requireSentences) |}]
    else faqs in
  let locationSentences := filter (test locationPattern) sentences in
  let faqs :=
    if (0 <? length locationSentences) && (0 <? length topics) then
      faqs ++ [{| question := lit "Where can I find more information about "
                                ++ interpolate (nth_error topics 0) ++ lit "?";
                  answer := cleanAnswer (first locationSentences) |}]
    else faqs in
  slice0 3 faqs.

(** [faq.question.toLowerCase().replace(/[^a-z0-9]/g, '')] *)
Definition normalized (faq : FAQ) : str :=
  removeEach (fun c => negb (isLower c || isDigit c)) (toLowerCase (question faq)).

(** The [filter] of [removeDuplicates], with the set [seen] it updates. *)
Fixpoint removeDuplicatesFrom (seen : list str) (faqs : list FAQ) : list FAQ :=
  match faqs with
  | [] => []
  | faq :: faqs' =>
      if arrayIncludes seen (normalized faq) then removeDuplicatesFrom seen faqs'
      else faq :: removeDuplicatesFrom (normalized faq :: seen) faqs'
  end.

Definition removeDuplicates (faqs : list FAQ) : list FAQ :=
  removeDuplicatesFrom [] faqs.

(** The array [faqs] of [generateFAQs] before [removeDuplicates]. *)
Definition candidates (sentences topics : list str) : list FAQ :=
  generateDefinitionFAQs sentences topics
  ++ generateProcessFAQs sentences topics
  ++ generateFeatureFAQs sentences topics
  ++ generateBenefitFAQs sentences topics
  ++ generateTopicFAQs sentences topics.

(** The body of [generateFAQs] after its guard, where [text] is a string. *)
Definition generateFromText (text : str) : list FAQ :=
  let sentences := extractSentences text in
  let keywords := extractKeywords text in
  let topics := identifyTopics text keywords in
  slice0 10 (removeDuplicates (candidates sentences topics)).

Definition generateFAQs (text : value) : completion (list FAQ) :=
  if negb (toBoolean text) then Normal []
  else if negb (isStringTag (typeof text)) then Normal []
  else
    match callTrim text with
    | Throw e => Throw e
    | Normal trimmed =>
        if length trimmed =? 0 then Normal []
        else
          match text with
          | VString s => Normal (generateFromText s)
          | _ => Throw TypeError
          end
    end.

End FAQGenerator.

(** ** The server: [src/server.js]

    The routes of the Express application that work on the in-memory
    document store.  A handler is a function from the state to the new state
    and the response; the identifier that [uuidv4()] draws and the time of
    [new Date()] are arguments of the handler.  The upload route, which
    depends on the multipart parser and on the PDF reader, is not part of the
    model; the documents it stores are (they have a [filePath] and no
    [content]). *)

Module Server.
Import Js FAQGenerator.

(** *** [Map] *)

Section JsMap.

Context {V : Type}.

(** The entries of a [Map] with string keys, in insertion order; the keys
    are distinct. *)
Definition jsMap := list (str * V).

(** [m.get(k)] *)
Fixpoint mapGet (m : jsMap) (k : str) : option V :=
  match m with
  | [] => None
  | (k', v) :: m' => if str_eqb k k' then Some v else mapGet m' k
  end.

(** [m.set(k, v)]: the entry of an existing key keeps its place. *)
Fixpoint mapSet (m : jsMap) (k : str) (v : V) : jsMap :=
  match m with
  | [] => [(k, v)]
  | (k', v') :: m' =>
      if str_eqb k k' then (k', v) :: m' else (k', v') :: mapSet m' k v
  end.

(** [m.delete(k)] *)
Definition mapDelete (m : jsMap) (k : str) : jsMap :=
  filter (fun e => negb (str_eqb k (fst e))) m.

(** [Array.from(m.values())] *)
Definition mapValues (m : jsMap) : list V := map snd m.

End JsMap.

Arguments jsMap V : clear implicits.

(** *** Documents *)

(** [uploadedAt] is the time in milliseconds; the source keeps its ISO text
    and reads it back with [new Date(...)]. *)
Record document := {
  id : str;
  title : value;
  filename : value;
  content : option str;
  filePath : option str;
  uploadedAt : Z;
  contentPreview : str;
  faqs : list FAQ;
  wordCount : nat;
  characterCount : nat
}.

(** The state of the server: the [Map] [documents], and the files under
    [uploads/], each with the text that [readFileSync(path, 'utf-8')]
    gives. *)
Record state := {
  documents : jsMap document;
  files : jsMap str
}.

(** The [document] object of a response. *)
Record summary := {
  sId : str;
  sTitle : value;
  sUploadedAt : Z;
  sContentPreview : str;
  sWordCount : nat;
  sCharacterCount : nat
}.

(** An element of the list of [GET /api/documents]. *)
Record listItem := {
  iId : str;
  iTitle : value;
  iUploadedAt : Z;
  iContentPreview : str;
  iFaqCount : nat;
  iWordCount : nat
}.

Inductive body :=
| ErrorBody (message : str)
| FailedBody (prefix : str) (e : error)
| GeneratedBody (doc : summary) (faqs : list FAQ) (message : str)
| DocumentBody (doc : summary) (faqs : list FAQ)
| DeletedBody (message : str)
| RegeneratedBody (faqs : list FAQ) (message : str)
| ListBody (docs : list listItem).

Record response := { status : nat; json : body }.

(** [res.json(b)] and [res.status(n).json(b)] *)
Definition ok (b : body) : response := {| status := 200; json := b |}.
Definition failWith (n : nat) (message : string) : response :=
  {| status := n; json := ErrorBody (lit message) |}.

(** [a || b] *)
Definition orValue (a b : value) : value := if toBoolean a then a else b.

(** [if (x)] on a string that can be [undefined] *)
Definition present (o : option str) : option str :=
  match o with
  | Some ((_ :: _) as s) => Some s
  | _ => None
  end.

(** [${n}] for a length *)
Definition showNat (n : nat) : str :=
  lit (NilEmpty.string_of_uint (Nat.to_uint n)).

(** [text.substring(0, 200) + (text.length > 200 ? '...' : '')] *)
Definition preview (text : str) : str :=
  firstn 200 text ++ (if 200 <? length text then lit "..." else []).

(** [text.split(/\s+/).length] *)
Definition countWordsOf (text : str) : nat := length (split isSpace text).

Definition summaryOf (d : document) : summary :=
  {| sId := id d;
     sTitle := orValue (title d) (filename d);
     sUploadedAt := uploadedAt d;
     sContentPreview := contentPreview d;
     sWordCount := wordCount d;
     sCharacterCount := characterCount d |}.

(** [POST /api/generate] with the body [{ text, title }].  An exception is
    caught and answered with the status 500. *)
Definition postGenerate (docId : str) (now : Z) (text givenTitle : value)
    (st : state) : state * response :=
  let failed e :=
    (st, {| status := 500;
            json := FailedBody (lit "Failed to generate FAQs: ") e |}) in
  if negb (toBoolean text) || negb (isStringTag (typeof text)) then
    (st, failWith 400 "Text content is required")
  else
    match callTrim text with
    | Throw e => failed e
    | Normal trimmed =>
        if length trimmed =? 0 then
          (st, failWith 400 "Text content is required")
        else if length trimmed <? 50 then
          (st, failWith 400
                 "Please provide at least 50 characters for better FAQ generation")
        else
          match generateFAQs text, text with
          | Normal faqs, VString s =>
              let document :=
                {| id := docId;
                   title := orValue givenTitle (VString (lit "Text Input"));
                   filename := VUndefined;
                   content := Some s;
                   filePath := None;
                   uploadedAt := now;
                   contentPreview := preview s;
                   faqs := faqs;
                   wordCount := countWordsOf s;
                   characterCount := length s |} in
              ({| documents := mapSet (documents st) docId document;
                  files := files st |},
               ok (GeneratedBody
                     {| sId := id document;
                        sTitle := title document;
                        sUploadedAt := uploadedAt document;
                        sContentPreview := contentPreview document;
                        sWordCount := wordCount document;
                        sCharacterCount := characterCount document |}
                     faqs
                     (lit "Generated " ++ showNat (length faqs)
                        ++ lit " FAQs from your content")))
          | Throw e, _ => failed e
          | Normal _, _ => failed TypeError
          end
    end.

(** [GET /api/documents/:id] *)
Definition getDocument (docId : str) (st : state) : response :=
  match mapGet (documents st) docId with
  | None => failWith 404 "Document not found"
  | Some document => ok (DocumentBody (summaryOf document) (faqs document))
  end.

(** [DELETE /api/documents/:id].  A failure of [unlinkSync] is caught and
    logged; it changes neither the store nor the response. *)
Definition deleteDocument (docId : str) (st : state) : state * response :=
  match mapGet (documents st) docId with
  | None => (st, failWith 404 "Document not found")
  | Some document =>
      let files' :=
        match present (filePath document) with
        | Some path =>
            match mapGet (files st) path with
            | Some _ => mapDelete (files st) path
            | None => files st
            end
        | None => files st
        end in
      ({| documents := mapDelete (documents st) docId; files := files' |},
       ok (DeletedBody (lit "Document deleted successfully")))
  end.

(** [POST /api/documents/:id/regenerate] *)
Definition regenerate (docId : str) (st : state) : state * response :=
  match mapGet (documents st) docId with
  | None => (st, failWith 404 "Document not found")
  | Some document =>
      let text :=
        match present (content document), present (filePath document) with
        | None, Some path =>
            match mapGet (files st) path with
            | Some fileText => Some fileText
            | None => content document
            end
        | _, _ => content document
        end in
      match present text with
      | None => (st, failWith 400 "Unable to retrieve document content")
      | Some c =>
          match generateFAQs (VString c) with
          | Normal faqs =>
              let document' :=
                {| id := id document;
                   title := title document;
                   filename := filename document;
                   content := content document;
                   filePath := filePath document;
                   uploadedAt := uploadedAt document;
                   contentPreview := contentPreview document;
                   faqs := faqs;
                   wordCount := wordCount document;
                   characterCount := characterCount document |} in
              ({| documents := mapSet (documents st) docId document';
                  files := files st |},
               ok (RegeneratedBody faqs
                     (lit "Regenerated " ++ showNat (length faqs) ++ lit " FAQs")))
          | Throw e => (st, {| status := 500; json := FailedBody [] e |})
          end
      end
  end.

(** [(a, b) => new Date(b.uploadedAt) - new Date(a.uploadedAt)] *)
Definition byRecency (a b : listItem) : option Z :=
  Some (iUploadedAt b - iUploadedAt a)%Z.

Definition listItemOf (doc : document) : listItem :=
  {| iId := id doc;
     iTitle := orValue (title doc) (filename doc);
     iUploadedAt := uploadedAt doc;
     iContentPreview := contentPreview doc;
     iFaqCount := length (faqs doc);
     iWordCount := wordCount doc |}.

(** [GET /api/documents] *)
Definition getDocuments (st : state) : response :=
  let docList := map listItemOf (mapValues (documents st)) in
  ok (ListBody (sort byRecency docList)).

End Server.

(** ** The page: [formatDate] of the front end *)

Module App.
Import Js.

(** What [formatDate] returns: a text, or the date as
    [toLocaleDateString] writes it. *)
Inductive display :=
| Text (s : str)
| LocaleDate.

(** [${n} unit${n > 1 ? 's' : ''} ago] *)
Definition ago (n : Z) (unit : string) : str :=
  lit (NilEmpty.string_of_int (Z.to_int n)) ++ lit " " ++ lit unit
  ++ (if (1 <? n)%Z then lit "s" else []) ++ lit " ago".

(** [formatDate(dateString)] for a date that [new Date] can read: [date] and
    [now] are the two times in milliseconds. *)
Definition formatDate (date now : Z) : display :=
  let diff := (now - date)%Z in
  if (diff <? 60000)%Z then Text (lit "Just now")
  else if (diff <? 3600000)%Z then Text (ago (diff / 60000) "minute")
  else if (diff <? 86400000)%Z then Text (ago (diff / 3600000) "hour")
  else if (diff <? 604800000)%Z then Text (ago (diff / 86400000) "day")
  else LocaleDate.

End App.

(** ** Notions used in the statements *)

Import Js FAQGenerator.

(** [s] has a character that is not white space. *)
Definition visible (s : str) : bool := existsb (fun c => negb (isSpace c)) s.

(** The text [cleanAnswer] works on, after collapsing and trimming. *)
Definition collapsed (text : str) : str := trim (replaceRuns isSpace (lit " ") text).

(** An answer as the cleaner leaves it: not empty, ending in a terminator,
    and never starting with a lower-case letter. *)
Definition wellFormedAnswer (a : str) : Prop :=
  a <> [] /\
  endsWithTerminator a = true /\
  exists c rest, a = c :: rest /\ isLower c = false /\ toUpperChar c = c.

(** The answer of [faq] is the cleaned text of one sentence, or of a few
    sentences joined by a full stop and a space. *)
Definition derivedFrom (sentences : list str) (faq : FAQ) : Prop :=
  exists l, l <> [] /\ incl l sentences /\
            answer faq = cleanAnswer (join (lit ". ") l).

(** [[A-Z]] at the start of a string. *)
Definition beginsUpperCase (a : str) : bool :=
  match a with
  | c :: _ => isUpper c
  | [] => false
  end.

(** [l] is [l'] with some elements left out, the others in their order. *)
Inductive Subsequence {A : Type} : list A -> list A -> Prop :=
| Subsequence_nil : Subsequence [] []
| Subsequence_skip (x : A) (l l' : list A) :
    Subsequence l l' -> Subsequence l (x :: l')
| Subsequence_keep (x : A) (l l' : list A) :
    Subsequence l l' -> Subsequence (x :: l) (x :: l').

(** Normalizing newlines to spaces, as [extractSentences] does it: a run of
    newlines becomes one space. *)
Definition newlinesToSpaces (text : str) : str :=
  replaceRuns isNewline (lit " ") text.

(** The first character is a separator of [split(/\s+/)]. *)
Definition headSpace (t : str) : bool :=
  match t with
  | c :: _ => isSpace c
  | [] => false
  end.

(** What [extractKeywords] makes of a character before it splits: lower
    case, and a space for what is not a letter, a digit or white space. *)
Definition keywordChar (c : ascii) : ascii :=
  if negb (isKeywordChar (toLowerChar c)) then " "%char else toLowerChar c.

Definition str_eq_dec : forall a b : str, {a = b} + {a <> b} :=
  list_eq_dec ascii_dec.

(** How often [w] is among the words of the text. *)
Definition frequency (words : list str) (w : str) : nat :=
  count_occ str_eq_dec words w.

(** [a] is among [words], and [b] is not seen before [a] is. *)
Definition seenBefore (words : list str) (a b : str) : Prop :=
  exists l1 l2, words = l1 ++ a :: l2 /\ ~ In a l1 /\ ~ In b l1.

(** The order in which [Object.entries] lists two keys of the count table:
    array indices by their value and in front of the other keys, the other
    keys as they were first seen. *)
Definition enumeratedBefore (words : list str) (a b : str) : Prop :=
  match isArrayIndex a, isArrayIndex b with
  | true, true => (indexValue a <= indexValue b)%N
  | true, false => True
  | false, true => False
  | false, false => seenBefore words a b
  end.

(** The order of the keywords: the more frequent word first, and of two
    words of the same frequency the one that is enumerated first. *)
Definition rankedBefore (words : list str) (a b : str) : Prop :=
  frequency words b < frequency words a \/
  (frequency words a = frequency words b /\ enumeratedBefore words a b).

(** The number a cell counts. *)
Definition counted (e : str * cell) : nat :=
  match snd e with
  | Count n => n
  | NotNumber _ => 0
  end.

(** What a stable sort by [before] makes of a list in the order [R]: [x] is
    not after [y], and when neither is after the other they are in the order
    they had. *)
Definition stablyBefore {A} (before : A -> A -> bool) (R : A -> A -> Prop)
    (x y : A) : Prop :=
  before x y = true /\ (before y x = true -> R x y).

(** The count table [o] after the words [done]: one key for every word, in
    the order the words were first seen, and with its frequency as long as
    no word is [constructor]. *)
Definition tableFor (done : list str) (o : object) : Prop :=
  NoDup (map fst o) /\
  (forall k, In k (map fst o) <-> In k done) /\
  StronglySorted (seenBefore done) (map fst o) /\
  (~ In (lit "constructor") done ->
   Forall (fun e => snd e = Count (frequency done (fst e))) o).

(** A text that ends in a character which is neither white space nor a
    terminator. *)
Definition endsInWord (x : str) : Prop :=
  exists y c, x = y ++ [c] /\ isSpace c = false /\ isTerminator c = false.

(** White space in [s] is single spaces: every white-space character is a
    space and follows a character that is not white space.  [afterSpace] says
    that the character in front of [s] is white space. *)
Fixpoint singleSpaced (afterSpace : bool) (s : str) : Prop :=
  match s with
  | [] => True
  | c :: s' =>
      if isSpace c then c = " "%char /\ afterSpace = false /\ singleSpaced true s'
      else singleSpaced false s'
  end.

(** The question templates of the five generators: what stands in front of
    the subject and what follows it. *)
Definition questionTemplates : list (str * str) :=
  [ (lit "What is ", lit "?");
    (lit "How does ", lit " work?");
    (lit "How do I get started with ", lit "?");
    (lit "What features does ", lit " offer?");
    (lit "Why should I use ", lit "?");
    (lit "Can I customize ", lit "?");
    (lit "What are the requirements for ", lit "?");
    (lit "Where can I find more information about ", lit "?") ].

(** The question of [faq] is a template around a topic; only the
    requirements question can name [undefined], when there is no topic. *)
Definition asksAbout (topics : list str) (faq : FAQ) : Prop :=
  exists pre post subject,
    In (pre, post) questionTemplates /\
    question faq = pre ++ subject ++ post /\
    (In subject topics \/
     (topics = [] /\ subject = lit "undefined" /\
      pre = lit "What are the requirements for ")).

(** [a] stands in front of [b] in the list [l]. *)
Definition precedes {A} (l : list A) (a b : A) : Prop :=
  exists l1 l2 l3, l = l1 ++ a :: l2 ++ b :: l3.

(** The last character of [t] is a separator. *)
Definition lastSeparator (p : ascii -> bool) (t : str) : bool :=
  match lastChar t with
  | Some c => p c
  | None => false
  end.

(** The first character of [t] is a separator. *)
Definition firstSeparator (p : ascii -> bool) (t : str) : bool :=
  match t with
  | c :: _ => p c
  | [] => false
  end.

(** The words of a text: the maximal runs of characters that are not white
    space, in their order. *)
Definition wordsOf (x : str) : list str :=
  filter (fun piece => negb (length piece =? 0)) (split isSpace x).

(** What follows the first word when words are written with one space
    between them. *)
Definition spaceThenWords (l : list str) : str :=
  match l with
  | [] => []
  | _ => lit " " ++ join (lit " ") l
  end.

(** Normalizing newlines to spaces, character by character: every newline
    becomes one space, so a run of newlines becomes as many spaces. *)
Definition newlineToSpace (c : ascii) : ascii :=
  if isNewline c then " "%char else c.

Definition eachNewlineToSpace (text : str) : str :=
  replaceEach isNewline " "%char text.

(** Two newlines stand next to each other somewhere in the text. *)
Fixpoint hasNewlineRun (text : str) : bool :=
  match text with
  | [] => false
  | c :: t => (isNewline c && firstSeparator isNewline t) || hasNewlineRun t
  end.

(** No newline in a text. *)
Definition newlineFree (m : str) : Prop := Forall (fun c => isNewline c = false) m.

(** Two texts that differ only in which white-space character stands at a
    position. *)
Definition sameButSpaces (s t : str) : Prop :=
  Forall2 (fun a b => a = b \/ (isSpace a = true /\ isSpace b = true)) s t.

(** The keywords that the second loop of [identifyTopics] adds behind the
    topics it starts from: a keyword is left out when a topic in front of it,
    a keyword added before it among them, lower-cases to it, and is added
    otherwise. *)
Inductive keywordsAdded : list str -> list str -> list str -> Prop :=
| keywordsAdded_done (topics : list str) : keywordsAdded topics [] []
| keywordsAdded_skip (topics : list str) (k : str) (keywords added : list str) :
    (exists t, In t topics /\ toLowerCase t = k) ->
    keywordsAdded topics keywords added ->
    keywordsAdded topics (k :: keywords) added
| keywordsAdded_keep (topics : list str) (k : str) (keywords added : list str) :
    (forall t, In t topics -> toLowerCase t <> k) ->
    keywordsAdded (topics ++ [k]) keywords added ->
    keywordsAdded topics (k :: keywords) (k :: added).

(** ** Properties *)

(** *** Strings and characters *)

Lemma str_eqb_eq (a b : str) : str_eqb a b = true <-> a = b.
Proof.
  revert b; induction a as [|x a IH]; intros [|y b]; simpl; try easy.
  rewrite andb_true_iff, Ascii.eqb_eq, IH.
  split; [intros [-> ->]; reflexivity | intros H; inversion H; auto].
Qed.

Lemma str_eqb_refl (a : str) : str_eqb a a = true.
Proof. apply str_eqb_eq; reflexivity. Qed.

Lemma arrayIncludes_In (a : list str) (x : str) :
  arrayIncludes a x = true <-> In x a.
Proof.
  unfold arrayIncludes. rewrite existsb_exists. split.
  - intros (y & Hy & E). apply str_eqb_eq in E. subst; assumption.
  - intros H. exists x. split; [assumption | apply str_eqb_refl].
Qed.

Lemma arrayIncludes_not_In (a : list str) (x : str) :
  arrayIncludes a x = false <-> ~ In x a.
Proof.
  rewrite <- arrayIncludes_In. destruct (arrayIncludes a x); split; congruence.
Qed.

(** A property of characters is checked on the 256 of them. *)
Ltac each_char c :=
  destruct c as [[] [] [] [] [] [] [] []]; vm_compute; try reflexivity; try discriminate; auto.

Lemma toUpperChar_not_lower (c : ascii) : isLower (toUpperChar c) = false.
Proof. each_char c. Qed.

Lemma toUpperChar_space (c : ascii) : isSpace (toUpperChar c) = isSpace c.
Proof. each_char c. Qed.

Lemma toUpperChar_fixed (c : ascii) : toUpperChar (toUpperChar c) = toUpperChar c.
Proof. each_char c. Qed.

Lemma newline_is_space (c : ascii) : isNewline c = true -> isSpace c = true.
Proof. each_char c. Qed.

Lemma terminator_not_space (c : ascii) : isTerminator c = true -> isSpace c = false.
Proof. each_char c. Qed.

(** *** The guard of [generateFAQs] *)

Lemma generateFAQs_string (text : str) :
  generateFAQs (VString text) =
  Normal (if length (trim text) =? 0 then [] else generateFromText text).
Proof.
  unfold generateFAQs. simpl.
  destruct text as [|c text]; [reflexivity|]. simpl negb. cbv iota.
  destruct (length (trim (c :: text)) =? 0); reflexivity.
Qed.

(** C3. An input that is not a string (among them the missing argument,
    [undefined]) and a string that is empty after trimming both make
    [generateFAQs] return the empty array; nothing is thrown. *)
Theorem generateFAQs_invalid_input (text : value) :
  isStringTag (typeof text) = false \/
  (exists s, text = VString s /\ trim s = []) ->
  generateFAQs text = Normal [].
Proof.
  intros [H | (s & -> & H)].
  - unfold generateFAQs. destruct (negb (toBoolean text)); [reflexivity|].
    rewrite H. reflexivity.
  - rewrite generateFAQs_string, H. reflexivity.
Qed.

Lemma generateFAQs_invalid_input_witness :
  generateFAQs VUndefined = Normal [] /\
  generateFAQs (VNumber (Finite 5)) = Normal [] /\
  generateFAQs VObject = Normal [] /\
  generateFAQs (VString (lit "  ")) = Normal [].
Proof.
  split; [|split; [|split]].
  - apply generateFAQs_invalid_input. left. reflexivity.
  - apply generateFAQs_invalid_input. left. reflexivity.
  - apply generateFAQs_invalid_input. left. reflexivity.
  - apply generateFAQs_invalid_input. right. exists (lit "  ").
    split; reflexivity.
Defined.

(** *** Generators without sentences *)

Lemma fold_left_unchanged {A B} (f : A -> B -> A) (l : list B) (acc : A) :
  (forall a x, f a x = a) -> fold_left f l acc = acc.
Proof.
  intros H. revert acc. induction l as [|x l IH]; intros acc; simpl.
  - reflexivity.
  - rewrite H. apply IH.
Qed.

Lemma filter_none {A} (f : A -> bool) (l : list A) :
  Forall (fun x => f x = false) l -> filter f l = [].
Proof.
  induction 1 as [|x l Hx _ IH]; simpl; [reflexivity|].
  rewrite Hx. exact IH.
Qed.

Lemma candidates_no_sentences (topics : list str) : candidates [] topics = [].
Proof.
  unfold candidates.
  assert (D : generateDefinitionFAQs [] topics = []).
  { unfold generateDefinitionFAQs. apply fold_left_unchanged. reflexivity. }
  rewrite D. reflexivity.
Qed.

Lemma extractSentences_none (text : str) :
  Forall (fun piece => length piece <= 20) (sentencePieces text) ->
  extractSentences text = [].
Proof.
  intros H. unfold extractSentences. apply filter_none.
  eapply Forall_impl; [|exact H]. intros piece Hp. simpl in Hp.
  apply Nat.ltb_ge. exact Hp.
Qed.

(** C4. When no piece of the segmentation is longer than 20 characters,
    [generateFAQs] returns the empty array: without sentences each of the
    five generators emits nothing, whatever the topics are. *)
Theorem generateFAQs_no_long_sentence (text : str) :
  Forall (fun piece => length piece <= 20) (sentencePieces text) ->
  generateFAQs (VString text) = Normal [] /\
  forall topics,
    generateDefinitionFAQs [] topics = [] /\
    generateProcessFAQs [] topics = [] /\
    generateFeatureFAQs [] topics = [] /\
    generateBenefitFAQs [] topics = [] /\
    generateTopicFAQs [] topics = [].
Proof.
  intros H. split.
  - rewrite generateFAQs_string.
    destruct (length (trim text) =? 0); [reflexivity|].
    unfold generateFromText. rewrite (extractSentences_none text H).
    rewrite candidates_no_sentences. reflexivity.
  - intros topics. repeat split.
    unfold generateDefinitionFAQs. apply fold_left_unchanged. reflexivity.
Qed.

Lemma generateFAQs_no_long_sentence_witness :
  let text := lit "Widgets are great. Gadgets too! Widgets help a lot." in
  Forall (fun piece => length piece <= 20) (sentencePieces text) /\
  generateFAQs (VString text) = Normal [].
Proof.
  intros text.
  assert (H : Forall (fun piece => length piece <= 20) (sentencePieces text)).
  { apply Forall_forall. intros piece Hp. vm_compute in Hp.
    repeat (destruct Hp as [<- | Hp]; [apply Nat.leb_le; reflexivity|]).
    destruct Hp. }
  split; [exact H | apply (generateFAQs_no_long_sentence text H)].
Defined.

(** *** Visible text and the answer cleaner *)

Lemma visible_app (a b : str) : visible (a ++ b) = visible a || visible b.
Proof. apply existsb_app. Qed.

Lemma visible_rev (s : str) : visible (rev s) = visible s.
Proof.
  induction s as [|c s IH]; simpl; [reflexivity|].
  rewrite visible_app, IH. simpl. rewrite orb_false_r. apply orb_comm.
Qed.

Lemma dropWhile_head (p : ascii -> bool) (s : str) (c : ascii) (r : str) :
  dropWhile p s = c :: r -> p c = false.
Proof.
  induction s as [|x s IH]; simpl; [discriminate|].
  destruct (p x) eqn:E; [exact IH|].
  intros H. inversion H. subst. exact E.
Qed.

Lemma visible_dropWhile (s : str) : visible (dropWhile isSpace s) = visible s.
Proof.
  induction s as [|c s IH]; simpl; [reflexivity|].
  destruct (isSpace c) eqn:E; simpl; rewrite ?E; simpl; auto.
Qed.

Lemma visible_trim (s : str) : visible (trim s) = visible s.
Proof.
  unfold trim, trimEnd, trimStart.
  rewrite visible_rev, visible_dropWhile, visible_rev. apply visible_dropWhile.
Qed.

Lemma visible_nonempty (s : str) : visible s = true -> s <> [].
Proof. destruct s; [discriminate | discriminate]. Qed.

Lemma dropWhile_visible (s : str) :
  dropWhile isSpace s <> [] -> visible s = true.
Proof.
  intros H. rewrite <- visible_dropWhile.
  destruct (dropWhile isSpace s) as [|c r] eqn:E; [contradiction|].
  simpl. rewrite (dropWhile_head _ _ _ _ E). reflexivity.
Qed.

(** A trimmed string that is not empty has a visible character. *)
Lemma trim_visible (s : str) : trim s <> [] -> visible (trim s) = true.
Proof.
  unfold trim, trimEnd. intros H.
  assert (H' : dropWhile isSpace (rev (trimStart s)) <> []).
  { intros E. apply H. rewrite E. reflexivity. }
  rewrite visible_rev, visible_dropWhile. apply dropWhile_visible. exact H'.
Qed.

Lemma visible_replaceRunsFrom (b : bool) (s : str) :
  visible (replaceRunsFrom isSpace (lit " ") b s) = visible s.
Proof.
  revert b. induction s as [|c s IH]; intros b; simpl; [reflexivity|].
  destruct (isSpace c) eqn:E; simpl.
  - rewrite visible_app, IH. destruct b; reflexivity.
  - rewrite E. reflexivity.
Qed.

Lemma lastChar_snoc (s : str) (c : ascii) : lastChar (s ++ [c]) = Some c.
Proof. unfold lastChar. rewrite rev_app_distr. reflexivity. Qed.

Lemma visible_collapsed (text : str) : visible (collapsed text) = visible text.
Proof.
  unfold collapsed, replaceRuns. rewrite visible_trim.
  apply visible_replaceRunsFrom.
Qed.

(** What [cleanAnswer] returns for a text with a visible character: the
    collapsed text with its first character upper-cased, and a full stop
    added unless it ends in a terminator. *)
Lemma cleanAnswer_visible (text : str) :
  visible text = true ->
  exists c rest,
    collapsed text = c :: rest /\
    let capitalized := toUpperChar c :: rest in
    cleanAnswer text =
    if endsWithTerminator capitalized then capitalized else capitalized ++ lit ".".
Proof.
  intros V.
  assert (V' := V). rewrite <- visible_collapsed in V'.
  destruct (collapsed text) as [|c rest] eqn:E; [discriminate|].
  exists c, rest. split; [reflexivity|].
  destruct text as [|x text]; [discriminate|].
  unfold cleanAnswer. fold (collapsed (x :: text)). rewrite E. cbv zeta.
  destruct (endsWithTerminator (toUpperChar c :: rest)); reflexivity.
Qed.

Lemma cleanAnswer_invisible (text : str) :
  visible text = false -> cleanAnswer text = [].
Proof.
  intros V. destruct text as [|x text]; [reflexivity|].
  unfold cleanAnswer. fold (collapsed (x :: text)).
  destruct (collapsed (x :: text)) as [|c rest] eqn:E; [reflexivity|].
  rewrite <- visible_collapsed, E in V.
  assert (T : trim (replaceRuns isSpace (lit " ") (x :: text)) <> [])
    by (fold (collapsed (x :: text)); rewrite E; discriminate).
  apply trim_visible in T. fold (collapsed (x :: text)) in T.
  rewrite E in T. congruence.
Qed.

Lemma cleanAnswer_wellFormed (text : str) :
  visible text = true -> wellFormedAnswer (cleanAnswer text).
Proof.
  intros V. destruct (cleanAnswer_visible text V) as (c & rest & _ & E).
  cbv zeta in E. rewrite E.
  destruct (endsWithTerminator (toUpperChar c :: rest)) eqn:T.
  - split; [discriminate|]. split; [exact T|].
    exists (toUpperChar c), rest.
    split; [reflexivity|]. split; [apply toUpperChar_not_lower | apply toUpperChar_fixed].
  - split; [discriminate|]. split.
    + unfold endsWithTerminator, lit. simpl list_ascii_of_string.
      rewrite lastChar_snoc. reflexivity.
    + exists (toUpperChar c), (rest ++ lit ".").
      split; [reflexivity|].
      split; [apply toUpperChar_not_lower | apply toUpperChar_fixed].
Qed.

(** *** Where the answers of the candidates come from *)

Lemma fold_left_invariant {A B} (P : A -> Prop) (Q : B -> Prop)
    (f : A -> B -> A) (l : list B) (acc : A) :
  (forall a x, Q x -> P a -> P (f a x)) ->
  Forall Q l -> P acc -> P (fold_left f l acc).
Proof.
  intros Step HQ. revert acc.
  induction HQ as [|x l Hx _ IH]; intros acc Hacc; simpl; auto.
Qed.

Lemma Forall_slice0 {A} (P : A -> Prop) (n : nat) (l : list A) :
  Forall P l -> Forall P (slice0 n l).
Proof.
  intros H. unfold slice0. rewrite <- (firstn_skipn n l) in H.
  apply Forall_app in H. tauto.
Qed.

Lemma incl_slice0 {A} (n : nat) (l : list A) : incl (slice0 n l) l.
Proof.
  intros x Hx. unfold slice0 in Hx. rewrite <- (firstn_skipn n l).
  apply in_or_app. left. exact Hx.
Qed.

Lemma Forall_push {A} (P : A -> Prop) (l : list A) (x : A) :
  Forall P l -> P x -> Forall P (l ++ [x]).
Proof. intros Hl Hx. apply Forall_app. split; [exact Hl | repeat constructor; exact Hx]. Qed.

Lemma truthy_Some (o : option str) (s : str) :
  truthy o = Some s -> o = Some s /\ s <> [].
Proof.
  destruct o as [[|c r]|]; simpl; try discriminate.
  intros H. inversion H. split; [reflexivity | discriminate].
Qed.

Lemma derivedFrom_single (sentences : list str) (q s : str) :
  In s sentences ->
  derivedFrom sentences {| question := q; answer := cleanAnswer s |}.
Proof.
  intros H. exists [s]. split; [discriminate|]. split; [|reflexivity].
  intros x [<- | []]. exact H.
Qed.

Lemma positive_length {A} (l : list A) :
  (0 <? length l) = true -> exists x r, l = x :: r.
Proof.
  destruct l as [|x r]; [discriminate|]. intros _. exists x, r. reflexivity.
Qed.

Lemma derivedFrom_first (sentences : list str) (f : str -> bool) (q : str) :
  (0 <? length (filter f sentences)) = true ->
  derivedFrom sentences
    {| question := q; answer := cleanAnswer (first (filter f sentences)) |}.
Proof.
  intros H. destruct (positive_length _ H) as (x & r & E).
  rewrite E. simpl. apply derivedFrom_single.
  assert (I : In x (filter f sentences)) by (rewrite E; left; reflexivity).
  apply filter_In in I. tauto.
Qed.

Lemma derivedFrom_joined (sentences : list str) (f : str -> bool) (n : nat) (q : str) :
  (0 <? length (filter f sentences)) = true ->
  derivedFrom sentences
    {| question := q;
       answer := cleanAnswer (join (lit ". ") (slice0 (S n) (filter f sentences))) |}.
Proof.
  intros H. destruct (positive_length _ H) as (x & r & E).
  exists (slice0 (S n) (filter f sentences)). split; [|split; [|reflexivity]].
  - rewrite E. discriminate.
  - intros y Hy. apply incl_slice0 in Hy. apply filter_In in Hy. tauto.
Qed.

Lemma generateDefinitionFAQs_derived (sentences topics : list str) :
  Forall (derivedFrom sentences) (generateDefinitionFAQs sentences topics).
Proof.
  unfold generateDefinitionFAQs.
  apply (fold_left_invariant (Forall (derivedFrom sentences)) (fun _ => True)).
  - intros faqs topic _ Hf.
    destruct (truthy (find (fun s => mentions s topic) sentences)) as [rel|] eqn:E;
      [|exact Hf].
    apply truthy_Some in E. destruct E as [E _]. apply find_some in E.
    apply Forall_push; [exact Hf|]. apply derivedFrom_single. tauto.
  - apply Forall_forall. trivial.
  - constructor.
Qed.

Lemma generateProcessFAQs_derived (sentences topics : list str) :
  Forall (derivedFrom sentences) (generateProcessFAQs sentences topics).
Proof.
  unfold generateProcessFAQs. apply Forall_slice0.
  match goal with
  | |- Forall _ (if _ then ?l ++ _ else ?l) =>
      assert (L : Forall (derivedFrom sentences) l)
  end.
  { apply (fold_left_invariant (Forall (derivedFrom sentences))
                               (fun s => In s sentences)).
    - intros faqs sentence Hs Hf.
      destruct (hasIndicator processIndicators sentence); [|exact Hf].
      destruct (truthy (find (fun t => mentions sentence t) topics)); [|exact Hf].
      apply Forall_push; [exact Hf|]. apply derivedFrom_single. exact Hs.
    - apply Forall_forall. trivial.
    - constructor. }
  destruct (0 <? length (filter (test stepPattern) sentences)) eqn:E; cbn [andb];
    [|exact L].
  destruct (0 <? length topics); cbn [andb]; [|exact L].
  apply Forall_push; [exact L|]. apply derivedFrom_joined. exact E.
Qed.

Lemma generateFeatureFAQs_derived (sentences topics : list str) :
  Forall (derivedFrom sentences) (generateFeatureFAQs sentences topics).
Proof.
  unfold generateFeatureFAQs.
  destruct (0 <? length (filter (hasIndicator featureIndicators) sentences)) eqn:E;
    cbn [andb]; [|constructor].
  destruct (0 <? length topics); cbn [andb]; [|constructor].
  constructor; [|constructor]. apply derivedFrom_joined. exact E.
Qed.

Lemma generateBenefitFAQs_derived (sentences topics : list str) :
  Forall (derivedFrom sentences) (generateBenefitFAQs sentences topics).
Proof.
  unfold generateBenefitFAQs.
  destruct (0 <? length (filter (hasIndicator benefitIndicators) sentences)) eqn:E;
    cbn [andb]; [|constructor].
  destruct (0 <? length topics); cbn [andb]; [|constructor].
  constructor; [|constructor]. apply derivedFrom_joined. exact E.
Qed.

Lemma generateTopicFAQs_derived (sentences topics : list str) :
  Forall (derivedFrom sentences) (generateTopicFAQs sentences topics).
Proof.
  unfold generateTopicFAQs. apply Forall_slice0.
  assert (Step : forall (b : bool) (l : list FAQ) (x : FAQ),
             Forall (derivedFrom sentences) l ->
             (b = true -> derivedFrom sentences x) ->
             Forall (derivedFrom sentences) (if b then l ++ [x] else l)).
  { intros [] l x Hl Hx; [apply Forall_push; auto | exact Hl]. }
  apply Step; [apply Step; [apply Step; [constructor|]|]|].
  - intros H. apply andb_true_iff in H. apply derivedFrom_first. tauto.
  - intros H. apply derivedFrom_first. exact H.
  - intros H. apply andb_true_iff in H. apply derivedFrom_first. tauto.
Qed.

Lemma candidates_derived (sentences topics : list str) :
  Forall (derivedFrom sentences) (candidates sentences topics).
Proof.
  unfold candidates. repeat (apply Forall_app; split).
  - apply generateDefinitionFAQs_derived.
  - apply generateProcessFAQs_derived.
  - apply generateFeatureFAQs_derived.
  - apply generateBenefitFAQs_derived.
  - apply generateTopicFAQs_derived.
Qed.

(** *** Sentences are trimmed and visible *)

Lemma takeWhile_dropWhile (p : ascii -> bool) (s : str) :
  takeWhile p s ++ dropWhile p s = s.
Proof.
  induction s as [|c s IH]; simpl; [reflexivity|].
  destruct (p c); simpl; [rewrite IH|]; reflexivity.
Qed.

Lemma dropWhile_dropWhile (p : ascii -> bool) (s : str) :
  dropWhile p (dropWhile p s) = dropWhile p s.
Proof.
  destruct (dropWhile p s) as [|c r] eqn:E; [reflexivity|].
  simpl. rewrite (dropWhile_head _ _ _ _ E). reflexivity.
Qed.

Lemma trim_trim (s : str) : trim (trim s) = trim s.
Proof.
  unfold trim, trimEnd. set (t := trimStart s).
  set (u := dropWhile isSpace (rev t)).
  assert (Start : trimStart (rev u) = rev u).
  { destruct (rev u) as [|c r] eqn:E; [reflexivity|].
    assert (T : t = (c :: r) ++ rev (takeWhile isSpace (rev t))).
    { rewrite <- E, <- rev_app_distr. unfold u.
      rewrite takeWhile_dropWhile. symmetry. apply rev_involutive. }
    unfold trimStart. simpl.
    unfold t, trimStart in T. simpl in T.
    rewrite (dropWhile_head _ _ _ _ T). reflexivity. }
  rewrite Start, rev_involutive. unfold u.
  rewrite dropWhile_dropWhile. reflexivity.
Qed.

Lemma extractSentences_spec (text s : str) :
  In s (extractSentences text) ->
  trim s = s /\ 20 < length s /\ visible s = true.
Proof.
  unfold extractSentences, sentencePieces. intros H.
  apply filter_In in H. destruct H as [H L].
  apply in_map_iff in H. destruct H as (piece & <- & _).
  apply Nat.ltb_lt in L. split; [apply trim_trim|]. split; [exact L|].
  apply trim_visible. intros E. rewrite E in L. simpl in L. lia.
Qed.

Lemma visible_join (sep : str) (l : list str) :
  l <> [] -> Forall (fun s => visible s = true) l -> visible (join sep l) = true.
Proof.
  intros N H. destruct H as [|x l Hx _]; [contradiction|].
  destruct l as [|y l]; simpl; [exact Hx|].
  rewrite visible_app, Hx. reflexivity.
Qed.

Lemma derivedFrom_visible (sentences : list str) (faq : FAQ) :
  Forall (fun s => visible s = true) sentences ->
  derivedFrom sentences faq ->
  exists x, visible x = true /\ answer faq = cleanAnswer x.
Proof.
  intros V (l & N & I & E). exists (join (lit ". ") l). split; [|exact E].
  apply visible_join; [exact N|].
  apply Forall_forall. intros s Hs. rewrite Forall_forall in V. auto.
Qed.

(** *** [removeDuplicates] keeps a part of its input *)

Lemma removeDuplicatesFrom_incl (seen : list str) (faqs : list FAQ) :
  incl (removeDuplicatesFrom seen faqs) faqs.
Proof.
  revert seen. induction faqs as [|f faqs IH]; intros seen x; simpl; [tauto|].
  destruct (arrayIncludes seen (normalized f)).
  - intros H. right. exact (IH _ _ H).
  - intros [<- | H]; [left; reflexivity | right; exact (IH _ _ H)].
Qed.

Lemma generateFromText_candidate (text : str) (faq : FAQ) :
  In faq (generateFromText text) ->
  In faq (candidates (extractSentences text)
                     (identifyTopics text (extractKeywords text))).
Proof.
  unfold generateFromText, removeDuplicates. intros H.
  apply incl_slice0 in H. apply removeDuplicatesFrom_incl in H. exact H.
Qed.

Lemma generateFromText_derived (text : str) :
  Forall (fun faq => derivedFrom (extractSentences text) faq /\
                     wellFormedAnswer (answer faq))
         (generateFromText text).
Proof.
  apply Forall_forall. intros faq H. apply generateFromText_candidate in H.
  pose proof (candidates_derived (extractSentences text)
                (identifyTopics text (extractKeywords text))) as D.
  rewrite Forall_forall in D. specialize (D faq H). split; [exact D|].
  destruct (derivedFrom_visible (extractSentences text) faq) as (x & V & E).
  - apply Forall_forall. intros s Hs. apply (extractSentences_spec text s Hs).
  - exact D.
  - rewrite E. apply cleanAnswer_wellFormed. exact V.
Qed.

(** C10. Every FAQ that [generateFAQs] returns has an answer that is not
    empty: the answer is the cleaned text of one or more extracted sentences,
    and an extracted sentence is trimmed and longer than 20 characters. *)
Theorem generateFAQs_answer_nonempty (text : str) :
  exists faqs,
    generateFAQs (VString text) = Normal faqs /\
    Forall (fun faq => answer faq <> [] /\
                       derivedFrom (extractSentences text) faq) faqs /\
    Forall (fun s => trim s = s /\ 20 < length s) (extractSentences text).
Proof.
  rewrite generateFAQs_string.
  eexists. split; [reflexivity|]. split.
  - destruct (length (trim text) =? 0); [constructor|].
    eapply Forall_impl; [|apply generateFromText_derived].
    intros faq [D W]. split; [apply W | exact D].
  - apply Forall_forall. intros s Hs.
    destruct (extractSentences_spec text s Hs) as (T & L & _). tauto.
Qed.

(** The claim C2 as it is written fails: an answer can start with a digit. *)
Lemma generateFAQs_answer_not_capitalized :
  exists faqs faq,
    generateFAQs (VString (lit "42 widgets are needed for the process to work"))
    = Normal faqs /\
    In faq faqs /\
    answer faq = lit "42 widgets are needed for the process to work." /\
    answer faq <> [] /\
    beginsUpperCase (answer faq) = false.
Proof.
  eexists. eexists. split; [vm_compute; reflexivity|].
  split; [left; reflexivity|]. split; [reflexivity|].
  split; [discriminate | reflexivity].
Qed.

(** *** [removeDuplicates] keeps the first FAQ of every normalized question *)

Lemma removeDuplicatesFrom_subsequence (faqs : list FAQ) :
  forall seen', Subsequence (removeDuplicatesFrom seen' faqs) faqs.
Proof.
  induction faqs as [|f faqs IH]; intros seen'; simpl; [constructor|].
  destruct (arrayIncludes seen' (normalized f)); constructor; apply IH.
Qed.

Lemma removeDuplicatesFrom_fresh (faqs : list FAQ) :
  forall seen' f, In f (removeDuplicatesFrom seen' faqs) ->
                  ~ In (normalized f) seen'.
Proof.
  induction faqs as [|x faqs IH]; intros seen' f; simpl; [tauto|].
  destruct (arrayIncludes seen' (normalized x)) eqn:E.
  - apply IH.
  - intros [<- | H].
    + apply arrayIncludes_not_In. exact E.
    + apply IH in H. intros I. apply H. right. exact I.
Qed.

Lemma removeDuplicatesFrom_NoDup (faqs : list FAQ) :
  forall seen', NoDup (map normalized (removeDuplicatesFrom seen' faqs)).
Proof.
  induction faqs as [|x faqs IH]; intros seen'; simpl; [constructor|].
  destruct (arrayIncludes seen' (normalized x)); [apply IH|].
  simpl. constructor; [|apply IH].
  intros I. apply in_map_iff in I. destruct I as (f & E & I).
  apply removeDuplicatesFrom_fresh in I. apply I. left. symmetry. exact E.
Qed.

Lemma removeDuplicatesFrom_complete (faqs : list FAQ) :
  forall seen' c, In c faqs ->
    In (normalized c) seen' \/
    In (normalized c) (map normalized (removeDuplicatesFrom seen' faqs)).
Proof.
  induction faqs as [|x faqs IH]; intros seen' c; simpl; [tauto|].
  destruct (arrayIncludes seen' (normalized x)) eqn:E.
  - intros [<- | H]; [left; apply arrayIncludes_In; exact E | apply IH; exact H].
  - intros [<- | H]; [right; left; reflexivity|].
    destruct (IH (normalized x :: seen') c H) as [[Eq | I] | I].
    + right. left. exact Eq.
    + left. exact I.
    + right. right. exact I.
Qed.

Lemma removeDuplicatesFrom_first (faqs : list FAQ) :
  forall seen' f, In f (removeDuplicatesFrom seen' faqs) ->
    exists before after,
      faqs = before ++ f :: after /\
      ~ In (normalized f) (map normalized before).
Proof.
  induction faqs as [|x faqs IH]; intros seen' f; simpl; [tauto|].
  destruct (arrayIncludes seen' (normalized x)) eqn:E.
  - intros H. pose proof (removeDuplicatesFrom_fresh _ _ _ H) as F.
    destruct (IH _ _ H) as (before & after & -> & N).
    exists (x :: before), after. split; [reflexivity|].
    simpl. intros [Eq | I]; [|exact (N I)].
    apply F. rewrite <- Eq. apply arrayIncludes_In. exact E.
  - intros [<- | H].
    + exists [], faqs. split; [reflexivity | simpl; tauto].
    + pose proof (removeDuplicatesFrom_fresh _ _ _ H) as F.
      destruct (IH _ _ H) as (before & after & -> & N).
      exists (x :: before), after. split; [reflexivity|].
      simpl. intros [Eq | I]; [|exact (N I)].
      apply F. left. exact Eq.
Qed.

Lemma NoDup_slice0 {A} (n : nat) (l : list A) : NoDup l -> NoDup (slice0 n l).
Proof.
  intros H. unfold slice0. rewrite <- (firstn_skipn n l) in H.
  apply NoDup_app_remove_r in H. exact H.
Qed.

(** C1. For a text that is not empty after trimming, [generateFAQs] returns
    at most 10 FAQs, no two with the same normalized question.  They are the
    first 10 of the list [unique], which keeps, of the candidates in
    generation order (Definition, Process, Feature, Benefit, General), the
    first one of every normalized question: the duplicates are dropped
    before the list is cut. *)
Theorem generateFAQs_unique (text : str) :
  trim text <> [] ->
  let sentences := extractSentences text in
  let topics := identifyTopics text (extractKeywords text) in
  let generated :=
    generateDefinitionFAQs sentences topics
    ++ generateProcessFAQs sentences topics
    ++ generateFeatureFAQs sentences topics
    ++ generateBenefitFAQs sentences topics
    ++ generateTopicFAQs sentences topics in
  exists faqs unique,
    generateFAQs (VString text) = Normal faqs /\
    length faqs <= 10 /\
    NoDup (map normalized faqs) /\
    faqs = firstn 10 unique /\
    Subsequence unique generated /\
    NoDup (map normalized unique) /\
    (forall c, In c generated -> In (normalized c) (map normalized unique)) /\
    (forall f, In f unique ->
       exists before after,
         generated = before ++ f :: after /\
         ~ In (normalized f) (map normalized before)).
Proof.
  intros T sentences topics generated.
  exists (generateFromText text), (removeDuplicates generated).
  assert (G : generateFromText text = firstn 10 (removeDuplicates generated))
    by reflexivity.
  split.
  { rewrite generateFAQs_string.
    destruct (trim text) as [|c r]; [contradiction | reflexivity]. }
  split; [rewrite G; apply firstn_le_length|].
  split.
  { rewrite G. rewrite <- firstn_map. apply (NoDup_slice0 10).
    apply removeDuplicatesFrom_NoDup. }
  split; [exact G|].
  split; [apply removeDuplicatesFrom_subsequence|].
  split; [apply removeDuplicatesFrom_NoDup|].
  split.
  - intros c H.
    destruct (removeDuplicatesFrom_complete generated [] c H) as [[] | I].
    exact I.
  - intros f H. exact (removeDuplicatesFrom_first generated [] f H).
Qed.

Lemma generateFAQs_unique_witness :
  let text := lit "Widgets help you save time and improve efficiency. You can customize Widgets easily." in
  trim text <> [] /\
  exists faqs,
    generateFAQs (VString text) = Normal faqs /\
    length faqs <= 10 /\
    NoDup (map normalized faqs).
Proof.
  intros text.
  assert (T : trim text <> []) by (vm_compute; discriminate).
  split; [exact T|].
  destruct (generateFAQs_unique text T) as (faqs & unique & E & L & N & _).
  exists faqs. split; [exact E|]. split; [exact L | exact N].
Defined.

(** *** The General generator *)

Lemma filter_find {A} (f : A -> bool) (l : list A) (s : A) :
  In s l -> f s = true ->
  exists x r, filter f l = x :: r /\ find f l = Some x.
Proof.
  induction l as [|y l IH]; simpl; [tauto|].
  intros H Fs. destruct (f y) eqn:E.
  - exists y, (filter f l). split; reflexivity.
  - destruct H as [-> | H]; [congruence|]. apply IH; assumption.
Qed.

(** C8, as the code has it.  When some sentence contains one of the
    indicators can, able, possible, support, allow and there are at least two
    topics, the General generator emits first the FAQ "Can I customize
    {subject}?", answered by the first such sentence, cleaned; the subject is
    [topics[1]], and [topics[0]] only when [topics[1]] is the empty string. *)
Theorem generateTopicFAQs_customize
    (sentences : list str) (t0 t1 : str) (rest : list str) (s : str) :
  In s sentences ->
  hasIndicator canIndicators s = true ->
  exists firstMatch others,
    find (hasIndicator canIndicators) sentences = Some firstMatch /\
    generateTopicFAQs sentences (t0 :: t1 :: rest) =
    {| question := lit "Can I customize "
                     ++ match t1 with [] => t0 | _ => t1 end ++ lit "?";
       answer := cleanAnswer firstMatch |} :: others.
Proof.
  intros H Hs.
  destruct (filter_find _ _ _ H Hs) as (x & r & F & Fd).
  assert (Q : interpolate (orElse (nth_error (t0 :: t1 :: rest) 1)
                                  (nth_error (t0 :: t1 :: rest) 0))
              = match t1 with [] => t0 | _ => t1 end)
    by (destruct t1; reflexivity).
  assert (E : exists others,
             generateTopicFAQs sentences (t0 :: t1 :: rest) =
             {| question := lit "Can I customize "
                              ++ match t1 with [] => t0 | _ => t1 end ++ lit "?";
                answer := cleanAnswer x |} :: others).
  { unfold generateTopicFAQs. rewrite F, Q.
    destruct (0 <? length (filter (hasIndicator requireIndicators) sentences));
      destruct (0 <? length (filter (test locationPattern) sentences));
      eexists; reflexivity. }
  destruct E as (others & E).
  exists x, others. split; [exact Fd | exact E].
Qed.

Lemma generateTopicFAQs_customize_witness :
  let sentence := lit "You can customize Widgets easily" in
  exists others,
    generateTopicFAQs [sentence] [lit "Widgets"; lit "gadgets"] =
    {| question := lit "Can I customize gadgets?";
       answer := lit "You can customize Widgets easily." |} :: others.
Proof.
  intros sentence.
  destruct (generateTopicFAQs_customize [sentence] (lit "Widgets") (lit "gadgets")
              [] sentence (or_introl eq_refl) eq_refl)
    as (firstMatch & others & F & E).
  exists others. rewrite E.
  vm_compute in F. inversion F. reflexivity.
Defined.

(** The claim C8 as it is written fails: with one topic no such FAQ is
    emitted.  The sentence and the topic are what [generateFAQs] extracts
    from the text below. *)
Lemma generateTopicFAQs_customize_one_topic :
  let text := lit "you can do it with widgets as you see fit now" in
  let sentences := [text] in
  let topics := [lit "widgets"] in
  extractSentences text = sentences /\
  identifyTopics text (extractKeywords text) = topics /\
  hasIndicator canIndicators text = true /\
  generateTopicFAQs sentences topics = [].
Proof. vm_compute. repeat split. Qed.

(** The requirements branch of the General generator is the only one that
    does not ask for a topic.  When some sentence contains one of the
    indicators require, need, must, necessary, prerequisite and there is no
    topic, the generator emits exactly the requirements FAQ, answered by the
    first such sentence, cleaned; the missing topic [topics[0]] is
    interpolated as the text [undefined]. *)
Lemma generateTopicFAQs_requirements_no_topic (sentences : list str) (s : str) :
  In s sentences ->
  hasIndicator requireIndicators s = true ->
  exists firstMatch,
    find (hasIndicator requireIndicators) sentences = Some firstMatch /\
    generateTopicFAQs sentences [] =
    [{| question := lit "What are the requirements for undefined?";
        answer := cleanAnswer firstMatch |}].
Proof.
  intros H Hs.
  destruct (filter_find _ _ _ H Hs) as (x & r & F & Fd).
  exists x. split; [exact Fd|].
  unfold generateTopicFAQs. rewrite F.
  destruct (0 <? length (filter (hasIndicator canIndicators) sentences));
    destruct (0 <? length (filter (test locationPattern) sentences));
    reflexivity.
Qed.

Lemma generateTopicFAQs_requirements_no_topic_witness :
  let sentence := lit "we must do it now and you need to do it too" in
  generateTopicFAQs [sentence] [] =
  [{| question := lit "What are the requirements for undefined?";
      answer := lit "We must do it now and you need to do it too." |}].
Proof.
  intros sentence.
  destruct (generateTopicFAQs_requirements_no_topic [sentence] sentence
              (or_introl eq_refl) eq_refl) as (firstMatch & F & E).
  rewrite E. vm_compute in F. inversion F. reflexivity.
Defined.

(** C9 fails on the code.  The text below has one sentence, which contains
    must and need, and no topic.  The requirements branch has no guard on the
    topics, unlike every other branch that names [topics[0]], so the FAQ is
    emitted and its question reads [topics[0]], which is [undefined], as the
    text [undefined]: the subject of the question is not empty. *)
Theorem generateTopicFAQs_requirements_subject :
  let text := lit "we must do it now and you need to do it too" in
  extractSentences text = [text] /\
  identifyTopics text (extractKeywords text) = [] /\
  hasIndicator requireIndicators text = true /\
  map question (generateTopicFAQs [text] [])
  = [lit "What are the requirements for undefined?"] /\
  map question (generateTopicFAQs [text] [])
  <> [lit "What are the requirements for ?"] /\
  generateFAQs (VString text) =
  Normal [{| question := lit "What are the requirements for undefined?";
             answer := lit "We must do it now and you need to do it too." |}].
Proof.
  vm_compute. repeat split. discriminate.
Qed.

(** *** Capitalized phrases are not deduplicated *)

(** The fuel of the phrase matcher is enough: with [length s] or more the
    result is the same, so the matcher is the regular expression of the
    source on the whole text. *)
Lemma dropWhile_length (p : ascii -> bool) (s : str) :
  length (dropWhile p s) <= length s.
Proof.
  induction s as [|c s IH]; simpl; [lia|].
  destruct (p c); simpl; lia.
Qed.

Lemma capitalWord_shorter (s w r : str) :
  capitalWord s = Some (w, r) -> length r < length s.
Proof.
  destruct s as [|c s]; simpl; [discriminate|].
  destruct (isUpper c); [|discriminate].
  destruct (takeWhile isLower s); [discriminate|].
  intros H. inversion H. pose proof (dropWhile_length isLower s). lia.
Qed.

Lemma phraseFuel_shorter (fuel : nat) :
  forall s m rest, phraseFuel fuel s = Some (m, rest) -> length rest < length s.
Proof.
  induction fuel as [|fuel IH]; intros s m rest; simpl; [discriminate|].
  destruct (capitalWord s) as [[w r]|] eqn:W; [|discriminate].
  apply capitalWord_shorter in W.
  destruct (match takeWhile isSpace r with
            | [] => None
            | _ :: _ => phraseFuel fuel (dropWhile isSpace r)
            end) as [[m' rest']|] eqn:C.
  - intros H. inversion H. subst.
    destruct (takeWhile isSpace r); [discriminate|].
    apply IH in C. pose proof (dropWhile_length isSpace r). lia.
  - destruct (wordBoundary (lastChar w) (hd_error r)); [|discriminate].
    intros H. inversion H. subst. exact W.
Qed.

Lemma phraseFuel_enough (f1 : nat) :
  forall f2 s, length s <= f1 -> length s <= f2 ->
               phraseFuel f1 s = phraseFuel f2 s.
Proof.
  induction f1 as [|f1 IH]; intros f2 s L1 L2.
  - destruct s; [|simpl in L1; lia]. destruct f2; reflexivity.
  - destruct f2 as [|f2].
    + destruct s; [reflexivity | simpl in L2; lia].
    + simpl. destruct (capitalWord s) as [[w r]|] eqn:W; [|reflexivity].
      apply capitalWord_shorter in W.
      destruct (takeWhile isSpace r); [reflexivity|].
      pose proof (dropWhile_length isSpace r).
      rewrite (IH f2 (dropWhile isSpace r)) by lia. reflexivity.
Qed.

Lemma matchPhrasesFuel_enough (f1 : nat) :
  forall f2 prev s, length s <= f1 -> length s <= f2 ->
                    matchPhrasesFuel f1 prev s = matchPhrasesFuel f2 prev s.
Proof.
  induction f1 as [|f1 IH]; intros f2 prev s L1 L2.
  - destruct s; [|simpl in L1; lia]. destruct f2; reflexivity.
  - destruct f2 as [|f2].
    + destruct s; [reflexivity | simpl in L2; lia].
    + destruct s as [|c s]; [reflexivity|]. simpl in L1, L2. simpl.
      destruct (if wordBoundary prev (Some c) then phrase (c :: s) else None)
        as [[m rest]|] eqn:E.
      * f_equal. destruct (wordBoundary prev (Some c)); [|discriminate].
        apply phraseFuel_shorter in E. simpl in E. apply IH; lia.
      * apply IH; lia.
Qed.

Lemma toLowerChar_not_upper (c : ascii) : isUpper (toLowerChar c) = false.
Proof. each_char c. Qed.

Lemma capitalWord_upper (s w r : str) :
  capitalWord s = Some (w, r) -> beginsUpperCase w = true.
Proof.
  destruct s as [|c s]; simpl; [discriminate|].
  destruct (isUpper c) eqn:E; [|discriminate].
  destruct (takeWhile isLower s); [discriminate|].
  intros H. inversion H. exact E.
Qed.

Lemma phraseFuel_upper (fuel : nat) (s m rest : str) :
  phraseFuel fuel s = Some (m, rest) -> beginsUpperCase m = true.
Proof.
  destruct fuel as [|fuel]; simpl; [discriminate|].
  destruct (capitalWord s) as [[w r]|] eqn:W; [|discriminate].
  apply capitalWord_upper in W. destruct w as [|c w]; [discriminate|].
  destruct (match takeWhile isSpace r with
            | [] => None
            | _ :: _ => phraseFuel fuel (dropWhile isSpace r)
            end) as [[m' rest']|].
  - intros H. inversion H. exact W.
  - destruct (wordBoundary (lastChar (c :: w)) (hd_error r)); [|discriminate].
    intros H. inversion H. subst. exact W.
Qed.

Lemma matchPhrases_upper (text : str) :
  Forall (fun m => beginsUpperCase m = true) (matchPhrases text).
Proof.
  unfold matchPhrases. generalize (length text) as fuel. generalize (@None ascii).
  intros prev fuel. revert prev text.
  induction fuel as [|fuel IH]; intros prev s; simpl; [constructor|].
  destruct s as [|c s]; [constructor|].
  destruct (if wordBoundary prev (Some c) then phrase (c :: s) else None)
    as [[m rest]|] eqn:E; [|apply IH].
  constructor; [|apply IH].
  destruct (wordBoundary prev (Some c)); [|discriminate].
  apply (phraseFuel_upper _ _ _ _ E).
Qed.

Lemma arrayIncludes_lower (topics : list str) (m : str) :
  Forall (fun t => beginsUpperCase t = true) topics ->
  beginsUpperCase m = true ->
  arrayIncludes topics (toLowerCase m) = false.
Proof.
  intros F U. apply arrayIncludes_not_In. intros I.
  rewrite Forall_forall in F. apply F in I.
  destruct m as [|c m]; [discriminate|]. simpl in I.
  rewrite toLowerChar_not_upper in I. discriminate.
Qed.

(** The first loop of [identifyTopics] keeps every match that is longer
    than 3 characters: its lookup never finds the lower-cased match. *)
Lemma identifyTopics_phrases_kept (matches topics : list str) :
  Forall (fun m => beginsUpperCase m = true) matches ->
  Forall (fun t => beginsUpperCase t = true) topics ->
  fold_left (fun topics m =>
               if (3 <? length m) && negb (arrayIncludes topics (toLowerCase m))
               then topics ++ [m] else topics)
            matches topics
  = topics ++ filter (fun m => 3 <? length m) matches.
Proof.
  intros M. revert topics.
  induction M as [|m matches Hm _ IH]; intros topics T; simpl.
  - rewrite app_nil_r. reflexivity.
  - rewrite (arrayIncludes_lower topics m T Hm). simpl negb. rewrite andb_true_r.
    destruct (3 <? length m).
    + rewrite IH; [rewrite <- app_assoc; reflexivity|].
      apply Forall_app. split; [exact T | repeat constructor; exact Hm].
    + apply IH. exact T.
Qed.

(** C6 fails on the code.  [identifyTopics] looks the lower-cased match up
    among topics that are stored with their capital letters, so the lookup
    never finds it and a phrase that is repeated in the text is repeated
    among the topics. *)
Theorem identifyTopics_repeats_phrase :
  let text := lit "Widgets work. Widgets rock." in
  let topics := identifyTopics text (extractKeywords text) in
  matchPhrases text = [lit "Widgets"; lit "Widgets"] /\
  topics = [lit "Widgets"; lit "Widgets"; lit "work"; lit "rock"] /\
  exists a b,
    nth_error topics 0 = Some a /\ nth_error topics 1 = Some b /\
    toLowerCase a = toLowerCase b.
Proof.
  split; [reflexivity|]. split; [reflexivity|].
  exists (lit "Widgets"), (lit "Widgets"). repeat split.
Qed.

(** *** Newlines and spaces *)

Lemma replaceRunsFrom_clean (p : ascii -> bool) (r : str) (b : bool) (s : str) :
  Forall (fun c => p c = false) r ->
  Forall (fun c => p c = false) (replaceRunsFrom p r b s).
Proof.
  intros Hr. revert b. induction s as [|c s IH]; intros b; simpl; [constructor|].
  destruct (p c) eqn:E.
  - apply Forall_app. split; [destruct b; [constructor | exact Hr] | apply IH].
  - constructor; [exact E | apply IH].
Qed.

Lemma replaceRunsFrom_nothing (p : ascii -> bool) (r : str) (b : bool) (s : str) :
  Forall (fun c => p c = false) s -> replaceRunsFrom p r b s = s.
Proof.
  intros H. revert b. induction H as [|c s Hc _ IH]; intros b; simpl; [reflexivity|].
  rewrite Hc, IH. reflexivity.
Qed.

Lemma newlinesToSpaces_idempotent (text : str) :
  newlinesToSpaces (newlinesToSpaces text) = newlinesToSpaces text.
Proof.
  unfold newlinesToSpaces, replaceRuns. apply replaceRunsFrom_nothing.
  apply replaceRunsFrom_clean. repeat constructor.
Qed.

Lemma extractSentences_newlines (text : str) :
  extractSentences (newlinesToSpaces text) = extractSentences text.
Proof.
  unfold extractSentences, sentencePieces.
  fold (newlinesToSpaces (newlinesToSpaces text)). fold (newlinesToSpaces text).
  rewrite newlinesToSpaces_idempotent. reflexivity.
Qed.

Lemma split_cons (p : ascii -> bool) (c : ascii) (t : str) :
  split p (c :: t) =
  if p c then
    if match t with c' :: _ => p c' | [] => false end
    then split p t else [] :: split p t
  else
    match split p t with
    | piece :: rest => (c :: piece) :: rest
    | [] => [[c]]
    end.
Proof. destruct t; reflexivity. Qed.

Lemma split_separator (p : ascii -> bool) (c c' : ascii) (t : str) :
  p c = true -> p c' = true -> split p (c :: t) = split p (c' :: t).
Proof. intros H H'. rewrite !split_cons, H, H'. reflexivity. Qed.

Lemma keywordChar_newline (c : ascii) :
  isNewline c = true -> isSpace (keywordChar c) = true.
Proof. each_char c. Qed.

Lemma split_keywordChar_newlines (s : str) :
  (split isSpace (map keywordChar (replaceRunsFrom isNewline (lit " ") false s))
   = split isSpace (map keywordChar s) /\
   headSpace (map keywordChar (replaceRunsFrom isNewline (lit " ") false s))
   = headSpace (map keywordChar s)) /\
  (forall c, isSpace c = true ->
     split isSpace (c :: map keywordChar (replaceRunsFrom isNewline (lit " ") true s))
     = split isSpace (c :: map keywordChar s)).
Proof.
  change (lit " ") with [" "%char].
  induction s as [|x s [[A1 A2] B]]; [repeat split|].
  cbn [replaceRunsFrom]. destruct (isNewline x) eqn:E.
  - pose proof (keywordChar_newline x E) as Sx.
    cbn [app map].
    assert (Sp : isSpace (keywordChar " ") = true) by reflexivity.
    split; [split|].
    + rewrite (split_separator isSpace _ (keywordChar x) _ Sp Sx).
      apply B. exact Sx.
    + cbn [headSpace]. rewrite Sx. reflexivity.
    + intros c Hc. rewrite (B c Hc).
      rewrite (split_cons isSpace c (keywordChar x :: map keywordChar s)), Hc, Sx.
      apply split_separator; assumption.
  - cbn [map].
    assert (A : split isSpace (keywordChar x
                  :: map keywordChar (replaceRunsFrom isNewline [" "%char] false s))
                = split isSpace (keywordChar x :: map keywordChar s)).
    { rewrite !split_cons. fold (headSpace (map keywordChar s)).
      fold (headSpace (map keywordChar
                         (replaceRunsFrom isNewline [" "%char] false s))).
      rewrite A1, A2. reflexivity. }
    split; [split|].
    + exact A.
    + reflexivity.
    + intros c Hc.
      rewrite (split_cons isSpace c (keywordChar x :: map keywordChar s)).
      rewrite (split_cons isSpace c
                 (keywordChar x
                  :: map keywordChar (replaceRunsFrom isNewline [" "%char] false s))).
      rewrite A. reflexivity.
Qed.

Lemma keywordWords_map (text : str) :
  keywordWords text =
  filter (fun word => (3 <? length word) && negb (stopWords_has word))
         (split isSpace (map keywordChar text)).
Proof.
  unfold keywordWords, replaceEach, toLowerCase. rewrite map_map. reflexivity.
Qed.

Lemma extractKeywords_newlines (text : str) :
  extractKeywords (newlinesToSpaces text) = extractKeywords text.
Proof.
  unfold extractKeywords. rewrite !keywordWords_map.
  unfold newlinesToSpaces, replaceRuns.
  destruct (split_keywordChar_newlines text) as [[A _] _]. rewrite A. reflexivity.
Qed.

Lemma visible_replaceRunsFrom_newline (b : bool) (s : str) :
  visible (replaceRunsFrom isNewline (lit " ") b s) = visible s.
Proof.
  revert b. induction s as [|c s IH]; intros b; simpl; [reflexivity|].
  destruct (isNewline c) eqn:E; simpl.
  - rewrite visible_app, IH, (newline_is_space c E). destruct b; reflexivity.
  - rewrite IH. reflexivity.
Qed.

Lemma trim_empty (s : str) : (length (trim s) =? 0) = negb (visible s).
Proof.
  destruct (trim s) as [|c r] eqn:E.
  - rewrite <- visible_trim, E. reflexivity.
  - assert (T : trim s <> []) by (rewrite E; discriminate).
    apply trim_visible in T. rewrite visible_trim in T. rewrite T. reflexivity.
Qed.

(** *** The stable sort *)

Section StableSort.

Context {A : Type}.
Variable before : A -> A -> bool.
Variable R : A -> A -> Prop.

Hypothesis before_total : forall x y, before x y = false -> before y x = true.
Hypothesis before_trans :
  forall x y z, before x y = true -> before y z = true -> before x z = true.

Lemma insertBy_In (x z : A) (l : list A) :
  In z (insertBy before x l) <-> z = x \/ In z l.
Proof.
  induction l as [|y l IH]; simpl; [intuition|].
  destruct (before x y); simpl; [intuition|].
  rewrite IH. intuition.
Qed.

Lemma insertBy_Permutation (x : A) (l : list A) :
  Permutation (insertBy before x l) (x :: l).
Proof.
  induction l as [|y l IH]; simpl; [reflexivity|].
  destruct (before x y); [reflexivity|].
  rewrite IH. apply perm_swap.
Qed.

Lemma sortBy_Permutation (l : list A) : Permutation (sortBy before l) l.
Proof.
  induction l as [|x l IH]; simpl; [reflexivity|].
  rewrite insertBy_Permutation, IH. reflexivity.
Qed.

Lemma insertBy_sorted (x : A) (l : list A) :
  StronglySorted (stablyBefore before R) l ->
  Forall (R x) l ->
  StronglySorted (stablyBefore before R) (insertBy before x l).
Proof.
  induction 1 as [|y l Sl IH Hy]; intros Rx; simpl.
  - repeat constructor.
  - apply Forall_cons_iff in Rx. destruct Rx as [Rxy Rxl].
    destruct (before x y) eqn:E.
    + constructor; [constructor; assumption|].
      constructor; [split; auto|].
      rewrite Forall_forall in *. intros z Hz. split.
      * apply (before_trans x y z E). apply (Hy z Hz).
      * intros _. apply Rxl. exact Hz.
    + constructor; [apply IH; exact Rxl|].
      apply Forall_forall. intros z Hz. apply insertBy_In in Hz.
      destruct Hz as [-> | Hz].
      * split; [apply before_total; exact E | congruence].
      * rewrite Forall_forall in Hy. apply Hy. exact Hz.
Qed.

Lemma sortBy_sorted (l : list A) :
  StronglySorted R l -> StronglySorted (stablyBefore before R) (sortBy before l).
Proof.
  induction 1 as [|x l Sl IH Hx]; simpl; [constructor|].
  apply insertBy_sorted; [exact IH|].
  rewrite Forall_forall in *. intros z Hz. apply Hx.
  apply (Permutation_in z (sortBy_Permutation l)). exact Hz.
Qed.

End StableSort.

Lemma insertBy_ext {A} (f g : A -> A -> bool) (x : A) (l : list A) :
  (forall y, In y l -> f x y = g x y) -> insertBy f x l = insertBy g x l.
Proof.
  induction l as [|y l IH]; intros H; simpl; [reflexivity|].
  rewrite (H y (or_introl eq_refl)). destruct (g x y); [reflexivity|].
  f_equal. apply IH. intros z Hz. apply H. right. exact Hz.
Qed.

Lemma sortBy_ext {A} (f g : A -> A -> bool) (l : list A) :
  (forall x y, In x l -> In y l -> f x y = g x y) -> sortBy f l = sortBy g l.
Proof.
  induction l as [|x l IH]; intros H; simpl; [reflexivity|].
  fold (sortBy f l). fold (sortBy g l). rewrite IH.
  - apply insertBy_ext. intros y Hy. apply H; [left; reflexivity|].
    right. apply (Permutation_in y (sortBy_Permutation g l)). exact Hy.
  - intros a b Ha Hb. apply H; right; assumption.
Qed.

Lemma StronglySorted_map_impl {A B} (R : A -> A -> Prop) (R' : B -> B -> Prop)
    (f : A -> B) (l : list A) :
  (forall a b, In a l -> In b l -> R a b -> R' (f a) (f b)) ->
  StronglySorted R l -> StronglySorted R' (map f l).
Proof.
  intros H S. induction S as [|x l Sl IH Hx]; simpl; [constructor|].
  constructor.
  - apply IH. intros a b Ha Hb. apply H; right; assumption.
  - apply Forall_forall. intros z Hz. apply in_map_iff in Hz.
    destruct Hz as (y & <- & Hy). rewrite Forall_forall in Hx.
    apply H; [left; reflexivity | right; exact Hy | apply Hx; exact Hy].
Qed.

Lemma StronglySorted_append {A} (R : A -> A -> Prop) (l1 l2 : list A) :
  StronglySorted R l1 -> StronglySorted R l2 ->
  (forall a b, In a l1 -> In b l2 -> R a b) ->
  StronglySorted R (l1 ++ l2).
Proof.
  intros S1 S2 H. induction S1 as [|x l Sl IH Hx]; simpl; [exact S2|].
  constructor.
  - apply IH. intros a b Ha Hb. apply H; [right; exact Ha | exact Hb].
  - apply Forall_app. split; [exact Hx|].
    apply Forall_forall. intros b Hb. apply H; [left; reflexivity | exact Hb].
Qed.

Lemma StronglySorted_filter {A} (R : A -> A -> Prop) (f : A -> bool) (l : list A) :
  StronglySorted R l -> StronglySorted R (filter f l).
Proof.
  induction 1 as [|x l Sl IH Hx]; simpl; [constructor|].
  destruct (f x); [|exact IH]. constructor; [exact IH|].
  rewrite Forall_forall in *. intros z Hz. apply filter_In in Hz. apply Hx. tauto.
Qed.

Lemma filter_partition_Permutation {A} (f : A -> bool) (l : list A) :
  Permutation (filter f l ++ filter (fun x => negb (f x)) l) l.
Proof.
  induction l as [|x l IH]; simpl; [reflexivity|].
  destruct (f x); simpl.
  - constructor. exact IH.
  - rewrite <- Permutation_middle. constructor. exact IH.
Qed.

(** *** The count table *)

Lemma getOwn_None (o : object) (k : str) :
  getOwn o k = None <-> ~ In k (map fst o).
Proof.
  induction o as [|[k' v'] o IH]; simpl; [tauto|].
  destruct (str_eqb k k') eqn:E.
  - apply str_eqb_eq in E. subst. split; [discriminate | tauto].
  - rewrite IH. split; [|tauto].
    intros H [Eq | I]; [|tauto].
    subst. rewrite str_eqb_refl in E. discriminate.
Qed.

Lemma getOwn_Some (o : object) (k : str) (v : cell) :
  getOwn o k = Some v -> In (k, v) o.
Proof.
  induction o as [|[k' v'] o IH]; simpl; [discriminate|].
  destruct (str_eqb k k') eqn:E.
  - apply str_eqb_eq in E. intros H. inversion H. subst. left. reflexivity.
  - intros H. right. apply IH. exact H.
Qed.

Lemma setOwn_new (o : object) (k : str) (v : cell) :
  ~ In k (map fst o) -> setOwn o k v = o ++ [(k, v)].
Proof.
  induction o as [|[k' v'] o IH]; simpl; [reflexivity|].
  intros H. destruct (str_eqb k k') eqn:E.
  - apply str_eqb_eq in E. subst. tauto.
  - rewrite IH; [reflexivity | tauto].
Qed.

Lemma setOwn_keys (o : object) (k : str) (v : cell) :
  In k (map fst o) -> map fst (setOwn o k v) = map fst o.
Proof.
  induction o as [|[k' v'] o IH]; simpl; [tauto|].
  intros H. destruct (str_eqb k k') eqn:E; simpl; [reflexivity|].
  rewrite IH; [reflexivity|].
  destruct H as [<- | H]; [|exact H].
  rewrite str_eqb_refl in E. discriminate.
Qed.

Lemma setOwn_Forall (P : str * cell -> Prop) (o : object) (k : str) (v : cell) :
  NoDup (map fst o) -> In k (map fst o) ->
  (forall e, In e o -> fst e <> k -> P e) -> P (k, v) ->
  Forall P (setOwn o k v).
Proof.
  induction o as [|[k' v'] o IH]; simpl; [tauto|].
  intros N H Hold Hnew. inversion N as [|? ? Nk No]. subst.
  destruct (str_eqb k k') eqn:E.
  - apply str_eqb_eq in E. subst k'. constructor; [exact Hnew|].
    apply Forall_forall. intros e He. apply Hold; [right; exact He|].
    intros Eq. apply Nk. rewrite <- Eq. apply in_map. exact He.
  - assert (Ne : k' <> k).
    { intros Eq. subst. rewrite str_eqb_refl in E. discriminate. }
    constructor; [apply Hold; [left; reflexivity | exact Ne]|].
    apply IH; [exact No | | | exact Hnew].
    + destruct H as [Eq | H]; [contradiction | exact H].
    + intros e He. apply Hold. right. exact He.
Qed.

Lemma frequency_snoc (done : list str) (w k : str) :
  frequency (done ++ [w]) k =
  frequency done k + if str_eq_dec w k then 1 else 0.
Proof.
  unfold frequency. rewrite count_occ_app. simpl.
  destruct (str_eq_dec w k); reflexivity.
Qed.

Lemma seenBefore_snoc (done : list str) (w a b : str) :
  seenBefore done a b -> seenBefore (done ++ [w]) a b.
Proof.
  intros (l1 & l2 & -> & Na & Nb). exists l1, (l2 ++ [w]).
  split; [|tauto]. rewrite <- app_assoc. reflexivity.
Qed.

Lemma in_split_first (l : list str) (a : str) :
  In a l -> exists l1 l2, l = l1 ++ a :: l2 /\ ~ In a l1.
Proof.
  induction l as [|x l IH]; simpl; [tauto|].
  intros H. destruct (str_eq_dec x a) as [-> | Ne].
  - exists [], l. split; [reflexivity | simpl; tauto].
  - destruct H as [Eq | H]; [contradiction|].
    destruct (IH H) as (l1 & l2 & -> & N).
    exists (x :: l1), l2. split; [reflexivity|]. simpl. tauto.
Qed.

Lemma seenBefore_new (done : list str) (w a : str) :
  In a done -> ~ In w done -> seenBefore (done ++ [w]) a w.
Proof.
  intros Ha Nw. destruct (in_split_first done a Ha) as (l1 & l2 & -> & N).
  exists l1, (l2 ++ [w]). split; [rewrite <- app_assoc; reflexivity|].
  split; [exact N|]. intros I. apply Nw. apply in_or_app. left. exact I.
Qed.

Lemma NoDup_snoc {A} (l : list A) (x : A) :
  NoDup l -> ~ In x l -> NoDup (l ++ [x]).
Proof.
  intros N H. apply (Permutation_NoDup (Permutation_cons_append l x)).
  constructor; assumption.
Qed.

Lemma StronglySorted_weaken {A} (R R' : A -> A -> Prop) (l : list A) :
  (forall a b, R a b -> R' a b) -> StronglySorted R l -> StronglySorted R' l.
Proof.
  intros H S. rewrite <- (map_id l).
  apply (StronglySorted_map_impl R R' (fun x => x)); [|exact S].
  intros a b _ _. apply H.
Qed.

(** What the table makes of the word [constructor]. *)
Example countWords_constructor :
  countWords [lit "constructor"; lit "constructor"] =
  [(lit "constructor", NotNumber (objectFunctionText ++ lit "11"))].
Proof. reflexivity. Qed.

Lemma tableFor_step (done : list str) (o : object) (w : str) :
  tableFor done o ->
  tableFor (done ++ [w]) (setOwn o w (incremented o w)).
Proof.
  intros (N & K & S & V).
  destruct (in_dec str_eq_dec w (map fst o)) as [I | I].
  - (* the word has its property *)
    split; [|split; [|split]].
    + rewrite setOwn_keys; assumption.
    + intros k. rewrite setOwn_keys, K, in_app_iff; [|exact I]. simpl.
      split; [tauto|]. intros [H | [<- | []]]; [exact H | apply K; exact I].
    + rewrite setOwn_keys; [|exact I].
      apply (StronglySorted_weaken (seenBefore done)); [|exact S].
      intros a b. apply seenBefore_snoc.
    + intros C.
      assert (C' : ~ In (lit "constructor") done).
      { intros H. apply C. apply in_or_app. left. exact H. }
      specialize (V C'). rewrite Forall_forall in V.
      destruct (getOwn o w) as [v0|] eqn:G;
        [|apply getOwn_None in G; contradiction].
      pose proof (V _ (getOwn_Some _ _ _ G)) as Ev. simpl in Ev.
      unfold incremented. rewrite G, Ev.
      apply setOwn_Forall; [exact N | exact I | |].
      * intros e He Ne. rewrite frequency_snoc, (V e He).
        destruct (str_eq_dec w (fst e)); [congruence|].
        rewrite Nat.add_0_r. reflexivity.
      * simpl. rewrite frequency_snoc.
        destruct (str_eq_dec w w); [reflexivity | congruence].
  - (* the word is new *)
    assert (Nw : ~ In w done) by (rewrite <- K; exact I).
    rewrite setOwn_new by exact I. unfold tableFor. rewrite map_app. simpl map.
    split; [|split; [|split]].
    + apply NoDup_snoc; assumption.
    + intros k. rewrite !in_app_iff, K. tauto.
    + apply StronglySorted_append.
      * apply (StronglySorted_weaken (seenBefore done)); [|exact S].
        intros a b. apply seenBefore_snoc.
      * repeat constructor.
      * intros a b Ha [<- | []]. apply seenBefore_new; [|exact Nw].
        apply K. exact Ha.
    + intros C.
      assert (C' : ~ In (lit "constructor") done).
      { intros H. apply C. apply in_or_app. left. exact H. }
      assert (Cw : str_eqb w (lit "constructor") = false).
      { destruct (str_eqb w (lit "constructor")) eqn:E; [|reflexivity].
        apply str_eqb_eq in E. exfalso. apply C. apply in_or_app. right.
        left. exact E. }
      specialize (V C'). rewrite Forall_forall in V.
      unfold incremented. apply getOwn_None in I. rewrite I, Cw.
      apply getOwn_None in I.
      apply Forall_app. split.
      * apply Forall_forall. intros e He. rewrite frequency_snoc, (V e He).
        destruct (str_eq_dec w (fst e)) as [Eq | _].
        -- exfalso. apply I. rewrite Eq. apply in_map. exact He.
        -- rewrite Nat.add_0_r. reflexivity.
      * repeat constructor. simpl. rewrite frequency_snoc.
        unfold frequency. rewrite (proj1 (count_occ_not_In str_eq_dec done w) Nw).
        destruct (str_eq_dec w w); [reflexivity | congruence].
Qed.

Lemma tableFor_fold (words done : list str) (o : object) :
  tableFor done o ->
  tableFor (done ++ words)
           (fold_left (fun wordCount word =>
                         setOwn wordCount word (incremented wordCount word))
                      words o).
Proof.
  revert done o. induction words as [|w words IH]; intros done o H; simpl.
  - rewrite app_nil_r. exact H.
  - replace (done ++ w :: words) with ((done ++ [w]) ++ words)
      by (rewrite <- app_assoc; reflexivity).
    apply IH. apply tableFor_step. exact H.
Qed.

Lemma countWords_tableFor (words : list str) : tableFor words (countWords words).
Proof.
  apply (tableFor_fold words [] []).
  split; [constructor|]. split; [simpl; tauto|].
  split; [constructor|]. intros _. constructor.
Qed.

(** *** The order of the keywords *)

Lemma StronglySorted_weaken_In {A} (R R' : A -> A -> Prop) (l : list A) :
  (forall a b, In a l -> In b l -> R a b -> R' a b) ->
  StronglySorted R l -> StronglySorted R' l.
Proof.
  intros H S. rewrite <- (map_id l).
  apply (StronglySorted_map_impl R R' (fun x => x)); assumption.
Qed.

Lemma StronglySorted_unmap {A B} (R : B -> B -> Prop) (f : A -> B) (l : list A) :
  StronglySorted R (map f l) -> StronglySorted (fun a b => R (f a) (f b)) l.
Proof.
  induction l as [|x l IH]; simpl; intros S; [constructor|].
  apply StronglySorted_inv in S. destruct S as [S F].
  constructor; [apply IH; exact S|].
  rewrite Forall_forall in *. intros y Hy. apply F. apply in_map. exact Hy.
Qed.

Lemma StronglySorted_any {A} (l : list A) : StronglySorted (fun _ _ => True) l.
Proof.
  induction l as [|x l IH]; constructor; [exact IH|].
  apply Forall_forall. trivial.
Qed.

Lemma entries_Permutation (o : object) : Permutation (entries o) o.
Proof.
  unfold entries. rewrite sortBy_Permutation.
  apply (filter_partition_Permutation (fun e => isArrayIndex (fst e))).
Qed.

Lemma entries_sorted (words : list str) (o : object) :
  tableFor words o ->
  StronglySorted (fun a b => enumeratedBefore words (fst a) (fst b)) (entries o).
Proof.
  intros (_ & _ & S & _). unfold entries.
  set (byIndex := fun a b : str * cell => (indexValue (fst a) <=? indexValue (fst b))%N).
  apply StronglySorted_append.
  - apply (StronglySorted_weaken_In (stablyBefore byIndex (fun _ _ => True))).
    + intros a b Ha Hb [L _].
      apply (Permutation_in _ (sortBy_Permutation byIndex _)) in Ha, Hb.
      apply filter_In in Ha, Hb. unfold enumeratedBefore.
      rewrite (proj2 Ha), (proj2 Hb). apply N.leb_le. exact L.
    + apply sortBy_sorted.
      * intros x y. unfold byIndex. rewrite N.leb_gt, N.leb_le. lia.
      * intros x y z. unfold byIndex. rewrite !N.leb_le. lia.
      * apply StronglySorted_any.
  - apply (StronglySorted_weaken_In
             (fun a b => seenBefore words (fst a) (fst b))).
    + intros a b Ha Hb H. apply filter_In in Ha, Hb. unfold enumeratedBefore.
      destruct Ha as [_ Ha], Hb as [_ Hb].
      apply negb_true_iff in Ha, Hb. rewrite Ha, Hb. exact H.
    + apply StronglySorted_filter. apply StronglySorted_unmap. exact S.
  - intros a b Ha Hb.
    apply (Permutation_in _ (sortBy_Permutation byIndex _)) in Ha.
    apply filter_In in Ha, Hb. unfold enumeratedBefore.
    destruct Ha as [_ Ha], Hb as [_ Hb].
    apply negb_true_iff in Hb. rewrite Ha, Hb. exact I.
Qed.

(** On cells that count, the comparator of the source orders by the
    counts. *)
Lemma byFrequency_counted (a b : str * cell) (n m : nat) :
  snd a = Count n -> snd b = Count m ->
  match byFrequency a b with
  | Some v => (v <=? 0)%Z
  | None => true
  end = (counted b <=? counted a).
Proof.
  intros Ha Hb. unfold byFrequency, counted. rewrite Ha, Hb. simpl.
  destruct (m <=? n) eqn:E.
  - apply Nat.leb_le in E. apply Z.leb_le. lia.
  - apply Nat.leb_gt in E. apply Z.leb_gt. lia.
Qed.

(** C5, as the code has it.  [extractKeywords] returns at most 15 distinct
    words, each longer than 3 characters and not a stop word.  When no word is
    [constructor], they are the first 15 of all the distinct words in the
    order of descending frequency, where of two words of the same frequency
    the one that [Object.entries] enumerates first comes first: a word that
    is an array index (a decimal number below 2^32 - 1 without a leading
    zero) before any other word, two array indices by their value, and two
    other words as they were first seen in the text. *)
Theorem extractKeywords_ranked (text : str) :
  let words := keywordWords text in
  let keywords := extractKeywords text in
  length keywords <= 15 /\
  NoDup keywords /\
  (forall k, In k keywords ->
     In k words /\ 3 < length k /\ stopWords_has k = false) /\
  (~ In (lit "constructor") words ->
   exists others,
     (forall w, In w words -> In w (keywords ++ others)) /\
     (others = [] \/ length keywords = 15) /\
     StronglySorted (rankedBefore words) (keywords ++ others)).
Proof.
  intros words keywords.
  destruct (countWords_tableFor words) as (N & K & S & V).
  set (table := countWords words) in *.
  set (before := fun x y : str * cell =>
                   match byFrequency x y with
                   | Some v => (v <=? 0)%Z
                   | None => true
                   end).
  set (sorted := sortBy before (entries table)).
  assert (E : keywords = map fst (firstn 15 sorted)) by reflexivity.
  assert (P : Permutation sorted table).
  { unfold sorted. rewrite sortBy_Permutation. apply entries_Permutation. }
  assert (Keys : forall k, In k (map fst sorted) <-> In k words).
  { intros k. rewrite <- K. split; apply Permutation_in; apply Permutation_map;
      [exact P | symmetry; exact P]. }
  assert (Sub : forall k, In k keywords -> In k (map fst sorted)).
  { intros k. rewrite E. rewrite <- firstn_map. apply (incl_slice0 15). }
  split; [rewrite E, length_map; apply firstn_le_length|].
  split.
  { rewrite E, <- firstn_map. apply (NoDup_slice0 15).
    apply (Permutation_NoDup (Permutation_map fst (Permutation_sym P))). exact N. }
  split.
  { intros k Hk. apply Sub, Keys in Hk. split; [exact Hk|].
    unfold words, keywordWords in Hk. apply filter_In in Hk.
    destruct Hk as [_ Hk]. apply andb_true_iff in Hk. destruct Hk as [L St].
    apply Nat.ltb_lt in L. apply negb_true_iff in St. tauto. }
  intros C. specialize (V C). rewrite Forall_forall in V.
  exists (map fst (skipn 15 sorted)).
  assert (All : keywords ++ map fst (skipn 15 sorted) = map fst sorted).
  { rewrite E, <- map_app, firstn_skipn. reflexivity. }
  split; [intros w Hw; rewrite All; apply Keys; exact Hw|].
  split.
  { destruct (le_lt_dec (length sorted) 15) as [L | L].
    - left. rewrite skipn_all2 by exact L. reflexivity.
    - right. rewrite E, length_map. apply firstn_length_le. lia. }
  rewrite All.
  set (byCount := fun x y : str * cell => counted y <=? counted x).
  assert (Es : sorted = sortBy byCount (entries table)).
  { apply sortBy_ext. intros x y Hx Hy.
    apply (Permutation_in _ (entries_Permutation table)) in Hx, Hy.
    apply (byFrequency_counted x y _ _ (V x Hx) (V y Hy)). }
  apply (StronglySorted_map_impl
           (stablyBefore byCount
              (fun a b => enumeratedBefore words (fst a) (fst b)))).
  - intros a b Ha Hb [L Tie].
    apply (Permutation_in _ P) in Ha, Hb.
    assert (Ca : counted a = frequency words (fst a))
      by (unfold counted; rewrite (V a Ha); reflexivity).
    assert (Cb : counted b = frequency words (fst b))
      by (unfold counted; rewrite (V b Hb); reflexivity).
    unfold byCount in L, Tie. rewrite Ca, Cb in L, Tie.
    apply Nat.leb_le in L. unfold rankedBefore.
    destruct (Nat.eq_dec (frequency words (fst a)) (frequency words (fst b)))
      as [Eq | Ne]; [|left; lia].
    right. split; [exact Eq|]. apply Tie. apply Nat.leb_le. lia.
  - rewrite Es. apply sortBy_sorted.
    + intros x y. unfold byCount. rewrite Nat.leb_gt, Nat.leb_le. lia.
    + intros x y z. unfold byCount. rewrite !Nat.leb_le. lia.
    + apply entries_sorted. apply countWords_tableFor.
Qed.

Lemma extractKeywords_ranked_witness :
  let text := lit "zebra apple 2024 zebra 1999 apple zebra" in
  ~ In (lit "constructor") (keywordWords text) /\
  extractKeywords text = map lit ["zebra"; "apple"; "1999"; "2024"]%string /\
  StronglySorted (rankedBefore (keywordWords text)) (extractKeywords text).
Proof.
  intros text.
  assert (C : ~ In (lit "constructor") (keywordWords text)).
  { vm_compute. intros H.
    repeat (destruct H as [H | H]; [discriminate H|]). exact H. }
  split; [exact C|]. split; [reflexivity|].
  destruct (extractKeywords_ranked text) as (_ & _ & _ & R).
  destruct (R C) as (others & _ & [-> | L] & S).
  - rewrite app_nil_r in S. exact S.
  - vm_compute in L. discriminate L.
Defined.

(** The claim C5 as it is written fails: of two words of the same frequency
    the one seen second can come first. *)
Lemma extractKeywords_tie_not_first_seen :
  let text := lit "hello 2024" in
  keywordWords text = [lit "hello"; lit "2024"] /\
  frequency (keywordWords text) (lit "hello") = 1 /\
  frequency (keywordWords text) (lit "2024") = 1 /\
  extractKeywords text = [lit "2024"; lit "hello"] /\
  ~ seenBefore (keywordWords text) (lit "2024") (lit "hello").
Proof.
  intros text. repeat (split; [reflexivity|]).
  intros (l1 & l2 & E & Na & Nb).
  change (keywordWords text) with [lit "hello"; lit "2024"] in E.
  destruct l1 as [|x l1].
  - discriminate E.
  - inversion E. subst x. apply Nb. left. reflexivity.
Qed.

(** ** Further properties of the generator *)

(** *** How many FAQs a generator emits *)

Lemma fold_left_push_length {A B} (f : list A -> B -> list A) (l : list B) :
  (forall acc x, length (f acc x) <= S (length acc)) ->
  forall acc, length (fold_left f l acc) <= length acc + length l.
Proof.
  intros H. induction l as [|x l IH]; intros acc; simpl; [lia|].
  specialize (IH (f acc x)). specialize (H acc x). lia.
Qed.

Lemma length_slice0 {A} (n : nat) (l : list A) : length (slice0 n l) <= n.
Proof. apply firstn_le_length. Qed.

Lemma generateDefinitionFAQs_length (sentences topics : list str) :
  length (generateDefinitionFAQs sentences topics) <= 3.
Proof.
  unfold generateDefinitionFAQs.
  match goal with
  | |- length (fold_left ?f ?l []) <= 3 =>
      pose proof (fold_left_push_length f l) as H
  end.
  pose proof (length_slice0 3 topics) as L.
  etransitivity; [apply H|simpl; exact L].
  intros acc topic.
  destruct (truthy (find (fun s => mentions s topic) sentences));
    [rewrite length_app; simpl; lia | lia].
Qed.

Lemma generateFeatureFAQs_length (sentences topics : list str) :
  length (generateFeatureFAQs sentences topics) <= 1.
Proof.
  unfold generateFeatureFAQs.
  destruct ((0 <? length (filter (hasIndicator featureIndicators) sentences))
            && (0 <? length topics)); simpl; lia.
Qed.

Lemma generateBenefitFAQs_length (sentences topics : list str) :
  length (generateBenefitFAQs sentences topics) <= 1.
Proof.
  unfold generateBenefitFAQs.
  destruct ((0 <? length (filter (hasIndicator benefitIndicators) sentences))
            && (0 <? length topics)); simpl; lia.
Qed.

Lemma candidates_length (sentences topics : list str) :
  length (candidates sentences topics) <= 10.
Proof.
  unfold candidates. rewrite !length_app.
  pose proof (generateDefinitionFAQs_length sentences topics).
  pose proof (generateFeatureFAQs_length sentences topics).
  pose proof (generateBenefitFAQs_length sentences topics).
  assert (length (generateProcessFAQs sentences topics) <= 2)
    by apply length_slice0.
  assert (length (generateTopicFAQs sentences topics) <= 3)
    by apply length_slice0.
  lia.
Qed.

Lemma removeDuplicatesFrom_length (faqs : list FAQ) :
  forall seen, length (removeDuplicatesFrom seen faqs) <= length faqs.
Proof.
  induction faqs as [|f faqs IH]; intros seen; simpl; [lia|].
  destruct (arrayIncludes seen (normalized f)); simpl.
  - specialize (IH seen). lia.
  - specialize (IH (normalized f :: seen)). lia.
Qed.

(** X1. The Definition generator emits at most 3 FAQs, the Process generator
    at most 2, the Feature and the Benefit generator at most 1 each and the
    General generator at most 3, whatever the sentences and the topics are:
    at most 10 candidates reach [removeDuplicates]. *)
Theorem generators_bounded (sentences topics : list str) :
  length (generateDefinitionFAQs sentences topics) <= 3 /\
  length (generateProcessFAQs sentences topics) <= 2 /\
  length (generateFeatureFAQs sentences topics) <= 1 /\
  length (generateBenefitFAQs sentences topics) <= 1 /\
  length (generateTopicFAQs sentences topics) <= 3 /\
  length (generateDefinitionFAQs sentences topics
          ++ generateProcessFAQs sentences topics
          ++ generateFeatureFAQs sentences topics
          ++ generateBenefitFAQs sentences topics
          ++ generateTopicFAQs sentences topics) <= 10.
Proof.
  split; [apply generateDefinitionFAQs_length|].
  split; [apply length_slice0|].
  split; [apply generateFeatureFAQs_length|].
  split; [apply generateBenefitFAQs_length|].
  split; [apply length_slice0|].
  apply candidates_length.
Qed.

(** X2. The cut to the first 10 FAQs at the end of [generateFAQs] never
    removes one: for a text that is not empty after trimming the result is
    the whole list that [removeDuplicates] returns. *)
Theorem generateFAQs_cut_keeps_all (text : str) :
  trim text <> [] ->
  generateFAQs (VString text) =
  Normal (removeDuplicates
            (candidates (extractSentences text)
                        (identifyTopics text (extractKeywords text)))).
Proof.
  intros T. rewrite generateFAQs_string.
  destruct (trim text) as [|c r]; [contradiction|]. simpl. f_equal.
  unfold generateFromText, slice0. apply firstn_all2.
  etransitivity; [apply removeDuplicatesFrom_length | apply candidates_length].
Qed.

Lemma generateFAQs_cut_keeps_all_witness :
  let text := lit "Widgets help you save time and improve efficiency." in
  trim text <> [] /\
  generateFAQs (VString text) =
  Normal (removeDuplicates
            (candidates (extractSentences text)
                        (identifyTopics text (extractKeywords text)))).
Proof.
  intros text.
  assert (T : trim text <> []) by (vm_compute; discriminate).
  split; [exact T | apply (generateFAQs_cut_keeps_all text T)].
Defined.

(** *** The pieces of a split *)

Lemma split_nonempty (p : ascii -> bool) (s : str) : split p s <> [].
Proof.
  induction s as [|c s IH]; [discriminate|].
  rewrite split_cons. destruct (p c).
  - destruct (match s with c' :: _ => p c' | [] => false end);
      [exact IH | discriminate].
  - destruct (split p s); discriminate.
Qed.

(** No piece holds a separator, and a piece holds only characters of the
    string. *)
Lemma split_pieces (p : ascii -> bool) (P : ascii -> Prop) (s : str) :
  Forall P s ->
  Forall (Forall (fun c => p c = false /\ P c)) (split p s).
Proof.
  induction 1 as [|c s Hc _ IH]; [repeat constructor|].
  rewrite split_cons. destruct (p c) eqn:E.
  - destruct (match s with c' :: _ => p c' | [] => false end);
      [exact IH | constructor; [constructor | exact IH]].
  - destruct (split p s) as [|piece rest]; [repeat constructor; auto|].
    apply Forall_cons_iff in IH. destruct IH as [Hp Hr].
    constructor; [constructor; auto | exact Hr].
Qed.

Lemma Forall_dropWhile (P : ascii -> Prop) (p : ascii -> bool) (s : str) :
  Forall P s -> Forall P (dropWhile p s).
Proof.
  induction 1 as [|c s Hc Hs IH]; simpl; [constructor|].
  destruct (p c); [exact IH | constructor; assumption].
Qed.

Lemma Forall_trim (P : ascii -> Prop) (s : str) : Forall P s -> Forall P (trim s).
Proof.
  intros H. unfold trim, trimEnd, trimStart.
  apply Forall_rev, Forall_dropWhile, Forall_rev, Forall_dropWhile. exact H.
Qed.

(** A string that [trim] leaves as it is and that is not empty ends in a
    character that is not white space. *)
Lemma trimmed_last (s : str) :
  trim s = s -> s <> [] ->
  exists y c, s = y ++ [c] /\ isSpace c = false.
Proof.
  intros T N. unfold trim, trimEnd in T.
  destruct (dropWhile isSpace (rev (trimStart s))) as [|c r] eqn:E.
  - simpl in T. congruence.
  - exists (rev r), c. split; [rewrite <- T; reflexivity|].
    apply (dropWhile_head _ _ _ _ E).
Qed.

Lemma trimmed_first (s : str) (c : ascii) (r : str) :
  trim s = c :: r -> isSpace c = false.
Proof.
  unfold trim, trimEnd. intros T.
  destruct (dropWhile isSpace (rev (trimStart s))) as [|x u] eqn:E;
    [discriminate|].
  assert (R : rev (trimStart s) =
              takeWhile isSpace (rev (trimStart s)) ++ x :: u)
    by (rewrite <- E; symmetry; apply takeWhile_dropWhile).
  apply (f_equal (@rev ascii)) in R.
  rewrite rev_involutive, rev_app_distr in R. rewrite T in R.
  simpl in R. unfold trimStart in R.
  apply (dropWhile_head _ _ _ _ R).
Qed.

(** X3. A sentence that [extractSentences] returns holds no full stop, no
    exclamation mark, no question mark and no newline, and neither starts
    nor ends with white space. *)
Theorem extractSentences_clean (text s : str) :
  In s (extractSentences text) ->
  Forall (fun c => isTerminator c = false /\ isNewline c = false) s /\
  (exists c r, s = c :: r /\ isSpace c = false) /\
  (exists y c, s = y ++ [c] /\ isSpace c = false).
Proof.
  intros H. destruct (extractSentences_spec text s H) as (T & L & _).
  assert (N : s <> []) by (intros ->; simpl in L; lia).
  split; [|split].
  - unfold extractSentences, sentencePieces in H.
    apply filter_In in H. destruct H as [H _].
    apply in_map_iff in H. destruct H as (piece & <- & Hp).
    apply Forall_trim.
    assert (S : Forall (Forall (fun c => isTerminator c = false /\
                                        isNewline c = false))
                       (split isTerminator
                              (replaceRuns isNewline (lit " ") text))).
    { apply split_pieces. apply replaceRunsFrom_clean. repeat constructor. }
    rewrite Forall_forall in S. apply S. exact Hp.
  - destruct s as [|c r]; [contradiction|]. exists c, r.
    split; [reflexivity | apply (trimmed_first _ _ _ T)].
  - apply trimmed_last; assumption.
Qed.

Lemma extractSentences_clean_witness :
  let text := lit "Widgets help you save time! Do they improve efficiency?" in
  let s := lit "Widgets help you save time" in
  In s (extractSentences text) /\
  Forall (fun c => isTerminator c = false /\ isNewline c = false) s.
Proof.
  intros text s.
  assert (H : In s (extractSentences text)) by (left; reflexivity).
  split; [exact H | apply (extractSentences_clean text s H)].
Defined.

(** *** The characters of a keyword *)

Lemma keywordChar_class (c : ascii) :
  isSpace (keywordChar c) = false ->
  isLower (keywordChar c) || isDigit (keywordChar c) = true.
Proof. each_char c. Qed.

Lemma extractKeywords_words (text k : str) :
  In k (extractKeywords text) -> In k (keywordWords text).
Proof.
  unfold extractKeywords, sort. intros H.
  apply in_map_iff in H. destruct H as ([k' v] & <- & H). simpl.
  apply incl_slice0 in H.
  apply (Permutation_in _ (sortBy_Permutation _ _)) in H.
  apply (Permutation_in _ (entries_Permutation _)) in H.
  destruct (countWords_tableFor (keywordWords text)) as (_ & K & _).
  apply K. apply (in_map fst) in H. exact H.
Qed.

(** X4. A keyword is made of lower-case letters and digits only. *)
Theorem extractKeywords_alphanumeric (text k : str) :
  In k (extractKeywords text) ->
  Forall (fun c => isLower c || isDigit c = true) k.
Proof.
  intros H. apply extractKeywords_words in H.
  rewrite keywordWords_map in H. apply filter_In in H. destruct H as [H _].
  assert (F : Forall (fun c => exists c', c = keywordChar c')
                     (map keywordChar text)).
  { apply Forall_forall. intros c Hc. apply in_map_iff in Hc.
    destruct Hc as (c' & <- & _). exists c'. reflexivity. }
  pose proof (split_pieces isSpace _ _ F) as S.
  rewrite Forall_forall in S. specialize (S k H).
  eapply Forall_impl; [|exact S].
  intros c [Sp (c' & ->)]. apply keywordChar_class. exact Sp.
Qed.

Lemma extractKeywords_alphanumeric_witness :
  let text := lit "Widgets-2024 help: WIDGETS!" in
  In (lit "widgets") (extractKeywords text) /\
  Forall (fun c => isLower c || isDigit c = true) (lit "widgets").
Proof.
  intros text.
  assert (H : In (lit "widgets") (extractKeywords text)) by (left; reflexivity).
  split; [exact H | apply (extractKeywords_alphanumeric text _ H)].
Defined.

(** *** The topics *)

Lemma Subsequence_In {A} (l l' : list A) (x : A) :
  Subsequence l l' -> In x l -> In x l'.
Proof.
  induction 1 as [|y l l' _ IH|y l l' _ IH]; simpl; [tauto | auto |].
  intros [-> | H]; auto.
Qed.

(** The second loop of [identifyTopics]: the keywords it adds, in their
    order, behind the topics it starts from. *)
Lemma identifyTopics_keywords_added (keywords : list str) :
  forall topics,
  exists added,
    fold_left (fun topics keyword =>
                 if negb (existsb (fun t => str_eqb (toLowerCase t) keyword) topics)
                 then topics ++ [keyword] else topics)
              keywords topics
    = topics ++ added /\
    Subsequence added keywords /\
    (forall k, In k keywords ->
       exists t, In t (topics ++ added) /\ (t = k \/ toLowerCase t = k)) /\
    (forall k, In k added -> forall t, In t topics -> toLowerCase t <> k).
Proof.
  induction keywords as [|k keywords IH]; intros topics; simpl.
  - exists []. rewrite app_nil_r. repeat split; [constructor | tauto | tauto].
  - destruct (existsb (fun t => str_eqb (toLowerCase t) k) topics) eqn:E; simpl.
    + destruct (IH topics) as (added & Eq & Sub & Cov & Fresh).
      exists added. split; [exact Eq|]. split; [constructor; exact Sub|].
      split; [|exact Fresh].
      intros k' [<- | H]; [|apply Cov; exact H].
      apply existsb_exists in E. destruct E as (t & Ht & Et).
      apply str_eqb_eq in Et. exists t. split; [|right; exact Et].
      apply in_or_app. left. exact Ht.
    + destruct (IH (topics ++ [k])) as (added & Eq & Sub & Cov & Fresh).
      exists (k :: added). rewrite <- app_assoc in Eq. simpl in Eq.
      split; [exact Eq|]. split; [constructor; exact Sub|]. split.
      * intros k' [<- | H].
        -- exists k. split; [|left; reflexivity].
           apply in_or_app. right. left. reflexivity.
        -- destruct (Cov k' H) as (t & Ht & Et). exists t. split; [|exact Et].
           rewrite <- app_assoc in Ht. exact Ht.
      * intros k' [<- | H] t Ht.
        -- intros Eq'. apply str_eqb_eq in Eq'.
           assert (X : existsb (fun t => str_eqb (toLowerCase t) k) topics = true).
           { apply existsb_exists. exists t. split; assumption. }
           congruence.
        -- apply (Fresh k' H). apply in_or_app. left. exact Ht.
Qed.

Lemma identifyTopics_decompose (text : str) (keywords : list str) :
  exists added,
    identifyTopics text keywords =
    firstn 8 (filter (fun m => 3 <? length m) (matchPhrases text) ++ added) /\
    Subsequence added (firstn 5 keywords) /\
    (forall k, In k (firstn 5 keywords) ->
       exists t, In t (filter (fun m => 3 <? length m) (matchPhrases text) ++ added) /\
                 (t = k \/ toLowerCase t = k)) /\
    (forall k, In k added ->
       forall t, In t (filter (fun m => 3 <? length m) (matchPhrases text)) ->
                 toLowerCase t <> k).
Proof.
  unfold identifyTopics.
  rewrite (identifyTopics_phrases_kept (matchPhrases text) []);
    [|apply matchPhrases_upper | constructor].
  simpl app.
  destruct (identifyTopics_keywords_added (slice0 5 keywords)
              (filter (fun m => 3 <? length m) (matchPhrases text)))
    as (added & Eq & Sub & Cov & Fresh).
  exists added. rewrite Eq. repeat split; assumption.
Qed.

(** X6. There are at most 8 topics, and a topic of [generateFAQs] is longer
    than 3 characters, so it is never the empty string. *)
Theorem identifyTopics_bounded (text : str) :
  (forall keywords, length (identifyTopics text keywords) <= 8) /\
  Forall (fun t => 3 < length t) (identifyTopics text (extractKeywords text)).
Proof.
  split; [intros keywords; apply length_slice0|].
  destruct (identifyTopics_decompose text (extractKeywords text))
    as (added & -> & Sub & _).
  apply (Forall_slice0 _ 8). apply Forall_app. split.
  - apply Forall_forall. intros m Hm. apply filter_In in Hm.
    apply Nat.ltb_lt. tauto.
  - apply Forall_forall. intros k Hk.
    apply (Subsequence_In _ _ _ Sub) in Hk. apply (incl_slice0 5) in Hk.
    apply extractKeywords_words in Hk. unfold keywordWords in Hk.
    apply filter_In in Hk. destruct Hk as [_ Hk].
    apply andb_true_iff in Hk. apply Nat.ltb_lt. tauto.
Qed.

(** *** The full stop of an answer *)

Lemma toUpperChar_terminator (c : ascii) :
  isTerminator (toUpperChar c) = isTerminator c.
Proof. each_char c. Qed.

Lemma replaceRunsFrom_snoc (p : ascii -> bool) (r : str) (s : str) (c : ascii) :
  p c = false ->
  forall b, replaceRunsFrom p r b (s ++ [c]) = replaceRunsFrom p r b s ++ [c].
Proof.
  intros Hc. induction s as [|x s IH]; intros b; simpl.
  - rewrite Hc. reflexivity.
  - destruct (p x); rewrite IH; [rewrite app_assoc|]; reflexivity.
Qed.

Lemma dropWhile_snoc (p : ascii -> bool) (s : str) (c : ascii) :
  p c = false -> exists z, dropWhile p (s ++ [c]) = z ++ [c].
Proof.
  intros Hc. induction s as [|x s IH]; simpl.
  - rewrite Hc. exists []. reflexivity.
  - destruct (p x); [exact IH | exists (x :: s); reflexivity].
Qed.

Lemma trim_snoc (s : str) (c : ascii) :
  isSpace c = false -> exists z, trim (s ++ [c]) = z ++ [c].
Proof.
  intros Hc. unfold trim, trimStart, trimEnd.
  destruct (dropWhile_snoc isSpace s c Hc) as (z & ->).
  exists z. rewrite rev_app_distr. simpl. rewrite Hc. simpl.
  rewrite rev_involutive. reflexivity.
Qed.

Lemma extractSentences_endsInWord (text s : str) :
  In s (extractSentences text) -> endsInWord s.
Proof.
  intros H. destruct (extractSentences_spec text s H) as (T & L & _).
  assert (N : s <> []) by (intros ->; simpl in L; lia).
  destruct (trimmed_last s T N) as (y & c & -> & Sp).
  exists y, c. split; [reflexivity|]. split; [exact Sp|].
  unfold extractSentences, sentencePieces in H.
  apply filter_In in H. destruct H as [H _].
  apply in_map_iff in H. destruct H as (piece & E & Hp).
  assert (S : Forall (Forall (fun c => isTerminator c = false /\ True))
                     (split isTerminator
                            (replaceRuns isNewline (lit " ") text))).
  { apply split_pieces. apply Forall_forall. trivial. }
  rewrite Forall_forall in S. specialize (S piece Hp).
  apply Forall_trim in S. rewrite E in S.
  apply Forall_app in S. destruct S as [_ S].
  apply Forall_cons_iff in S. tauto.
Qed.

Lemma join_endsInWord (sep : str) (l : list str) :
  l <> [] -> Forall endsInWord l -> endsInWord (join sep l).
Proof.
  intros N F. induction F as [|x l Hx F IH]; [contradiction|].
  destruct l as [|x' l]; [exact Hx|].
  destruct IH as (y & c & E & Hc); [discriminate|].
  change (join sep (x :: x' :: l)) with (x ++ sep ++ join sep (x' :: l)).
  rewrite E. exists (x ++ sep ++ y), c.
  split; [rewrite <- !app_assoc; reflexivity | exact Hc].
Qed.

Lemma cleanAnswer_full_stop (x : str) :
  endsInWord x ->
  exists body,
    cleanAnswer x = body ++ lit "." /\
    body <> [] /\ endsWithTerminator body = false.
Proof.
  intros (y & c & -> & Sp & Te).
  assert (V : visible (y ++ [c]) = true).
  { rewrite visible_app. simpl. rewrite Sp. simpl. apply orb_true_r. }
  destruct (cleanAnswer_visible _ V) as (c0 & rest & E & A). cbv zeta in A.
  assert (C : exists z, collapsed (y ++ [c]) = z ++ [c]).
  { unfold collapsed, replaceRuns. rewrite replaceRunsFrom_snoc by exact Sp.
    apply trim_snoc. exact Sp. }
  destruct C as (z & C). rewrite C in E.
  assert (T : endsWithTerminator (toUpperChar c0 :: rest) = false).
  { destruct z as [|a z]; simpl in E; inversion E; subst.
    - unfold endsWithTerminator. simpl.
      rewrite toUpperChar_terminator. exact Te.
    - unfold endsWithTerminator.
      change (toUpperChar c0 :: z ++ [c]) with ((toUpperChar c0 :: z) ++ [c]).
      rewrite lastChar_snoc. exact Te. }
  rewrite T in A. exists (toUpperChar c0 :: rest).
  split; [exact A|]. split; [discriminate | exact T].
Qed.

(** X7. Every answer that [generateFAQs] returns is a text that does not end
    in a full stop, an exclamation mark or a question mark, followed by one
    full stop: the cleaner always adds the full stop, and joining sentences
    with a full stop and a space never doubles it. *)
Theorem generateFAQs_answer_full_stop (text : str) :
  exists faqs,
    generateFAQs (VString text) = Normal faqs /\
    Forall (fun faq =>
              exists body,
                answer faq = body ++ lit "." /\
                body <> [] /\ endsWithTerminator body = false) faqs.
Proof.
  rewrite generateFAQs_string. eexists. split; [reflexivity|].
  destruct (length (trim text) =? 0); [constructor|].
  eapply Forall_impl; [|apply generateFromText_derived].
  intros faq [(l & N & I & E) _]. rewrite E.
  apply cleanAnswer_full_stop. apply join_endsInWord; [exact N|].
  apply Forall_forall. intros s Hs.
  apply (extractSentences_endsInWord text). apply I. exact Hs.
Qed.

(** *** Cleaning a cleaned answer *)

Lemma singleSpaced_replaceRunsFrom (s : str) :
  forall b, singleSpaced b (replaceRunsFrom isSpace [" "%char] b s).
Proof.
  induction s as [|c s IH]; intros b; simpl; [exact I|].
  destruct (isSpace c) eqn:E.
  - destruct b; simpl; [apply IH|].
    repeat split. apply IH.
  - simpl. rewrite E. apply IH.
Qed.

Lemma singleSpaced_fixed (s : str) :
  forall b, singleSpaced b s -> replaceRunsFrom isSpace [" "%char] b s = s.
Proof.
  induction s as [|c s IH]; intros b; simpl; [reflexivity|].
  destruct (isSpace c).
  - intros (-> & -> & H). simpl. rewrite (IH true H). reflexivity.
  - intros H. rewrite (IH false H). reflexivity.
Qed.

Lemma singleSpaced_dropWhile (s : str) :
  forall b, singleSpaced b s -> singleSpaced false (dropWhile isSpace s).
Proof.
  induction s as [|c s IH]; intros b; simpl; [trivial|].
  destruct (isSpace c) eqn:E.
  - intros (_ & _ & H). apply (IH true H).
  - intros H. simpl. rewrite E. exact H.
Qed.

Lemma singleSpaced_prefix (s t : str) :
  forall b, singleSpaced b (s ++ t) -> singleSpaced b s.
Proof.
  induction s as [|c s IH]; intros b; simpl; [trivial|].
  destruct (isSpace c).
  - intros (H1 & H2 & H). repeat split; [exact H1 | exact H2 | apply IH; exact H].
  - apply IH.
Qed.

Lemma singleSpaced_snoc (s : str) (d : ascii) :
  isSpace d = false ->
  forall b, singleSpaced b s -> singleSpaced b (s ++ [d]).
Proof.
  intros Hd. induction s as [|c s IH]; intros b; simpl.
  - rewrite Hd. trivial.
  - destruct (isSpace c).
    + intros (H1 & H2 & H). repeat split; [exact H1 | exact H2 | apply IH; exact H].
    + apply IH.
Qed.

Lemma trimEnd_prefix (s : str) : exists ws, s = trimEnd s ++ ws.
Proof.
  exists (rev (takeWhile isSpace (rev s))). unfold trimEnd.
  rewrite <- rev_app_distr, takeWhile_dropWhile, rev_involutive. reflexivity.
Qed.

Lemma singleSpaced_collapsed (x : str) : singleSpaced false (collapsed x).
Proof.
  unfold collapsed, trim, replaceRuns, trimStart.
  change (lit " ") with [" "%char].
  pose proof (singleSpaced_replaceRunsFrom x false) as H.
  apply singleSpaced_dropWhile in H.
  destruct (trimEnd_prefix
              (dropWhile isSpace (replaceRunsFrom isSpace [" "%char] false x)))
    as (ws & E).
  rewrite E in H. apply singleSpaced_prefix in H. exact H.
Qed.

Lemma trim_unchanged (c d : ascii) (r y : str) :
  isSpace c = false -> isSpace d = false ->
  c :: r = y ++ [d] -> trim (c :: r) = c :: r.
Proof.
  intros Hc Hd E. unfold trim, trimStart, trimEnd. simpl dropWhile.
  rewrite Hc, E, rev_app_distr. simpl. rewrite Hd. simpl.
  rewrite rev_involutive. reflexivity.
Qed.

Lemma endsWithTerminator_last (a : str) :
  endsWithTerminator a = true ->
  exists y d, a = y ++ [d] /\ isTerminator d = true.
Proof.
  unfold endsWithTerminator, lastChar. intros H.
  destruct (rev a) as [|d r] eqn:E; [discriminate|].
  exists (rev r), d. split; [|exact H].
  rewrite <- (rev_involutive a), E. reflexivity.
Qed.

(** X8. Cleaning is idempotent: [cleanAnswer] leaves an answer that it has
    produced as it is. *)
Theorem cleanAnswer_idempotent (x : str) :
  cleanAnswer (cleanAnswer x) = cleanAnswer x.
Proof.
  destruct (visible x) eqn:V;
    [|rewrite (cleanAnswer_invisible x V); reflexivity].
  destruct (cleanAnswer_visible x V) as (c0 & rest & E & A). cbv zeta in A.
  assert (Sp : isSpace c0 = false) by (apply (trimmed_first _ _ _ E)).
  assert (Up : isSpace (toUpperChar c0) = false)
    by (rewrite toUpperChar_space; exact Sp).
  pose proof (singleSpaced_collapsed x) as SS. rewrite E in SS.
  simpl in SS. rewrite Sp in SS.
  (* the answer: a capital, the rest, white space in single spaces, and a
     terminator at the end *)
  assert (F : exists rest',
             cleanAnswer x = toUpperChar c0 :: rest' /\
             singleSpaced false rest' /\
             endsWithTerminator (toUpperChar c0 :: rest') = true).
  { destruct (endsWithTerminator (toUpperChar c0 :: rest)) eqn:T.
    - exists rest. repeat split; assumption.
    - exists (rest ++ lit "."). split; [exact A|]. split.
      + apply singleSpaced_snoc; [reflexivity | exact SS].
      + unfold endsWithTerminator.
        change (toUpperChar c0 :: rest ++ lit ".")
          with ((toUpperChar c0 :: rest) ++ ["."%char]).
        rewrite lastChar_snoc. reflexivity. }
  destruct F as (rest' & Ea & SS' & T). rewrite Ea.
  destruct (endsWithTerminator_last _ T) as (y & d & Ey & Hd).
  assert (C : collapsed (toUpperChar c0 :: rest') = toUpperChar c0 :: rest').
  { unfold collapsed, replaceRuns. change (lit " ") with [" "%char].
    rewrite singleSpaced_fixed by (simpl; rewrite Up; exact SS').
    apply (trim_unchanged _ d _ y); [exact Up | | exact Ey].
    apply terminator_not_space. exact Hd. }
  assert (V' : visible (toUpperChar c0 :: rest') = true)
    by (simpl; rewrite Up; reflexivity).
  destruct (cleanAnswer_visible _ V') as (c1 & rest1 & E1 & A1). cbv zeta in A1.
  rewrite C in E1. inversion E1. subst c1 rest1.
  rewrite toUpperChar_fixed, T in A1. exact A1.
Qed.

(** *** Removing duplicates twice *)

Lemma removeDuplicatesFrom_unchanged (faqs : list FAQ) :
  forall seen,
    NoDup (map normalized faqs) ->
    (forall f, In f faqs -> ~ In (normalized f) seen) ->
    removeDuplicatesFrom seen faqs = faqs.
Proof.
  induction faqs as [|x faqs IH]; intros seen N D; simpl; [reflexivity|].
  inversion N as [|? ? Nx N']. subst.
  rewrite (proj2 (arrayIncludes_not_In seen (normalized x)))
    by (apply D; left; reflexivity).
  f_equal. apply IH; [exact N'|].
  intros f Hf [Eq | I].
  - apply Nx. rewrite Eq. apply in_map. exact Hf.
  - apply (D f); [right; exact Hf | exact I].
Qed.

(** X9. [removeDuplicates] leaves a list without two equal normalized
    questions as it is; so it is idempotent, and it leaves what
    [generateFAQs] returns as it is. *)
Theorem removeDuplicates_idempotent (faqs : list FAQ) :
  (NoDup (map normalized faqs) -> removeDuplicates faqs = faqs) /\
  removeDuplicates (removeDuplicates faqs) = removeDuplicates faqs /\
  (forall text,
     generateFAQs (VString text) = Normal faqs -> removeDuplicates faqs = faqs).
Proof.
  assert (U : forall l, NoDup (map normalized l) -> removeDuplicates l = l).
  { intros l N. apply removeDuplicatesFrom_unchanged; [exact N | simpl; tauto]. }
  split; [apply U|]. split.
  - apply U. apply removeDuplicatesFrom_NoDup.
  - intros text E. rewrite generateFAQs_string in E. inversion E as [E'].
    destruct (length (trim text) =? 0); [reflexivity|].
    apply U. unfold generateFromText. rewrite <- firstn_map.
    apply (NoDup_slice0 10). apply removeDuplicatesFrom_NoDup.
Qed.

Lemma removeDuplicates_idempotent_witness :
  let faqs := [ {| question := lit "What is Widgets?"; answer := lit "A." |};
                {| question := lit "Why should I use Widgets?"; answer := lit "B." |} ] in
  NoDup (map normalized faqs) /\ removeDuplicates faqs = faqs.
Proof.
  intros faqs.
  assert (N : NoDup (map normalized faqs)).
  { vm_compute. constructor.
    - intros [H | []]. discriminate H.
    - constructor; [intros [] | constructor]. }
  split; [exact N | apply (proj1 (removeDuplicates_idempotent faqs) N)].
Defined.

(** *** The subject of a question *)

Lemma asksAbout_topic (topics : list str) (pre post subject : str) (a : str) :
  In (pre, post) questionTemplates -> In subject topics ->
  asksAbout topics {| question := pre ++ subject ++ post; answer := a |}.
Proof.
  intros T H. exists pre, post, subject.
  split; [exact T|]. split; [reflexivity | left; exact H].
Qed.

Lemma first_topic (topics : list str) :
  (0 <? length topics) = true ->
  In (interpolate (nth_error topics 0)) topics.
Proof. destruct topics; [discriminate | left; reflexivity]. Qed.

Lemma second_topic (topics : list str) :
  (1 <? length topics) = true ->
  In (interpolate (orElse (nth_error topics 1) (nth_error topics 0))) topics.
Proof.
  destruct topics as [|t0 [|t1 topics]]; [discriminate | discriminate|].
  intros _. destruct t1; simpl; auto.
Qed.

Ltac template :=
  unfold questionTemplates; repeat (first [left; reflexivity | right]).

Lemma generateDefinitionFAQs_asksAbout (sentences topics : list str) :
  Forall (asksAbout topics) (generateDefinitionFAQs sentences topics).
Proof.
  unfold generateDefinitionFAQs.
  apply (fold_left_invariant (Forall (asksAbout topics)) (fun t => In t topics)).
  - intros faqs topic Ht Hf.
    destruct (truthy (find (fun s => mentions s topic) sentences)); [|exact Hf].
    apply Forall_push; [exact Hf|].
    apply asksAbout_topic; [template | exact Ht].
  - apply Forall_forall. apply incl_slice0.
  - constructor.
Qed.

Lemma generateProcessFAQs_asksAbout (sentences topics : list str) :
  Forall (asksAbout topics) (generateProcessFAQs sentences topics).
Proof.
  unfold generateProcessFAQs. apply Forall_slice0.
  match goal with
  | |- Forall _ (if _ then ?l ++ _ else ?l) =>
      assert (L : Forall (asksAbout topics) l)
  end.
  { apply (fold_left_invariant (Forall (asksAbout topics)) (fun _ => True)).
    - intros faqs sentence _ Hf.
      destruct (hasIndicator processIndicators sentence); [|exact Hf].
      destruct (truthy (find (fun t => mentions sentence t) topics))
        as [topic|] eqn:E; [|exact Hf].
      apply truthy_Some in E. destruct E as [E _]. apply find_some in E.
      apply Forall_push; [exact Hf|].
      apply asksAbout_topic; [template | tauto].
    - apply Forall_forall. trivial.
    - constructor. }
  destruct (0 <? length (filter (test stepPattern) sentences)); cbn [andb];
    [|exact L].
  destruct (0 <? length topics) eqn:T; cbn [andb]; [|exact L].
  apply Forall_push; [exact L|].
  apply asksAbout_topic; [template | apply first_topic; exact T].
Qed.

Lemma generateFeatureFAQs_asksAbout (sentences topics : list str) :
  Forall (asksAbout topics) (generateFeatureFAQs sentences topics).
Proof.
  unfold generateFeatureFAQs.
  destruct (0 <? length (filter (hasIndicator featureIndicators) sentences));
    cbn [andb]; [|constructor].
  destruct (0 <? length topics) eqn:T; cbn [andb]; constructor; [|constructor].
  apply asksAbout_topic; [template | apply first_topic; exact T].
Qed.

Lemma generateBenefitFAQs_asksAbout (sentences topics : list str) :
  Forall (asksAbout topics) (generateBenefitFAQs sentences topics).
Proof.
  unfold generateBenefitFAQs.
  destruct (0 <? length (filter (hasIndicator benefitIndicators) sentences));
    cbn [andb]; [|constructor].
  destruct (0 <? length topics) eqn:T; cbn [andb]; constructor; [|constructor].
  apply asksAbout_topic; [template | apply first_topic; exact T].
Qed.

Lemma generateTopicFAQs_asksAbout (sentences topics : list str) :
  Forall (asksAbout topics) (generateTopicFAQs sentences topics).
Proof.
  unfold generateTopicFAQs. apply Forall_slice0.
  assert (Step : forall (b : bool) (l : list FAQ) (x : FAQ),
             Forall (asksAbout topics) l ->
             (b = true -> asksAbout topics x) ->
             Forall (asksAbout topics) (if b then l ++ [x] else l)).
  { intros [] l x Hl Hx; [apply Forall_push; auto | exact Hl]. }
  apply Step; [apply Step; [apply Step; [constructor|]|]|].
  - intros H. apply andb_true_iff in H. destruct H as [_ H].
    apply asksAbout_topic; [template | apply second_topic; exact H].
  - intros _. destruct topics as [|t0 topics].
    + exists (lit "What are the requirements for "), (lit "?"), (lit "undefined").
      split; [template|]. split; [reflexivity|]. right. repeat split.
    + apply asksAbout_topic; [template | left; reflexivity].
  - intros H. apply andb_true_iff in H. destruct H as [_ H].
    apply asksAbout_topic; [template | apply first_topic; exact H].
Qed.

(** X10. Every question that [generateFAQs] returns is one of the eight
    question templates around one of the topics of the text.  The only
    exception is the requirements question of a text without topics, whose
    subject is the text [undefined]. *)
Theorem generateFAQs_asks_about_topic (text : str) :
  exists faqs,
    generateFAQs (VString text) = Normal faqs /\
    Forall (asksAbout (identifyTopics text (extractKeywords text))) faqs.
Proof.
  rewrite generateFAQs_string. eexists. split; [reflexivity|].
  destruct (length (trim text) =? 0); [constructor|].
  apply Forall_forall. intros faq H. apply generateFromText_candidate in H.
  revert faq H. apply Forall_forall. unfold candidates.
  repeat (apply Forall_app; split).
  - apply generateDefinitionFAQs_asksAbout.
  - apply generateProcessFAQs_asksAbout.
  - apply generateFeatureFAQs_asksAbout.
  - apply generateBenefitFAQs_asksAbout.
  - apply generateTopicFAQs_asksAbout.
Qed.

(** *** The Definition generator *)

Lemma startsWith_spec (t s : str) :
  startsWith t s = true <-> exists post, s = t ++ post.
Proof.
  revert s. induction t as [|x t IH]; intros s; simpl.
  - split; [intros _; exists s; reflexivity | reflexivity].
  - destruct s as [|y s].
    + split; [discriminate | intros (post & E); discriminate E].
    + rewrite andb_true_iff, Ascii.eqb_eq, IH. split.
      * intros (-> & post & ->). exists post. reflexivity.
      * intros (post & E). inversion E. split; [reflexivity|].
        exists post. reflexivity.
Qed.

Lemma includes_spec (s t : str) :
  includes s t = true <-> exists pre post, s = pre ++ t ++ post.
Proof.
  induction s as [|c s IH]; simpl.
  - rewrite orb_false_r, startsWith_spec. split.
    + intros (post & E). exists [], post. exact E.
    + intros (pre & post & E). destruct pre; [|discriminate E].
      exists post. exact E.
  - rewrite orb_true_iff, startsWith_spec, IH. split.
    + intros [(post & E) | (pre & post & E)].
      * exists [], post. exact E.
      * exists (c :: pre), post. rewrite E. reflexivity.
    + intros (pre & post & E). destruct pre as [|x pre].
      * left. exists post. exact E.
      * right. inversion E. exists pre, post. reflexivity.
Qed.

Lemma find_first {A} (f : A -> bool) (l : list A) (x : A) :
  find f l = Some x ->
  exists before after,
    l = before ++ x :: after /\ Forall (fun y => f y = false) before.
Proof.
  induction l as [|y l IH]; simpl; [discriminate|].
  destruct (f y) eqn:E.
  - intros H. inversion H. subst. exists [], l. split; [reflexivity | constructor].
  - intros H. destruct (IH H) as (before & after & -> & F).
    exists (y :: before), after. split; [reflexivity|].
    constructor; assumption.
Qed.

Lemma generateDefinitionFAQs_fold (sentences : list str) (topics : list str) :
  forall acc faq,
    In faq (fold_left
              (fun faqs topic =>
                 match truthy (find (fun s => mentions s topic) sentences) with
                 | Some relevantSentence =>
                     faqs ++ [{| question := lit "What is " ++ topic ++ lit "?";
                                 answer := cleanAnswer relevantSentence |}]
                 | None => faqs
                 end) topics acc)
    <-> In faq acc \/
        exists topic s,
          In topic topics /\
          truthy (find (fun s => mentions s topic) sentences) = Some s /\
          faq = {| question := lit "What is " ++ topic ++ lit "?";
                   answer := cleanAnswer s |}.
Proof.
  induction topics as [|t topics IH]; intros acc faq; simpl.
  - split; [auto | intros [H | (topic & s & [] & _)]; exact H].
  - rewrite IH.
    destruct (truthy (find (fun s => mentions s t) sentences)) as [rel|] eqn:E.
    + rewrite in_app_iff. simpl. split.
      * intros [[H | [<- | []]] | (topic & s & Ht & Hs & Ef)].
        -- left. exact H.
        -- right. exists t, rel. auto.
        -- right. exists topic, s. auto.
      * intros [H | (topic & s & [<- | Ht] & Hs & Ef)].
        -- left. left. exact H.
        -- left. right. left. rewrite Ef. congruence.
        -- right. exists topic, s. auto.
    + split.
      * intros [H | (topic & s & Ht & Hs & Ef)]; [left; exact H|].
        right. exists topic, s. auto.
      * intros [H | (topic & s & [<- | Ht] & Hs & Ef)];
          [left; exact H | congruence |].
        right. exists topic, s. auto.
Qed.

(** X11. A FAQ of the Definition generator asks "What is T?" for one of the
    first three topics T and answers with the first sentence in which the
    lower-cased topic occurs as a part of the lower-cased sentence, cleaned.
    Each of the first three topics that a non-empty sentence mentions first
    gets its FAQ. *)
Theorem generateDefinitionFAQs_first_mention (sentences topics : list str) :
  (forall faq, In faq (generateDefinitionFAQs sentences topics) ->
     exists topic s before after pre post,
       In topic (firstn 3 topics) /\
       faq = {| question := lit "What is " ++ topic ++ lit "?";
                answer := cleanAnswer s |} /\
       sentences = before ++ s :: after /\
       Forall (fun y => mentions y topic = false) before /\
       toLowerCase s = pre ++ toLowerCase topic ++ post) /\
  (forall topic s,
     In topic (firstn 3 topics) ->
     find (fun s => mentions s topic) sentences = Some s ->
     s <> [] ->
     In {| question := lit "What is " ++ topic ++ lit "?";
           answer := cleanAnswer s |}
        (generateDefinitionFAQs sentences topics)).
Proof.
  unfold generateDefinitionFAQs. split.
  - intros faq H. apply generateDefinitionFAQs_fold in H.
    destruct H as [[] | (topic & s & Ht & Hs & ->)].
    apply truthy_Some in Hs. destruct Hs as [Hs _].
    destruct (find_first _ _ _ Hs) as (before & after & E & F).
    apply find_some in Hs. destruct Hs as [_ M].
    apply includes_spec in M. destruct M as (pre & post & M).
    exists topic, s, before, after, pre, post. auto.
  - intros topic s Ht Hs N. apply generateDefinitionFAQs_fold. right.
    exists topic, s. split; [exact Ht|]. split; [|reflexivity].
    rewrite Hs. destruct s; [contradiction | reflexivity].
Qed.

Lemma generateDefinitionFAQs_first_mention_witness :
  let sentences := [lit "The tool is easy to install";
                    lit "Widgets help you save time"] in
  let topics := [lit "Widgets"; lit "tool"] in
  In (lit "Widgets") (firstn 3 topics) /\
  In {| question := lit "What is Widgets?";
        answer := lit "Widgets help you save time." |}
     (generateDefinitionFAQs sentences topics).
Proof.
  intros sentences topics.
  assert (T : In (lit "Widgets") (firstn 3 topics)) by (left; reflexivity).
  split; [exact T|].
  apply (proj2 (generateDefinitionFAQs_first_mention sentences topics)
               (lit "Widgets") (lit "Widgets help you save time") T).
  - reflexivity.
  - discriminate.
Defined.

(** ** Properties of the server *)

Import Server.

(** *** The [Map] *)

Lemma mapGet_mapSet {V} (m : jsMap V) (k : str) (v : V) :
  mapGet (mapSet m k v) k = Some v.
Proof.
  induction m as [|[k' v'] m IH]; simpl.
  - rewrite str_eqb_refl. reflexivity.
  - destruct (str_eqb k k') eqn:E; simpl; rewrite E; [reflexivity | exact IH].
Qed.

Lemma str_eqb_neq (a b : str) : a <> b -> str_eqb a b = false.
Proof.
  intros N. destruct (str_eqb a b) eqn:E; [|reflexivity].
  apply str_eqb_eq in E. contradiction.
Qed.

Lemma mapGet_mapSet_other {V} (m : jsMap V) (k k' : str) (v : V) :
  k' <> k -> mapGet (mapSet m k v) k' = mapGet m k'.
Proof.
  intros N. induction m as [|[k0 v0] m IH]; simpl.
  - rewrite (str_eqb_neq _ _ N). reflexivity.
  - destruct (str_eqb k k0) eqn:E; simpl.
    + apply str_eqb_eq in E. subst k0. rewrite (str_eqb_neq _ _ N). reflexivity.
    + rewrite IH. reflexivity.
Qed.

Lemma mapSet_mapSet {V} (m : jsMap V) (k : str) (v w : V) :
  mapSet (mapSet m k v) k w = mapSet m k w.
Proof.
  induction m as [|[k' v'] m IH]; simpl.
  - rewrite str_eqb_refl. reflexivity.
  - destruct (str_eqb k k') eqn:E; simpl; rewrite E; [reflexivity|].
    rewrite IH. reflexivity.
Qed.

Lemma mapGet_mapDelete {V} (m : jsMap V) (k : str) :
  mapGet (mapDelete m k) k = None.
Proof.
  induction m as [|[k' v'] m IH]; simpl; [reflexivity|].
  destruct (str_eqb k k') eqn:E; simpl; [exact IH|].
  rewrite E. exact IH.
Qed.

Lemma mapGet_mapDelete_other {V} (m : jsMap V) (k k' : str) :
  k' <> k -> mapGet (mapDelete m k) k' = mapGet m k'.
Proof.
  intros N. induction m as [|[k0 v0] m IH]; simpl; [reflexivity|].
  destruct (str_eqb k k0) eqn:E; simpl.
  - apply str_eqb_eq in E. subst k0.
    destruct (str_eqb k' k) eqn:E'; [|exact IH].
    apply str_eqb_eq in E'. contradiction.
  - rewrite IH. reflexivity.
Qed.

(** *** [POST /api/generate] *)

Lemma orValue_default (given : value) (s : str) :
  s <> [] ->
  orValue (orValue given (VString s)) VUndefined = orValue given (VString s).
Proof.
  intros N. unfold orValue. destruct (toBoolean given) eqn:E.
  - rewrite E. reflexivity.
  - destruct s; [contradiction | reflexivity].
Qed.

(** The document that [POST /api/generate] stores for the text [s]. *)
Lemma postGenerate_string
    (docId : str) (now : Z) (s : str) (givenTitle : value) (st : state) :
  postGenerate docId now (VString s) givenTitle st =
  if length (trim s) =? 0 then (st, failWith 400 "Text content is required")
  else if length (trim s) <? 50 then
    (st, failWith 400
           "Please provide at least 50 characters for better FAQ generation")
  else
    let document :=
      {| id := docId;
         title := orValue givenTitle (VString (lit "Text Input"));
         filename := VUndefined;
         content := Some s;
         filePath := None;
         uploadedAt := now;
         contentPreview := preview s;
         faqs := generateFromText s;
         wordCount := countWordsOf s;
         characterCount := length s |} in
    ({| documents := mapSet (documents st) docId document; files := files st |},
     ok (GeneratedBody (summaryOf document) (generateFromText s)
           (lit "Generated " ++ showNat (length (generateFromText s))
              ++ lit " FAQs from your content"))).
Proof.
  unfold postGenerate. rewrite generateFAQs_string.
  destruct s as [|c s]; [reflexivity|].
  cbn [toBoolean typeof isStringTag negb orb callTrim length Nat.eqb].
  destruct (length (trim (c :: s)) =? 0); [reflexivity|].
  destruct (length (trim (c :: s)) <? 50); [reflexivity|].
  cbv zeta. unfold summaryOf. cbn [id title filename uploadedAt contentPreview
                                   wordCount characterCount].
  rewrite orValue_default by discriminate. reflexivity.
Qed.

(** X12. [POST /api/generate] accepts exactly the texts that are strings
    with at least 50 characters after trimming.  Any other body is answered
    with the status 400 and leaves the store as it was; an accepted text is
    answered with the status 200 and the FAQs of the generator, which are
    stored with the text under the new identifier.  The status 500 is never
    sent. *)
Theorem postGenerate_validation
    (docId : str) (now : Z) (text givenTitle : value) (st : state) :
  (~ (exists s, text = VString s /\ 50 <= length (trim s)) ->
   exists message,
     postGenerate docId now text givenTitle st =
     (st, {| status := 400; json := ErrorBody message |})) /\
  (forall s, text = VString s -> 50 <= length (trim s) ->
   exists document message,
     postGenerate docId now text givenTitle st =
     ({| documents := mapSet (documents st) docId document;
         files := files st |},
      {| status := 200;
         json := GeneratedBody (summaryOf document) (generateFromText s)
                               message |}) /\
     id document = docId /\
     content document = Some s /\
     generateFAQs text = Normal (faqs document) /\
     faqs document = generateFromText s).
Proof.
  split.
  - intros N. destruct (isStringTag (typeof text)) eqn:T.
    2:{ eexists. unfold postGenerate. rewrite T. simpl negb.
        rewrite orb_true_r. reflexivity. }
    destruct text; try discriminate T.
    rewrite postGenerate_string.
    destruct (length (trim s) =? 0); [eexists; reflexivity|].
    destruct (length (trim s) <? 50) eqn:L; [eexists; reflexivity|].
    exfalso. apply N. exists s. split; [reflexivity|].
    apply Nat.ltb_ge. exact L.
  - intros s -> L. rewrite postGenerate_string, generateFAQs_string.
    assert (L0 : (length (trim s) =? 0) = false) by (apply Nat.eqb_neq; lia).
    assert (L1 : (length (trim s) <? 50) = false) by (apply Nat.ltb_ge; exact L).
    rewrite L0, L1. cbv zeta. eexists. eexists.
    split; [reflexivity|]. repeat split.
Qed.

Lemma postGenerate_validation_witness :
  let st := {| documents := []; files := [] |} in
  let short := lit "Widgets help you save time." in
  let long := lit "Widgets help you save time and improve efficiency every day." in
  (exists message,
     postGenerate (lit "id-1") 0 (VString short) VUndefined st =
     (st, {| status := 400; json := ErrorBody message |})) /\
  (exists document message,
     postGenerate (lit "id-1") 0 (VString long) VUndefined st =
     ({| documents := mapSet (documents st) (lit "id-1") document;
         files := files st |},
      {| status := 200;
         json := GeneratedBody (summaryOf document) (generateFromText long)
                               message |})).
Proof.
  intros st short long. split.
  - apply (proj1 (postGenerate_validation (lit "id-1") 0 (VString short)
                    VUndefined st)).
    intros (s & E & L). inversion E. subst s. vm_compute in L.
    repeat (apply le_S_n in L). inversion L.
  - destruct (proj2 (postGenerate_validation (lit "id-1") 0 (VString long)
                       VUndefined st) long eq_refl)
      as (document & message & E & _).
    + apply Nat.leb_le. reflexivity.
    + exists document, message. exact E.
Defined.

(** X13. A document that [POST /api/generate] has stored is what
    [GET /api/documents/:id] returns for the new identifier: the same
    summary and the same FAQs as in the response of the POST.  The answers
    for the other identifiers do not change. *)
Theorem postGenerate_then_getDocument
    (docId : str) (now : Z) (s : str) (givenTitle : value) (st : state) :
  50 <= length (trim s) ->
  let result := postGenerate docId now (VString s) givenTitle st in
  exists doc message,
    json (snd result) = GeneratedBody doc (generateFromText s) message /\
    getDocument docId (fst result) = ok (DocumentBody doc (generateFromText s)) /\
    (forall other, other <> docId ->
       getDocument other (fst result) = getDocument other st).
Proof.
  intros L result. unfold result. rewrite postGenerate_string.
  assert (L0 : (length (trim s) =? 0) = false) by (apply Nat.eqb_neq; lia).
  assert (L1 : (length (trim s) <? 50) = false) by (apply Nat.ltb_ge; exact L).
  rewrite L0, L1. cbv zeta. eexists. eexists.
  split; [reflexivity|]. split.
  - unfold getDocument. cbn [fst documents]. rewrite mapGet_mapSet. reflexivity.
  - intros other N. unfold getDocument. cbn [fst documents].
    rewrite mapGet_mapSet_other by exact N. reflexivity.
Qed.

Lemma postGenerate_then_getDocument_witness :
  let st := {| documents := []; files := [] |} in
  let text := lit "Widgets help you save time and improve efficiency every day." in
  50 <= length (trim text) /\
  exists doc,
    getDocument (lit "id-1")
      (fst (postGenerate (lit "id-1") 0 (VString text) VUndefined st))
    = ok (DocumentBody doc (generateFromText text)).
Proof.
  intros st text.
  assert (L : 50 <= length (trim text)) by (apply Nat.leb_le; reflexivity).
  split; [exact L|].
  destruct (postGenerate_then_getDocument (lit "id-1") 0 text VUndefined st L)
    as (doc & message & _ & G & _).
  exists doc. exact G.
Defined.

(** *** [DELETE /api/documents/:id] *)

(** X14. After [DELETE /api/documents/:id], whatever it answered,
    [GET /api/documents/:id] answers 404 for that identifier and as before
    for every other one.  The DELETE itself answers 404 and changes nothing
    when the identifier is unknown, and 200 otherwise. *)
Theorem deleteDocument_then_getDocument (docId : str) (st : state) :
  let result := deleteDocument docId st in
  getDocument docId (fst result) = failWith 404 "Document not found" /\
  (forall other, other <> docId ->
     getDocument other (fst result) = getDocument other st) /\
  (mapGet (documents st) docId = None ->
   result = (st, failWith 404 "Document not found")) /\
  (mapGet (documents st) docId <> None -> status (snd result) = 200).
Proof.
  unfold deleteDocument, getDocument.
  destruct (mapGet (documents st) docId) as [document|] eqn:G; cbn [fst snd].
  - cbn [documents]. rewrite mapGet_mapDelete.
    split; [reflexivity|]. split.
    + intros other N. rewrite mapGet_mapDelete_other by exact N. reflexivity.
    + split; [discriminate | reflexivity].
  - rewrite G. split; [reflexivity|]. split; [reflexivity|].
    split; [reflexivity | congruence].
Qed.

(** *** [POST /api/documents/:id/regenerate] *)

Lemma visible_false (s : str) :
  visible s = false <-> Forall (fun c => isSpace c = true) s.
Proof.
  induction s as [|c s IH]; simpl; [split; [constructor | reflexivity]|].
  rewrite orb_false_iff, negb_false_iff, IH. split.
  - intros [H1 H2]. constructor; assumption.
  - intros H. inversion H. tauto.
Qed.

(** A text without a visible character has no sentence. *)
Lemma extractSentences_blank (text : str) :
  visible text = false -> extractSentences text = [].
Proof.
  intros V. apply extractSentences_none.
  apply Forall_forall. intros piece Hp. unfold sentencePieces in Hp.
  apply in_map_iff in Hp. destruct Hp as (raw & <- & Hr).
  assert (S : Forall (Forall (fun c => isTerminator c = false /\ isSpace c = true))
                     (split isTerminator (replaceRuns isNewline (lit " ") text))).
  { apply split_pieces. apply visible_false. unfold replaceRuns.
    rewrite visible_replaceRunsFrom_newline. exact V. }
  rewrite Forall_forall in S. specialize (S raw Hr).
  assert (Vr : visible raw = false).
  { apply visible_false. eapply Forall_impl; [|exact S]. simpl. tauto. }
  pose proof (trim_empty raw) as E. rewrite Vr in E. simpl in E.
  apply Nat.eqb_eq in E. rewrite E. lia.
Qed.

(** On a string the guard of [generateFAQs] changes nothing: the body
    returns the empty array for a text that is empty after trimming. *)
Lemma generateFAQs_string_body (text : str) :
  generateFAQs (VString text) = Normal (generateFromText text).
Proof.
  rewrite generateFAQs_string, trim_empty.
  destruct (visible text) eqn:V; [reflexivity|]. simpl.
  unfold generateFromText.
  rewrite (extractSentences_blank text V), candidates_no_sentences. reflexivity.
Qed.

Lemma regenerate_known (docId : str) (st : state) (document : document) (c : str) :
  mapGet (documents st) docId = Some document ->
  present (match present (content document), present (filePath document) with
           | None, Some path =>
               match mapGet (files st) path with
               | Some fileText => Some fileText
               | None => content document
               end
           | _, _ => content document
           end) = Some c ->
  regenerate docId st =
  ({| documents :=
        mapSet (documents st) docId
          {| id := id document;
             title := title document;
             filename := filename document;
             content := content document;
             filePath := filePath document;
             uploadedAt := uploadedAt document;
             contentPreview := contentPreview document;
             faqs := generateFromText c;
             wordCount := wordCount document;
             characterCount := characterCount document |};
      files := files st |},
   ok (RegeneratedBody (generateFromText c)
         (lit "Regenerated " ++ showNat (length (generateFromText c))
            ++ lit " FAQs"))).
Proof.
  intros G P. unfold regenerate. rewrite G. cbv zeta. rewrite P.
  rewrite generateFAQs_string_body. reflexivity.
Qed.

(** X15. Regenerating is idempotent: a second
    [POST /api/documents/:id/regenerate] gives the response and the state of
    the first.  It changes no file and no other document. *)
Theorem regenerate_idempotent (docId : str) (st : state) :
  let result := regenerate docId st in
  regenerate docId (fst result) = result /\
  files (fst result) = files st /\
  (forall other, other <> docId ->
     mapGet (documents (fst result)) other = mapGet (documents st) other).
Proof.
  cbv zeta.
  destruct (mapGet (documents st) docId) as [document|] eqn:G.
  2:{ assert (E : regenerate docId st = (st, failWith 404 "Document not found"))
        by (unfold regenerate; rewrite G; reflexivity).
      rewrite E. cbn [fst]. rewrite E. repeat split. }
  destruct (present (match present (content document),
                           present (filePath document) with
                     | None, Some path =>
                         match mapGet (files st) path with
                         | Some fileText => Some fileText
                         | None => content document
                         end
                     | _, _ => content document
                     end)) as [c|] eqn:P.
  2:{ assert (E : regenerate docId st =
                  (st, failWith 400 "Unable to retrieve document content"))
        by (unfold regenerate; rewrite G; cbv zeta; rewrite P; reflexivity).
      rewrite E. cbn [fst]. rewrite E. repeat split. }
  rewrite (regenerate_known docId st document c G P). cbn [fst files documents].
  split; [|split; [reflexivity|]].
  - erewrite regenerate_known;
      [| cbn [documents]; apply mapGet_mapSet | cbn [content filePath files]; exact P].
    cbn [documents files id title filename content filePath uploadedAt
         contentPreview wordCount characterCount].
    rewrite mapSet_mapSet. reflexivity.
  - intros other N. apply mapGet_mapSet_other. exact N.
Qed.

(** X16. Regenerating a document that [POST /api/generate] has just stored
    returns the FAQs it was stored with and leaves the state as it is. *)
Theorem postGenerate_then_regenerate
    (docId : str) (now : Z) (s : str) (givenTitle : value) (st : state) :
  50 <= length (trim s) ->
  let stored := fst (postGenerate docId now (VString s) givenTitle st) in
  exists message,
    regenerate docId stored =
    (stored, ok (RegeneratedBody (generateFromText s) message)).
Proof.
  intros L. cbv zeta. rewrite postGenerate_string.
  assert (L0 : (length (trim s) =? 0) = false) by (apply Nat.eqb_neq; lia).
  assert (L1 : (length (trim s) <? 50) = false) by (apply Nat.ltb_ge; exact L).
  rewrite L0, L1. cbv zeta. cbn [fst].
  assert (N : s <> []) by (intros ->; simpl in L; lia).
  eexists. erewrite regenerate_known;
    [| cbn [documents]; apply mapGet_mapSet
     | cbn [content filePath]; destruct s; [contradiction | reflexivity]].
  cbn [documents files id title filename content filePath uploadedAt
       contentPreview wordCount characterCount].
  rewrite mapSet_mapSet. reflexivity.
Qed.

Lemma postGenerate_then_regenerate_witness :
  let st := {| documents := []; files := [] |} in
  let text := lit "Widgets help you save time and improve efficiency every day." in
  let stored := fst (postGenerate (lit "id-1") 0 (VString text) VUndefined st) in
  50 <= length (trim text) /\
  exists message,
    regenerate (lit "id-1") stored =
    (stored, ok (RegeneratedBody (generateFromText text) message)).
Proof.
  intros st text stored.
  assert (L : 50 <= length (trim text)) by (apply Nat.leb_le; reflexivity).
  split; [exact L|].
  apply (postGenerate_then_regenerate (lit "id-1") 0 text VUndefined st L).
Defined.

(** X17. For a string the guard of [generateFAQs] is redundant: a text
    without a visible character has no sentence, so the steps behind the
    guard return the empty array for it as well, and [generateFAQs] returns
    what they compute for every string. *)
Theorem generateFAQs_guard_redundant (text : str) :
  generateFAQs (VString text) = Normal (generateFromText text) /\
  (trim text = [] -> extractSentences text = [] /\ generateFromText text = []).
Proof.
  split; [apply generateFAQs_string_body|].
  intros T.
  assert (V : visible text = false).
  { pose proof (trim_empty text) as E. rewrite T in E. simpl in E.
    symmetry in E. apply negb_true_iff in E. exact E. }
  split; [apply extractSentences_blank; exact V|].
  unfold generateFromText.
  rewrite (extractSentences_blank text V), candidates_no_sentences. reflexivity.
Qed.

Lemma generateFAQs_guard_redundant_witness :
  let text := lit "   " in
  trim text = [] /\ generateFromText text = [].
Proof.
  intros text.
  assert (T : trim text = []) by reflexivity.
  split; [exact T|].
  apply (proj2 (generateFAQs_guard_redundant text) T).
Defined.

(** *** [GET /api/documents] *)

Lemma precedes_sorted {A} (l : list A) :
  forall front, StronglySorted (precedes (front ++ l)) l.
Proof.
  induction l as [|x l IH]; intros front; [constructor|].
  constructor.
  - replace (front ++ x :: l) with ((front ++ [x]) ++ l)
      by (rewrite <- app_assoc; reflexivity).
    apply IH.
  - apply Forall_forall. intros y Hy. apply in_split in Hy.
    destruct Hy as (l2 & l3 & ->). exists front, l2, l3. reflexivity.
Qed.

(** X18. [GET /api/documents] lists every stored document once, the most
    recent first; documents of the same time stay in the order in which
    they were stored. *)
Theorem getDocuments_most_recent_first (st : state) :
  let stored := map listItemOf (mapValues (documents st)) in
  exists items,
    getDocuments st = ok (ListBody items) /\
    Permutation items stored /\
    StronglySorted
      (fun a b => (iUploadedAt b <= iUploadedAt a)%Z /\
                  (iUploadedAt a = iUploadedAt b -> precedes stored a b))
      items.
Proof.
  intros stored. unfold getDocuments, sort. fold stored.
  set (before := fun x y : listItem =>
                   match byRecency x y with
                   | Some v => (v <=? 0)%Z
                   | None => true
                   end).
  exists (sortBy before stored). split; [reflexivity|].
  split; [apply sortBy_Permutation|].
  apply (StronglySorted_weaken (stablyBefore before (precedes stored))).
  - intros a b [L Tie]. unfold before, byRecency in L, Tie.
    apply Z.leb_le in L. split; [lia|].
    intros E. apply Tie. apply Z.leb_le. lia.
  - apply sortBy_sorted.
    + intros x y. unfold before, byRecency. rewrite Z.leb_gt, Z.leb_le. lia.
    + intros x y z. unfold before, byRecency. rewrite !Z.leb_le. lia.
    + apply (precedes_sorted stored []).
Qed.

(** *** The Process generator *)

Lemma generateProcessFAQs_fold (topics sentences : list str) :
  forall acc,
    fold_left
      (fun faqs sentence =>
         if hasIndicator processIndicators sentence then
           match truthy (find (fun t => mentions sentence t) topics) with
           | Some topic =>
               faqs ++ [{| question := lit "How does " ++ topic ++ lit " work?";
                           answer := cleanAnswer sentence |}]
           | None => faqs
           end
         else faqs)
      sentences acc
    = acc ++
      flat_map
        (fun sentence =>
           if hasIndicator processIndicators sentence then
             match truthy (find (fun t => mentions sentence t) topics) with
             | Some topic =>
                 [{| question := lit "How does " ++ topic ++ lit " work?";
                     answer := cleanAnswer sentence |}]
             | None => []
             end
           else [])
        sentences.
Proof.
  induction sentences as [|s sentences IH]; intros acc; cbn [fold_left flat_map].
  - rewrite app_nil_r. reflexivity.
  - rewrite IH. destruct (hasIndicator processIndicators s); [|reflexivity].
    destruct (truthy (find (fun t => mentions s t) topics)); [|reflexivity].
    rewrite <- app_assoc. reflexivity.
Qed.

(** X19. When two or more sentences have a process indicator and mention a
    topic, the Process generator returns two "How does T work?" FAQs and
    nothing else: the cut to 2 removes the "How do I get started" FAQ. *)
Theorem generateProcessFAQs_started_cut (sentences topics : list str) :
  2 <= length (filter
                 (fun s => hasIndicator processIndicators s
                           && match truthy (find (fun t => mentions s t) topics) with
                              | Some _ => true
                              | None => false
                              end)
                 sentences) ->
  length (generateProcessFAQs sentences topics) = 2 /\
  Forall (fun faq =>
            exists topic sentence,
              In topic topics /\ In sentence sentences /\
              faq = {| question := lit "How does " ++ topic ++ lit " work?";
                       answer := cleanAnswer sentence |})
         (generateProcessFAQs sentences topics).
Proof.
  intros L. unfold generateProcessFAQs. rewrite generateProcessFAQs_fold.
  cbn [app].
  match goal with
  | |- context [flat_map ?g sentences] => set (howDoes := flat_map g sentences)
  end.
  assert (Len : 2 <= length howDoes).
  { etransitivity; [exact L|]. unfold howDoes. clear.
    induction sentences as [|s sentences IH]; cbn [filter flat_map length];
      [lia|].
    destruct (hasIndicator processIndicators s); cbn [andb app length];
      [|exact IH].
    destruct (truthy (find (fun t => mentions s t) topics));
      cbn [app length]; lia. }
  assert (All : Forall (fun faq =>
                          exists topic sentence,
                            In topic topics /\ In sentence sentences /\
                            faq = {| question := lit "How does " ++ topic
                                                   ++ lit " work?";
                                     answer := cleanAnswer sentence |})
                       howDoes).
  { apply Forall_forall. intros faq H. unfold howDoes in H.
    apply in_flat_map in H. destruct H as (s & Hs & H). cbv beta in H.
    destruct (hasIndicator processIndicators s); [|destruct H].
    destruct (truthy (find (fun t => mentions s t) topics)) as [topic|] eqn:E;
      [|destruct H].
    destruct H as [<- | []]. apply truthy_Some in E. destruct E as [E _].
    apply find_some in E. exists topic, s. tauto. }
  assert (Cut : forall extra, slice0 2 (howDoes ++ extra) = slice0 2 howDoes).
  { intros extra. unfold slice0. rewrite firstn_app.
    replace (2 - length howDoes) with 0 by lia.
    simpl. apply app_nil_r. }
  assert (E : slice0 2 (if (0 <? length (filter (test stepPattern) sentences))
                          && (0 <? length topics)
                        then howDoes ++
                             [{| question := lit "How do I get started with "
                                   ++ interpolate (nth_error topics 0) ++ lit "?";
                                 answer := cleanAnswer
                                   (join (lit ". ")
                                      (slice0 3 (filter (test stepPattern)
                                                        sentences))) |}]
                        else howDoes)
              = slice0 2 howDoes).
  { destruct ((0 <? length (filter (test stepPattern) sentences))
              && (0 <? length topics)); [apply Cut | reflexivity]. }
  rewrite E. split.
  - unfold slice0. apply firstn_length_le. exact Len.
  - apply Forall_slice0. exact All.
Qed.

Lemma generateProcessFAQs_started_cut_witness :
  let sentences := [lit "First follow the process for Widgets";
                    lit "Then read the guide about Widgets"] in
  let topics := [lit "Widgets"] in
  length (generateProcessFAQs sentences topics) = 2 /\
  map question (generateProcessFAQs sentences topics)
  = [lit "How does Widgets work?"; lit "How does Widgets work?"].
Proof.
  intros sentences topics. split; [|reflexivity].
  apply (generateProcessFAQs_started_cut sentences topics).
  apply Nat.leb_le. reflexivity.
Defined.

(** ** Properties of the page *)

Import App.

(** X20. [formatDate] writes "Just now" for less than a minute (a date in
    the future included), then whole minutes from 1 to 59, whole hours from
    1 to 23 and whole days from 1 to 6, rounded down; from a week on it
    writes the date.  The first minute reads "1 minute ago". *)
Theorem formatDate_ranges (date now : Z) :
  let diff := (now - date)%Z in
  ((diff < 60000)%Z -> formatDate date now = Text (lit "Just now")) /\
  ((60000 <= diff < 3600000)%Z ->
   exists n, (1 <= n <= 59)%Z /\ (n * 60000 <= diff < (n + 1) * 60000)%Z /\
             formatDate date now = Text (ago n "minute")) /\
  ((3600000 <= diff < 86400000)%Z ->
   exists n, (1 <= n <= 23)%Z /\ (n * 3600000 <= diff < (n + 1) * 3600000)%Z /\
             formatDate date now = Text (ago n "hour")) /\
  ((86400000 <= diff < 604800000)%Z ->
   exists n, (1 <= n <= 6)%Z /\ (n * 86400000 <= diff < (n + 1) * 86400000)%Z /\
             formatDate date now = Text (ago n "day")) /\
  ((604800000 <= diff)%Z -> formatDate date now = LocaleDate) /\
  ((60000 <= diff < 120000)%Z ->
   formatDate date now = Text (lit "1 minute ago")).
Proof.
  intros diff. unfold formatDate. fold diff.
  assert (D : forall unit, (0 < unit)%Z ->
            (diff / unit * unit <= diff < (diff / unit + 1) * unit)%Z).
  { intros unit U. pose proof (Z.div_mod diff unit).
    pose proof (Z.mod_pos_bound diff unit U). nia. }
  repeat split.
  - intros H. apply Z.ltb_lt in H. rewrite H. reflexivity.
  - intros [H1 H2]. exists (diff / 60000)%Z.
    specialize (D 60000%Z eq_refl).
    apply Z.ltb_ge in H1. apply Z.ltb_lt in H2. rewrite H1, H2.
    apply Z.ltb_ge in H1. apply Z.ltb_lt in H2.
    split; [lia|]. split; [exact D | reflexivity].
  - intros [H1 H2]. exists (diff / 3600000)%Z.
    specialize (D 3600000%Z eq_refl).
    assert (A : (diff <? 60000)%Z = false) by (apply Z.ltb_ge; lia).
    assert (B : (diff <? 3600000)%Z = false) by (apply Z.ltb_ge; lia).
    assert (C : (diff <? 86400000)%Z = true) by (apply Z.ltb_lt; lia).
    rewrite A, B, C. split; [lia|]. split; [exact D | reflexivity].
  - intros [H1 H2]. exists (diff / 86400000)%Z.
    specialize (D 86400000%Z eq_refl).
    assert (A : (diff <? 60000)%Z = false) by (apply Z.ltb_ge; lia).
    assert (B : (diff <? 3600000)%Z = false) by (apply Z.ltb_ge; lia).
    assert (C : (diff <? 86400000)%Z = false) by (apply Z.ltb_ge; lia).
    assert (E : (diff <? 604800000)%Z = true) by (apply Z.ltb_lt; lia).
    rewrite A, B, C, E. split; [lia|]. split; [exact D | reflexivity].
  - intros H.
    assert (A : (diff <? 60000)%Z = false) by (apply Z.ltb_ge; lia).
    assert (B : (diff <? 3600000)%Z = false) by (apply Z.ltb_ge; lia).
    assert (C : (diff <? 86400000)%Z = false) by (apply Z.ltb_ge; lia).
    assert (E : (diff <? 604800000)%Z = false) by (apply Z.ltb_ge; lia).
    rewrite A, B, C, E. reflexivity.
  - intros [H1 H2].
    assert (A : (diff <? 60000)%Z = false) by (apply Z.ltb_ge; lia).
    assert (B : (diff <? 3600000)%Z = true) by (apply Z.ltb_lt; lia).
    rewrite A, B.
    assert (N : (diff / 60000 = 1)%Z).
    { specialize (D 60000%Z eq_refl). lia. }
    rewrite N. reflexivity.
Qed.

Lemma formatDate_ranges_witness :
  (60000 <= 1000000 - 100000 < 3600000)%Z /\
  formatDate 100000 1000000 = Text (lit "15 minutes ago").
Proof.
  assert (H : (60000 <= 1000000 - 100000 < 3600000)%Z) by lia.
  split; [exact H|].
  destruct (proj1 (proj2 (formatDate_ranges 100000 1000000)) H)
    as (n & _ & B & E).
  rewrite E. assert (N : n = 15%Z) by lia. rewrite N. reflexivity.
Defined.

(** ** White space around the text *)

(** *** One white-space character in front *)

Lemma replaceRunsFrom_head (p : ascii -> bool) (r : str) (c : ascii) (s : str) :
  p c = false ->
  replaceRunsFrom p r true (c :: s) = replaceRunsFrom p r false (c :: s).
Proof. intros H. simpl. rewrite H. reflexivity. Qed.

(** In front of a text, a white-space character adds nothing to the text
    that [extractSentences] splits, or one white-space character. *)
Lemma replaceRuns_newline_cons (w : ascii) (s : str) :
  isSpace w = true ->
  replaceRuns isNewline (lit " ") (w :: s) = replaceRuns isNewline (lit " ") s \/
  exists w', isSpace w' = true /\
             replaceRuns isNewline (lit " ") (w :: s)
             = w' :: replaceRuns isNewline (lit " ") s.
Proof.
  intros W. unfold replaceRuns.
  assert (E : replaceRunsFrom isNewline (lit " ") false (w :: s) =
              if isNewline w
              then " "%char :: replaceRunsFrom isNewline (lit " ") true s
              else w :: replaceRunsFrom isNewline (lit " ") false s)
    by reflexivity.
  rewrite E. clear E. destruct (isNewline w) eqn:N.
  - destruct s as [|c s].
    + right. exists " "%char. split; reflexivity.
    + destruct (isNewline c) eqn:Nc.
      * left. simpl. rewrite Nc. reflexivity.
      * right. exists " "%char. split; [reflexivity|].
        rewrite (replaceRunsFrom_head _ _ _ _ Nc). reflexivity.
  - right. exists w. split; [exact W | reflexivity].
Qed.

Lemma trim_cons_space (w : ascii) (s : str) :
  isSpace w = true -> trim (w :: s) = trim s.
Proof. intros W. unfold trim, trimStart. simpl. rewrite W. reflexivity. Qed.

Lemma sentencePieces_cons_space (w : ascii) (s : str) :
  isSpace w = true -> sentencePieces (w :: s) = sentencePieces s.
Proof.
  intros W. unfold sentencePieces.
  destruct (replaceRuns_newline_cons w s W) as [-> | (w' & W' & ->)];
    [reflexivity|].
  rewrite split_cons.
  assert (T : isTerminator w' = false).
  { destruct (isTerminator w') eqn:E; [|reflexivity].
    apply terminator_not_space in E. congruence. }
  rewrite T.
  destruct (split isTerminator (replaceRuns isNewline (lit " ") s))
    as [|piece rest] eqn:E.
  - exfalso. exact (split_nonempty _ _ E).
  - simpl. rewrite (trim_cons_space w' piece W'). reflexivity.
Qed.

Lemma keywordChar_space (w : ascii) :
  isSpace w = true -> isSpace (keywordChar w) = true.
Proof. each_char w. Qed.

Lemma keywordWords_cons_space (w : ascii) (s : str) :
  isSpace w = true -> keywordWords (w :: s) = keywordWords s.
Proof.
  intros W. rewrite !keywordWords_map. simpl map.
  rewrite split_cons, (keywordChar_space w W).
  destruct (match map keywordChar s with
            | c' :: _ => isSpace c'
            | [] => false
            end); reflexivity.
Qed.

Lemma matchPhrasesFuel_prev (fuel : nat) (prev prev' : option ascii) (s : str) :
  isWordOpt prev = isWordOpt prev' ->
  matchPhrasesFuel fuel prev s = matchPhrasesFuel fuel prev' s.
Proof.
  intros H. destruct fuel as [|fuel]; [reflexivity|].
  destruct s as [|c s]; [reflexivity|].
  simpl. unfold wordBoundary. rewrite H.
  destruct (xorb (isWordOpt prev') (isWordOpt (Some c))); [|].
  - destruct (phrase (c :: s)) as [[m rest]|]; reflexivity.
  - reflexivity.
Qed.

Lemma space_not_word (w : ascii) : isSpace w = true -> isWordChar w = false.
Proof. each_char w. Qed.

Lemma matchPhrases_cons_space (w : ascii) (s : str) :
  isSpace w = true -> matchPhrases (w :: s) = matchPhrases s.
Proof.
  intros W. unfold matchPhrases. simpl.
  unfold wordBoundary. simpl isWordOpt. rewrite (space_not_word w W). simpl.
  apply matchPhrasesFuel_prev. simpl. apply space_not_word. exact W.
Qed.

(** *** One white-space character behind *)

Lemma dropWhile_blank (s t : str) :
  visible s = false -> dropWhile isSpace (s ++ t) = dropWhile isSpace t.
Proof.
  induction s as [|c s IH]; simpl; [reflexivity|].
  destruct (isSpace c); simpl; [exact IH | discriminate].
Qed.

Lemma dropWhile_visible_app (s t : str) :
  visible s = true -> dropWhile isSpace (s ++ t) = dropWhile isSpace s ++ t.
Proof.
  induction s as [|c s IH]; simpl; [discriminate|].
  destruct (isSpace c); simpl; [exact IH | reflexivity].
Qed.

Lemma takeWhile_blank (s t : str) :
  visible s = false -> takeWhile isSpace (s ++ t) = s ++ takeWhile isSpace t.
Proof.
  induction s as [|c s IH]; simpl; [reflexivity|].
  destruct (isSpace c); simpl; [|discriminate].
  intros V. rewrite (IH V). reflexivity.
Qed.

Lemma takeWhile_visible_app (s t : str) :
  visible s = true -> takeWhile isSpace (s ++ t) = takeWhile isSpace s.
Proof.
  induction s as [|c s IH]; simpl; [discriminate|].
  destruct (isSpace c); simpl; [|reflexivity].
  intros V. rewrite (IH V). reflexivity.
Qed.

Lemma trim_snoc_space (s : str) (w : ascii) :
  isSpace w = true -> trim (s ++ [w]) = trim s.
Proof.
  intros W. unfold trim, trimStart. destruct (visible s) eqn:V.
  - rewrite (dropWhile_visible_app s [w] V). unfold trimEnd.
    rewrite rev_app_distr. simpl. rewrite W. reflexivity.
  - assert (D : dropWhile isSpace s = []).
    { pose proof (dropWhile_blank s [] V) as D. rewrite app_nil_r in D. exact D. }
    rewrite (dropWhile_blank s [w] V), D. simpl. rewrite W. reflexivity.
Qed.

Lemma replaceRunsFrom_snoc_space (w : ascii) (s : str) :
  isSpace w = true ->
  forall b,
    replaceRunsFrom isNewline (lit " ") b (s ++ [w])
    = replaceRunsFrom isNewline (lit " ") b s \/
    exists w', isSpace w' = true /\
               replaceRunsFrom isNewline (lit " ") b (s ++ [w])
               = replaceRunsFrom isNewline (lit " ") b s ++ [w'].
Proof.
  intros W. change (lit " ") with [" "%char].
  induction s as [|c s IH]; intros b.
  - cbn [app replaceRunsFrom]. destruct (isNewline w).
    + destruct b; [left; reflexivity|].
      right. exists " "%char. split; reflexivity.
    + right. exists w. split; [exact W | reflexivity].
  - change ((c :: s) ++ [w]) with (c :: s ++ [w]). cbn [replaceRunsFrom].
    destruct (isNewline c).
    + destruct (IH true) as [-> | (w' & W' & ->)]; [left; reflexivity|].
      right. exists w'. split; [exact W'|]. rewrite app_assoc. reflexivity.
    + destruct (IH false) as [-> | (w' & W' & ->)]; [left; reflexivity|].
      right. exists w'. split; [exact W' | reflexivity].
Qed.

(** A character that is no separator, behind the text, goes to the end of
    the last piece. *)
Lemma split_snoc_other (p : ascii -> bool) (c : ascii) (t : str) :
  p c = false ->
  exists init last,
    split p t = init ++ [last] /\ split p (t ++ [c]) = init ++ [last ++ [c]].
Proof.
  intros C. induction t as [|x t (init & last & E & E')].
  - exists [], []. simpl. rewrite C. split; reflexivity.
  - change ((x :: t) ++ [c]) with (x :: t ++ [c]).
    rewrite !split_cons.
    assert (H : match t ++ [c] with c' :: _ => p c' | [] => false end
                = match t with c' :: _ => p c' | [] => false end)
      by (destruct t; simpl; [exact C | reflexivity]).
    rewrite H, E, E'. destruct (p x).
    + destruct (match t with c' :: _ => p c' | [] => false end).
      * exists init, last. split; reflexivity.
      * exists ([] :: init), last. split; reflexivity.
    + destruct init as [|i init].
      * exists [], (x :: last). split; reflexivity.
      * exists ((x :: i) :: init), last. split; reflexivity.
Qed.

(** A separator behind the text adds nothing, or one empty piece. *)
Lemma split_snoc_separator (p : ascii -> bool) (c : ascii) (t : str) :
  p c = true ->
  split p (t ++ [c]) = split p t \/ split p (t ++ [c]) = split p t ++ [[]].
Proof.
  intros C. induction t as [|x t IH].
  - right. simpl. rewrite C. reflexivity.
  - change ((x :: t) ++ [c]) with (x :: t ++ [c]).
    rewrite !split_cons. destruct (p x).
    + destruct t as [|c' t].
      * left. cbn [app split]. rewrite C. reflexivity.
      * change ((c' :: t) ++ [c]) with (c' :: t ++ [c]) in *.
        destruct (p c').
        -- exact IH.
        -- destruct IH as [-> | ->]; [left | right]; reflexivity.
    + destruct (split p t) as [|piece rest] eqn:E;
        [exfalso; exact (split_nonempty _ _ E)|].
      destruct IH as [-> | ->]; [left | right]; reflexivity.
Qed.

Lemma sentencePieces_snoc_space (w : ascii) (s : str) :
  isSpace w = true -> sentencePieces (s ++ [w]) = sentencePieces s.
Proof.
  intros W. unfold sentencePieces, replaceRuns.
  destruct (replaceRunsFrom_snoc_space w s W false) as [-> | (w' & W' & ->)];
    [reflexivity|].
  assert (T : isTerminator w' = false).
  { destruct (isTerminator w') eqn:E; [|reflexivity].
    apply terminator_not_space in E. congruence. }
  destruct (split_snoc_other isTerminator w'
              (replaceRunsFrom isNewline (lit " ") false s) T)
    as (init & last & -> & ->).
  rewrite !map_app. simpl. rewrite (trim_snoc_space last w' W'). reflexivity.
Qed.

Lemma keywordWords_snoc_space (w : ascii) (s : str) :
  isSpace w = true -> keywordWords (s ++ [w]) = keywordWords s.
Proof.
  intros W. rewrite !keywordWords_map, map_app. simpl map.
  destruct (split_snoc_separator isSpace (keywordChar w) (map keywordChar s)
              (keywordChar_space w W)) as [-> | ->]; [reflexivity|].
  rewrite filter_app. simpl. apply app_nil_r.
Qed.

Lemma takeWhile_snoc_other (p : ascii -> bool) (s : str) (w : ascii) :
  p w = false -> takeWhile p (s ++ [w]) = takeWhile p s.
Proof.
  intros W. induction s as [|c s IH]; simpl; [rewrite W; reflexivity|].
  destruct (p c); [rewrite IH|]; reflexivity.
Qed.

Lemma dropWhile_snoc_other (p : ascii -> bool) (s : str) (w : ascii) :
  p w = false -> dropWhile p (s ++ [w]) = dropWhile p s ++ [w].
Proof.
  intros W. induction s as [|c s IH]; simpl; [rewrite W; reflexivity|].
  destruct (p c); [exact IH | reflexivity].
Qed.

Lemma space_not_letter (w : ascii) :
  isSpace w = true -> isUpper w = false /\ isLower w = false.
Proof. each_char w. Qed.

Lemma capitalWord_snoc_space (w : ascii) (s : str) :
  isSpace w = true ->
  capitalWord (s ++ [w]) =
  match capitalWord s with
  | Some (word, r) => Some (word, r ++ [w])
  | None => None
  end.
Proof.
  intros W. destruct (space_not_letter w W) as [U L].
  destruct s as [|c s]; simpl; [rewrite U; reflexivity|].
  destruct (isUpper c); [|reflexivity].
  rewrite (takeWhile_snoc_other isLower s w L),
          (dropWhile_snoc_other isLower s w L).
  destruct (takeWhile isLower s); reflexivity.
Qed.

Lemma phraseFuel_nil (fuel : nat) : phraseFuel fuel [] = None.
Proof. destruct fuel; reflexivity. Qed.

Lemma blank_head (r : str) :
  visible r = false -> isWordOpt (hd_error r) = false.
Proof.
  destruct r as [|c r]; simpl; [reflexivity|].
  destruct (isSpace c) eqn:E; simpl; [|discriminate].
  intros _. apply space_not_word. exact E.
Qed.

Lemma phraseFuel_snoc_space (w : ascii) :
  isSpace w = true ->
  forall fuel s,
    phraseFuel fuel (s ++ [w]) =
    match phraseFuel fuel s with
    | Some (m, rest) => Some (m, rest ++ [w])
    | None => None
    end.
Proof.
  intros W. induction fuel as [|fuel IH]; intros s; [reflexivity|].
  cbn [phraseFuel]. rewrite (capitalWord_snoc_space w s W).
  destruct (capitalWord s) as [[word r]|]; [|reflexivity].
  destruct (visible r) eqn:V.
  - rewrite (takeWhile_visible_app r [w] V), (dropWhile_visible_app r [w] V).
    assert (H : hd_error (r ++ [w]) = hd_error r)
      by (destruct r; [discriminate V | reflexivity]).
    rewrite H.
    destruct (takeWhile isSpace r) as [|x ws].
    + destruct (wordBoundary (lastChar word) (hd_error r)); reflexivity.
    + rewrite IH.
      destruct (phraseFuel fuel (dropWhile isSpace r)) as [[m rest]|];
        [reflexivity|].
      destruct (wordBoundary (lastChar word) (hd_error r)); reflexivity.
  - assert (D : dropWhile isSpace r = []).
    { pose proof (dropWhile_blank r [] V) as D. rewrite app_nil_r in D. exact D. }
    assert (T : takeWhile isSpace (r ++ [w]) = r ++ [w]).
    { rewrite (takeWhile_blank r [w] V). simpl. rewrite W. reflexivity. }
    assert (D' : dropWhile isSpace (r ++ [w]) = []).
    { rewrite (dropWhile_blank r [w] V). simpl. rewrite W. reflexivity. }
    assert (B : wordBoundary (lastChar word) (hd_error (r ++ [w]))
                = wordBoundary (lastChar word) (hd_error r)).
    { unfold wordBoundary. rewrite (blank_head r V).
      assert (V' : visible (r ++ [w]) = false).
      { rewrite visible_app, V. simpl. rewrite W. reflexivity. }
      rewrite (blank_head _ V'). reflexivity. }
    rewrite T, D', D, B, !phraseFuel_nil.
    assert (C : match r ++ [w] with
                | [] => @None (str * str)
                | _ :: _ => None
                end = None) by (destruct (r ++ [w]); reflexivity).
    assert (C' : match takeWhile isSpace r with
                 | [] => @None (str * str)
                 | _ :: _ => None
                 end = None) by (destruct (takeWhile isSpace r); reflexivity).
    rewrite C, C'.
    destruct (wordBoundary (lastChar word) (hd_error r)); reflexivity.
Qed.

Lemma phrase_snoc_space (w : ascii) (s : str) :
  isSpace w = true ->
  phrase (s ++ [w]) =
  match phrase s with
  | Some (m, rest) => Some (m, rest ++ [w])
  | None => None
  end.
Proof.
  intros W. unfold phrase. rewrite (phraseFuel_snoc_space w W).
  rewrite (phraseFuel_enough (length (s ++ [w])) (length s) s);
    [reflexivity | rewrite length_app; simpl; lia | lia].
Qed.

Lemma matchPhrasesFuel_snoc_space (w : ascii) :
  isSpace w = true ->
  forall fuel prev s,
    length s < fuel ->
    matchPhrasesFuel fuel prev (s ++ [w]) = matchPhrasesFuel fuel prev s.
Proof.
  intros W. induction fuel as [|fuel IH]; intros prev s L; [lia|].
  destruct s as [|c s].
  - cbn [app matchPhrasesFuel].
    assert (P : phrase [w] = None).
    { unfold phrase. simpl. destruct (space_not_letter w W) as [U _].
      rewrite U. reflexivity. }
    rewrite P. destruct (wordBoundary prev (Some w)); destruct fuel; reflexivity.
  - change ((c :: s) ++ [w]) with (c :: s ++ [w]). cbn [matchPhrasesFuel].
    change (c :: s ++ [w]) with ((c :: s) ++ [w]).
    rewrite (phrase_snoc_space w (c :: s) W). simpl in L.
    destruct (wordBoundary prev (Some c)).
    + destruct (phrase (c :: s)) as [[m rest]|] eqn:E.
      * f_equal. apply IH. apply phraseFuel_shorter in E. simpl in E. lia.
      * apply IH. lia.
    + apply IH. lia.
Qed.

Lemma matchPhrases_snoc_space (w : ascii) (s : str) :
  isSpace w = true -> matchPhrases (s ++ [w]) = matchPhrases s.
Proof.
  intros W. unfold matchPhrases.
  rewrite (matchPhrasesFuel_snoc_space w W) by (rewrite length_app; simpl; lia).
  apply matchPhrasesFuel_enough; [rewrite length_app; simpl; lia | lia].
Qed.

(** *** White space on both sides *)

Lemma generateFromText_text (a b : str) :
  sentencePieces a = sentencePieces b ->
  keywordWords a = keywordWords b ->
  matchPhrases a = matchPhrases b ->
  generateFromText a = generateFromText b.
Proof.
  intros S K M. unfold generateFromText, extractSentences, extractKeywords,
    identifyTopics. rewrite S, K, M. reflexivity.
Qed.

Lemma generateFromText_padded (front back text : str) :
  visible front = false -> visible back = false ->
  generateFromText (front ++ text ++ back) = generateFromText text.
Proof.
  intros F B. induction front as [|w front IH].
  - simpl. clear F. induction back as [|w back IH] using rev_ind.
    + rewrite app_nil_r. reflexivity.
    + rewrite visible_app in B. apply orb_false_iff in B. destruct B as [B W].
      simpl in W. rewrite orb_false_r in W. apply negb_false_iff in W.
      rewrite <- (IH B), app_assoc.
      apply generateFromText_text.
      * apply sentencePieces_snoc_space. exact W.
      * apply keywordWords_snoc_space. exact W.
      * apply matchPhrases_snoc_space. exact W.
  - simpl in F. apply orb_false_iff in F. destruct F as [W F].
    apply negb_false_iff in W. rewrite <- (IH F).
    change ((w :: front) ++ text ++ back) with (w :: front ++ text ++ back).
    apply generateFromText_text.
    + apply sentencePieces_cons_space. exact W.
    + apply keywordWords_cons_space. exact W.
    + apply matchPhrases_cons_space. exact W.
Qed.

Lemma takeWhile_blank_prefix (s : str) : visible (takeWhile isSpace s) = false.
Proof.
  induction s as [|c s IH]; simpl; [reflexivity|].
  destruct (isSpace c) eqn:E; simpl; [rewrite E; exact IH | reflexivity].
Qed.

(** X21. White space in front of the text and behind it does not change
    what [generateFAQs] returns: the result for a text is the result for the
    trimmed text, which is what the page sends and what the server measures,
    and for the text with any white space added on either side. *)
Theorem generateFAQs_outer_space (text : str) :
  generateFAQs (VString (trim text)) = generateFAQs (VString text) /\
  (forall front back,
     visible front = false -> visible back = false ->
     generateFAQs (VString (front ++ text ++ back)) = generateFAQs (VString text)).
Proof.
  split.
  - rewrite !generateFAQs_string_body. f_equal.
    pose proof (takeWhile_dropWhile isSpace text) as E.
    destruct (trimEnd_prefix (trimStart text)) as (back & Eb).
    fold (trimStart text) in E. fold (trim text) in Eb.
    assert (B : visible back = false).
    { assert (X : back = rev (takeWhile isSpace (rev (trimStart text)))).
      { apply (app_inv_head (trim text)). rewrite <- Eb.
        unfold trim, trimEnd.
        rewrite <- rev_app_distr, takeWhile_dropWhile, rev_involutive.
        reflexivity. }
      rewrite X, visible_rev. apply takeWhile_blank_prefix. }
    symmetry. rewrite <- E at 1. rewrite Eb.
    apply generateFromText_padded; [apply takeWhile_blank_prefix | exact B].
  - intros front back F B. rewrite !generateFAQs_string_body. f_equal.
    apply generateFromText_padded; assumption.
Qed.

Lemma generateFAQs_outer_space_witness :
  let text := lit "Widgets help you save time and improve efficiency." in
  let front := ["010"%char; " "%char] in
  let back := [" "%char; "009"%char] in
  visible front = false /\ visible back = false /\
  generateFAQs (VString (front ++ text ++ back)) = generateFAQs (VString text).
Proof.
  intros text front back.
  split; [reflexivity|]. split; [reflexivity|].
  apply (proj2 (generateFAQs_outer_space text) front back); reflexivity.
Defined.

(** *** The word count of a document *)

Lemma lastSeparator_cons (p : ascii -> bool) (x c : ascii) (t : str) :
  lastSeparator p (x :: c :: t) = lastSeparator p (c :: t).
Proof.
  unfold lastSeparator, lastChar. simpl.
  destruct (rev t) as [|y r]; reflexivity.
Qed.

(** A separator behind a text adds an empty piece, unless the text ends in
    a separator already. *)
Lemma split_snoc_separator_exact (p : ascii -> bool) (c : ascii) (t : str) :
  p c = true ->
  split p (t ++ [c]) =
  if lastSeparator p t then split p t else split p t ++ [[]].
Proof.
  intros C. induction t as [|x t IH].
  - simpl. rewrite C. reflexivity.
  - change ((x :: t) ++ [c]) with (x :: t ++ [c]).
    rewrite !split_cons. destruct t as [|c' t].
    + cbn [app split]. rewrite C. unfold lastSeparator, lastChar. simpl.
      destruct (p x); reflexivity.
    + rewrite lastSeparator_cons.
      change ((c' :: t) ++ [c]) with (c' :: t ++ [c]) in *.
      rewrite IH. destruct (lastSeparator p (c' :: t)); [reflexivity|].
      destruct (p x).
      * destruct (p c'); reflexivity.
      * destruct (split p (c' :: t)) as [|piece rest] eqn:E;
          [exfalso; exact (split_nonempty _ _ E) | reflexivity].
Qed.

Lemma lastSeparator_snoc (p : ascii -> bool) (t : str) (c : ascii) :
  lastSeparator p (t ++ [c]) = p c.
Proof. unfold lastSeparator. rewrite lastChar_snoc. reflexivity. Qed.

(** White space behind a text adds one piece, unless the text ends in
    white space already. *)
Lemma split_back (t back : str) :
  visible back = false -> back <> [] ->
  split isSpace (t ++ back) =
  if lastSeparator isSpace t then split isSpace t else split isSpace t ++ [[]].
Proof.
  induction back as [|w back IH] using rev_ind; [contradiction|].
  intros V _. rewrite visible_app in V. apply orb_false_iff in V.
  destruct V as [V W]. simpl in W. rewrite orb_false_r in W.
  apply negb_false_iff in W.
  rewrite app_assoc, (split_snoc_separator_exact isSpace w _ W).
  destruct back as [|b back].
  - rewrite app_nil_r. reflexivity.
  - assert (L : lastSeparator isSpace (t ++ b :: back) = true).
    { destruct (exists_last (l := b :: back)) as (y & c & E); [discriminate|].
      rewrite E, app_assoc, lastSeparator_snoc.
      rewrite E, visible_app in V. apply orb_false_iff in V.
      destruct V as [_ V]. simpl in V. rewrite orb_false_r in V.
      apply negb_false_iff in V. exact V. }
    rewrite L. apply IH; [exact V | discriminate].
Qed.

(** White space in front of a text adds one piece, unless the text starts
    with white space already. *)
Lemma split_front (front t : str) :
  visible front = false -> front <> [] ->
  split isSpace (front ++ t) =
  if firstSeparator isSpace t then split isSpace t else [] :: split isSpace t.
Proof.
  induction front as [|w front IH]; [contradiction|].
  intros V _. simpl in V. apply orb_false_iff in V. destruct V as [W V].
  apply negb_false_iff in W.
  change ((w :: front) ++ t) with (w :: front ++ t).
  rewrite split_cons, W. destruct front as [|b front].
  - reflexivity.
  - assert (B : isSpace b = true).
    { simpl in V. apply orb_false_iff in V. destruct V as [B _].
      apply negb_false_iff in B. exact B. }
    cbn [app]. rewrite B. apply IH; [exact V | discriminate].
Qed.

(** The pieces of a text that ends in a character which is no separator:
    only the first one can be empty, when the text starts with a
    separator. *)
Lemma split_words (p : ascii -> bool) (t : str) :
  t <> [] -> lastSeparator p t = false ->
  exists piece rest,
    split p t = piece :: rest /\
    Forall (fun x => x <> []) rest /\
    (firstSeparator p t = false -> piece <> []).
Proof.
  induction t as [|x t IH]; [contradiction|]. intros _ L.
  destruct t as [|c t].
  - unfold lastSeparator, lastChar in L. simpl in L.
    exists [x], []. simpl. rewrite L.
    split; [reflexivity|]. split; [constructor | discriminate].
  - rewrite lastSeparator_cons in L.
    destruct IH as (piece & rest & E & F & H); [discriminate | exact L|].
    rewrite split_cons, E. simpl firstSeparator in *. destruct (p x).
    + destruct (p c).
      * exists piece, rest. split; [reflexivity|]. split; [exact F | discriminate].
      * exists [], (piece :: rest). split; [reflexivity|].
        split; [constructor; [apply H; reflexivity | exact F] | discriminate].
    + exists (x :: piece), rest. split; [reflexivity|].
      split; [exact F | discriminate].
Qed.

(** X22. For a text that neither starts nor ends with white space, every
    piece that the word count of a document counts is a word.  White space
    in front of the text adds one to the count, and so does white space
    behind it, however long it is. *)
Theorem countWordsOf_outer_space (text : str) :
  text <> [] ->
  firstSeparator isSpace text = false ->
  lastSeparator isSpace text = false ->
  Forall (fun piece => piece <> []) (split isSpace text) /\
  (forall front back,
     visible front = false -> visible back = false ->
     countWordsOf (front ++ text ++ back) =
     countWordsOf text
     + (match front with [] => 0 | _ => 1 end)
     + (match back with [] => 0 | _ => 1 end)).
Proof.
  intros N F L. split.
  - destruct (split_words isSpace text N L) as (piece & rest & -> & R & H).
    constructor; [apply H; exact F | exact R].
  - intros front back Vf Vb. unfold countWordsOf.
    assert (B : length (split isSpace (text ++ back)) =
                length (split isSpace text)
                + match back with [] => 0 | _ => 1 end).
    { destruct back as [|b back]; [rewrite app_nil_r; lia|].
      rewrite (split_back text (b :: back) Vb) by discriminate.
      rewrite L, length_app. reflexivity. }
    destruct front as [|w front]; [simpl app; lia|].
    rewrite (split_front (w :: front) (text ++ back) Vf) by discriminate.
    assert (Fb : firstSeparator isSpace (text ++ back) = false)
      by (destruct text; [contradiction | exact F]).
    rewrite Fb. simpl length. lia.
Qed.

Lemma countWordsOf_outer_space_witness :
  let text := lit "hello big world" in
  let front := [" "%char; " "%char] in
  let back := ["010"%char] in
  countWordsOf text = 3 /\ countWordsOf (front ++ text ++ back) = 5.
Proof.
  intros text front back. split; [reflexivity|].
  assert (N : text <> []) by discriminate.
  rewrite (proj2 (countWordsOf_outer_space text N eq_refl eq_refl) front back
             eq_refl eq_refl).
  reflexivity.
Defined.

Lemma deleteDocument_then_getDocument_witness :
  let text := lit "Widgets help you save time and improve efficiency every day." in
  let st := fst (postGenerate (lit "id-1") 0 (VString text) VUndefined
                   {| documents := []; files := [] |}) in
  mapGet (documents st) (lit "id-1") <> None /\
  status (snd (deleteDocument (lit "id-1") st)) = 200 /\
  status (getDocument (lit "id-1") (fst (deleteDocument (lit "id-1") st))) = 404 /\
  mapGet (documents st) (lit "id-2") = None /\
  deleteDocument (lit "id-2") st = (st, failWith 404 "Document not found").
Proof.
  intros text st.
  assert (K : mapGet (documents st) (lit "id-1") <> None)
    by (vm_compute; discriminate).
  assert (U : mapGet (documents st) (lit "id-2") = None) by reflexivity.
  destruct (deleteDocument_then_getDocument (lit "id-1") st) as (G & _ & _ & S).
  destruct (deleteDocument_then_getDocument (lit "id-2") st) as (_ & _ & D & _).
  split; [exact K|]. split; [exact (S K)|].
  split; [rewrite G; reflexivity|]. split; [exact U | exact (D U)].
Defined.

Lemma regenerate_idempotent_witness :
  let text := lit "Widgets help you save time and improve efficiency every day." in
  let st := fst (postGenerate (lit "id-1") 0 (VString text) VUndefined
                   {| documents := []; files := [] |}) in
  lit "id-2" <> lit "id-1" /\
  regenerate (lit "id-1") (fst (regenerate (lit "id-1") st))
  = regenerate (lit "id-1") st /\
  mapGet (documents (fst (regenerate (lit "id-1") st))) (lit "id-2")
  = mapGet (documents st) (lit "id-2").
Proof.
  intros text st.
  assert (N : lit "id-2" <> lit "id-1") by discriminate.
  destruct (regenerate_idempotent (lit "id-1") st) as (I & _ & O).
  split; [exact N|]. split; [exact I | exact (O _ N)].
Defined.

(** *** The cleaner writes the words of a text with single spaces *)

Lemma join_cons (sep x : str) (l : list str) :
  join sep (x :: l) = x ++ match l with [] => [] | _ => sep ++ join sep l end.
Proof. destruct l; [rewrite app_nil_r|]; reflexivity. Qed.

Lemma join_spaceThenWords (x : str) (l : list str) :
  join (lit " ") (x :: l) = x ++ spaceThenWords l.
Proof. rewrite join_cons. destruct l; reflexivity. Qed.

Lemma dropWhile_all_blank (s : str) :
  visible s = false -> dropWhile isSpace s = [].
Proof.
  intros V. pose proof (dropWhile_blank s [] V) as D.
  rewrite app_nil_r in D. exact D.
Qed.

Lemma trimEnd_cons (a : ascii) (y : str) :
  isSpace a = false \/ visible y = true -> trimEnd (a :: y) = a :: trimEnd y.
Proof.
  intros H. unfold trimEnd. cbn [rev].
  destruct (visible y) eqn:V.
  - rewrite dropWhile_visible_app by (rewrite visible_rev; exact V).
    rewrite rev_app_distr. reflexivity.
  - destruct H as [H | H]; [|discriminate].
    rewrite dropWhile_blank by (rewrite visible_rev; exact V).
    rewrite (dropWhile_all_blank (rev y)) by (rewrite visible_rev; exact V).
    simpl. rewrite H. reflexivity.
Qed.

Lemma wordsOf_cons_space (c : ascii) (x : str) :
  isSpace c = true -> wordsOf (c :: x) = wordsOf x.
Proof.
  intros Sp. unfold wordsOf. rewrite split_cons, Sp.
  destruct (match x with c' :: _ => isSpace c' | [] => false end); reflexivity.
Qed.

(** What the collapsing leaves of a text, trimmed at its end: the first
    piece of the text and then its other words, a space in front of each. *)
Lemma trimEnd_replaceRuns (x : str) :
  forall piece rest,
    split isSpace x = piece :: rest ->
    trimEnd (replaceRunsFrom isSpace [" "%char] false x)
    = piece ++ spaceThenWords (filter (fun p => negb (length p =? 0)) rest).
Proof.
  induction x as [|c x IH]; intros piece rest E.
  - inversion E. reflexivity.
  - rewrite split_cons in E. cbn [replaceRunsFrom].
    destruct (isSpace c) eqn:Sp.
    + destruct x as [|c' x].
      * inversion E. reflexivity.
      * destruct (isSpace c') eqn:Sp'.
        -- rewrite <- (IH piece rest E). cbn [replaceRunsFrom]. rewrite Sp'.
           reflexivity.
        -- destruct (split isSpace (c' :: x)) as [|p' r'] eqn:S';
             [exfalso; revert S'; apply split_nonempty|].
           inversion E as [[P R]]. clear E.
           cbn [replaceRunsFrom app]. rewrite Sp'.
           rewrite trimEnd_cons by (right; simpl; rewrite Sp'; reflexivity).
           assert (N : exists p'', p' = c' :: p'').
           { rewrite split_cons, Sp' in S'.
             destruct (split isSpace x); inversion S'; eexists; reflexivity. }
           destruct N as (p'' & ->).
           pose proof (IH _ _ eq_refl) as H.
           cbn [replaceRunsFrom] in H. rewrite Sp' in H. rewrite H.
           cbn [filter length Nat.eqb negb spaceThenWords].
           rewrite join_spaceThenWords. reflexivity.
    + destruct (split isSpace x) as [|p' r'] eqn:S';
        [exfalso; revert S'; apply split_nonempty|].
      inversion E. subst.
      rewrite trimEnd_cons by (left; exact Sp).
      rewrite (IH _ _ eq_refl). reflexivity.
Qed.

Lemma trim_replaceRuns_flag (x : str) :
  trim (replaceRunsFrom isSpace [" "%char] true x)
  = trim (replaceRunsFrom isSpace [" "%char] false x).
Proof.
  destruct x as [|c x]; [reflexivity|]. cbn [replaceRunsFrom].
  destruct (isSpace c); [|reflexivity].
  cbn [app]. rewrite trim_cons_space by reflexivity. reflexivity.
Qed.

(** Collapsing the white space of a text and trimming it gives the words of
    the text with one space between them. *)
Lemma collapsed_words (x : str) : collapsed x = join (lit " ") (wordsOf x).
Proof.
  unfold collapsed, replaceRuns. change (lit " ") with [" "%char].
  induction x as [|c x IH]; [reflexivity|].
  destruct (isSpace c) eqn:Sp.
  - rewrite (wordsOf_cons_space c x Sp), <- IH.
    cbn [replaceRunsFrom]. rewrite Sp. cbn [app].
    rewrite trim_cons_space by reflexivity. apply trim_replaceRuns_flag.
  - destruct (split isSpace (c :: x)) as [|piece rest] eqn:E;
      [exfalso; revert E; apply split_nonempty|].
    assert (N : exists p', piece = c :: p').
    { rewrite split_cons, Sp in E.
      destruct (split isSpace x); inversion E; eexists; reflexivity. }
    destruct N as (p' & ->).
    unfold wordsOf. rewrite E. cbn [filter length Nat.eqb negb].
    change [" "%char] with (lit " ") at 2. rewrite join_spaceThenWords.
    rewrite <- (trimEnd_replaceRuns (c :: x) _ _ E).
    unfold trim, trimStart. cbn [replaceRunsFrom]. rewrite Sp.
    cbn [dropWhile]. rewrite Sp. reflexivity.
Qed.

(** What [cleanAnswer] returns, for every text. *)
Lemma cleanAnswer_words (x : str) :
  cleanAnswer x =
  match join (lit " ") (wordsOf x) with
  | [] => []
  | c :: rest =>
      if endsWithTerminator (toUpperChar c :: rest)
      then toUpperChar c :: rest
      else toUpperChar c :: rest ++ lit "."
  end.
Proof.
  rewrite <- collapsed_words.
  destruct (visible x) eqn:V.
  - destruct (cleanAnswer_visible x V) as (c & rest & E & A).
    cbv zeta in A. rewrite E. exact A.
  - rewrite (cleanAnswer_invisible x V).
    destruct (collapsed x) as [|c rest] eqn:E; [reflexivity|].
    assert (T : visible (collapsed x) = true).
    { unfold collapsed in *. apply trim_visible. rewrite E. discriminate. }
    rewrite visible_collapsed in T. congruence.
Qed.

(** A text that ends in a word gets its full stop from the cleaner. *)
Lemma cleanAnswer_sentence (x : str) :
  endsInWord x ->
  exists c rest,
    join (lit " ") (wordsOf x) = c :: rest /\
    isSpace c = false /\
    cleanAnswer x = toUpperChar c :: rest ++ lit ".".
Proof.
  intros (y & c & -> & Sp & Te).
  assert (V : visible (y ++ [c]) = true).
  { rewrite visible_app. simpl. rewrite Sp. simpl. apply orb_true_r. }
  destruct (cleanAnswer_visible _ V) as (c0 & rest & E & A). cbv zeta in A.
  assert (C : exists z, collapsed (y ++ [c]) = z ++ [c]).
  { unfold collapsed, replaceRuns. rewrite replaceRunsFrom_snoc by exact Sp.
    apply trim_snoc. exact Sp. }
  destruct C as (z & C).
  assert (T : endsWithTerminator (toUpperChar c0 :: rest) = false).
  { rewrite C in E. destruct z as [|a z]; simpl in E; inversion E; subst.
    - unfold endsWithTerminator. simpl.
      rewrite toUpperChar_terminator. exact Te.
    - unfold endsWithTerminator.
      change (toUpperChar c0 :: z ++ [c]) with ((toUpperChar c0 :: z) ++ [c]).
      rewrite lastChar_snoc. exact Te. }
  rewrite T in A. exists c0, rest.
  split; [rewrite <- collapsed_words; exact E|].
  split; [unfold collapsed in E; apply (trimmed_first _ _ _ E) | exact A].
Qed.

Lemma wordsOf_first (c : ascii) (x : str) :
  isSpace c = false -> exists rest, join (lit " ") (wordsOf (c :: x)) = c :: rest.
Proof.
  intros Sp. unfold wordsOf. rewrite split_cons, Sp.
  destruct (split isSpace x) as [|piece pieces];
    cbn [filter length Nat.eqb negb]; rewrite join_cons; eexists; reflexivity.
Qed.

Lemma toUpperChar_letter (c : ascii) :
  isLower c = true -> isUpper (toUpperChar c) = true /\ toLowerChar (toUpperChar c) = c.
Proof. each_char c. Qed.

Lemma toUpperChar_other (c : ascii) : isLower c = false -> toUpperChar c = c.
Proof. each_char c. Qed.

(** C2, as the code has it.  Every answer that [generateFAQs] returns is
    made from one extracted sentence, or from a few of them joined by a full
    stop and a space: the words of that text are written with one space
    between them, which is the text with its white-space runs collapsed and
    its ends trimmed; the first character, which is the first character of
    the first sentence, is upper-cased; and one full stop is added.  The
    cleaner does this for every text, adding the full stop unless the text
    already ends in a full stop, an exclamation mark or a question mark, and
    it returns the empty string, with no full stop, for a text without a
    visible character, the empty text among them.  Upper-casing turns a letter
    a to z into A to Z and leaves every other character as it is, so an answer
    never starts with a lower-case letter, and starts with the digit or the
    symbol that its sentence starts with. *)
Theorem generateFAQs_answer_clean (text : str) :
  (exists faqs,
     generateFAQs (VString text) = Normal faqs /\
     Forall (fun faq =>
               exists s more c rest,
                 incl (s :: more) (extractSentences text) /\
                 hd_error s = Some c /\
                 isSpace c = false /\
                 join (lit " ") (wordsOf (join (lit ". ") (s :: more))) = c :: rest /\
                 answer faq = toUpperChar c :: rest ++ lit ".") faqs) /\
  (forall x,
     cleanAnswer x =
     match join (lit " ") (wordsOf x) with
     | [] => []
     | c :: rest =>
         if endsWithTerminator (toUpperChar c :: rest)
         then toUpperChar c :: rest
         else toUpperChar c :: rest ++ lit "."
     end) /\
  (forall x, visible x = false -> cleanAnswer x = []) /\
  (forall c,
     isLower (toUpperChar c) = false /\
     (isLower c = true ->
      isUpper (toUpperChar c) = true /\ toLowerChar (toUpperChar c) = c) /\
     (isLower c = false -> toUpperChar c = c)).
Proof.
  split; [|split; [apply cleanAnswer_words|split; [apply cleanAnswer_invisible|]]].
  - rewrite generateFAQs_string.
    eexists. split; [reflexivity|].
    destruct (length (trim text) =? 0); [constructor|].
    eapply Forall_impl; [|apply generateFromText_derived].
    intros faq [(l & N & I & E) _].
    destruct l as [|s more]; [contradiction|].
    assert (Hs : In s (extractSentences text)) by (apply I; left; reflexivity).
    destruct (extractSentences_spec text s Hs) as (T & L & _).
    destruct s as [|c0 r]; [simpl in L; lia|].
    pose proof (trimmed_first _ _ _ T) as Sp0.
    destruct (cleanAnswer_sentence (join (lit ". ") ((c0 :: r) :: more)))
      as (c & rest & J & Sp & A).
    { apply join_endsInWord; [discriminate|].
      apply Forall_forall. intros x Hx.
      apply (extractSentences_endsInWord text). apply I. exact Hx. }
    assert (C : c = c0).
    { rewrite join_cons in J. cbn [app] in J.
      destruct (wordsOf_first c0
                  (r ++ match more with
                        | [] => []
                        | _ :: _ => lit ". " ++ join (lit ". ") more
                        end) Sp0) as (rest' & W).
      rewrite W in J. inversion J. reflexivity. }
    subst c0. exists (c :: r), more, c, rest.
    split; [exact I|]. split; [reflexivity|]. split; [exact Sp|].
    split; [exact J|]. rewrite E. exact A.
  - intros c. split; [apply toUpperChar_not_lower|].
    split; [apply toUpperChar_letter | apply toUpperChar_other].
Qed.

Lemma generateFAQs_answer_clean_witness :
  let text := lit "widgets are needed for the process to work" in
  exists faqs faq c rest,
    generateFAQs (VString text) = Normal faqs /\
    In faq faqs /\
    c = "w"%char /\
    isLower c = true /\
    isUpper (toUpperChar c) = true /\
    answer faq = toUpperChar c :: rest ++ lit "." /\
    answer faq = lit "Widgets are needed for the process to work.".
Proof.
  intros text.
  destruct (generateFAQs_answer_clean text) as ((faqs & E & F) & _ & _ & Ch).
  assert (H : exists faq others, faqs = faq :: others /\
                answer faq = lit "Widgets are needed for the process to work.").
  { vm_compute in E. inversion E. eexists. eexists. split; reflexivity. }
  destruct H as (faq & others & -> & Ans).
  inversion F as [|x y (s & more & c & rest & I & Hd & Sp & J & A) _]. subst.
  assert (Hs : In s (extractSentences text)) by (apply I; left; reflexivity).
  assert (S : s = text).
  { vm_compute in Hs. destruct Hs as [<- | []]. reflexivity. }
  subst s. simpl in Hd. inversion Hd. subst c.
  exists (faq :: others), faq, "w"%char, rest.
  split; [exact E|]. split; [left; reflexivity|]. split; [reflexivity|].
  split; [reflexivity|].
  split; [apply (proj1 (proj2 (Ch "w"%char))); reflexivity|].
  split; [exact A | exact Ans].
Defined.

(** *** One space for every newline *)

Lemma newlineToSpace_space (c : ascii) : isSpace (newlineToSpace c) = isSpace c.
Proof. each_char c. Qed.

Lemma newlineToSpace_upper (c : ascii) : isUpper (newlineToSpace c) = isUpper c.
Proof. each_char c. Qed.

Lemma newlineToSpace_lower (c : ascii) : isLower (newlineToSpace c) = isLower c.
Proof. each_char c. Qed.

Lemma newlineToSpace_word (c : ascii) : isWordChar (newlineToSpace c) = isWordChar c.
Proof. each_char c. Qed.

Lemma eachNewlineToSpace_map (text : str) :
  eachNewlineToSpace text = map newlineToSpace text.
Proof. reflexivity. Qed.

Lemma takeWhile_map (p : ascii -> bool) (f : ascii -> ascii) (s : str) :
  (forall c, p (f c) = p c) -> takeWhile p (map f s) = map f (takeWhile p s).
Proof.
  intros H. induction s as [|c s IH]; simpl; [reflexivity|].
  rewrite H. destruct (p c); simpl; [rewrite IH|]; reflexivity.
Qed.

Lemma dropWhile_map (p : ascii -> bool) (f : ascii -> ascii) (s : str) :
  (forall c, p (f c) = p c) -> dropWhile p (map f s) = map f (dropWhile p s).
Proof.
  intros H. induction s as [|c s IH]; simpl; [reflexivity|].
  rewrite H. destruct (p c); simpl; [rewrite IH|]; reflexivity.
Qed.

Lemma capitalWord_map (s : str) :
  capitalWord (map newlineToSpace s) =
  match capitalWord s with
  | Some (w, r) => Some (map newlineToSpace w, map newlineToSpace r)
  | None => None
  end.
Proof.
  destruct s as [|c s]; [reflexivity|]. cbn [map capitalWord].
  rewrite newlineToSpace_upper. destruct (isUpper c); [|reflexivity].
  rewrite (takeWhile_map isLower), (dropWhile_map isLower)
    by apply newlineToSpace_lower.
  destruct (takeWhile isLower s); reflexivity.
Qed.

Lemma lastChar_map (f : ascii -> ascii) (w : str) :
  lastChar (map f w) = option_map f (lastChar w).
Proof. unfold lastChar. rewrite <- map_rev. destruct (rev w); reflexivity. Qed.

Lemma hd_error_map (f : ascii -> ascii) (r : str) :
  hd_error (map f r) = option_map f (hd_error r).
Proof. destruct r; reflexivity. Qed.

Lemma isWordOpt_map (o : option ascii) :
  isWordOpt (option_map newlineToSpace o) = isWordOpt o.
Proof. destruct o; [apply newlineToSpace_word | reflexivity]. Qed.

Lemma wordBoundary_map (w r : str) :
  wordBoundary (lastChar (map newlineToSpace w)) (hd_error (map newlineToSpace r))
  = wordBoundary (lastChar w) (hd_error r).
Proof.
  unfold wordBoundary. rewrite lastChar_map, hd_error_map, !isWordOpt_map.
  reflexivity.
Qed.

Lemma phraseFuel_map (fuel : nat) :
  forall s,
    phraseFuel fuel (map newlineToSpace s) =
    match phraseFuel fuel s with
    | Some (m, rest) => Some (map newlineToSpace m, map newlineToSpace rest)
    | None => None
    end.
Proof.
  induction fuel as [|fuel IH]; intros s; [reflexivity|].
  cbn [phraseFuel]. rewrite capitalWord_map.
  destruct (capitalWord s) as [[w r]|]; [|reflexivity]. cbv zeta.
  rewrite (takeWhile_map isSpace), (dropWhile_map isSpace)
    by apply newlineToSpace_space.
  rewrite IH, wordBoundary_map.
  destruct (takeWhile isSpace r) as [|a ws]; cbn [map].
  - destruct (wordBoundary (lastChar w) (hd_error r)); reflexivity.
  - destruct (phraseFuel fuel (dropWhile isSpace r)) as [[m rest]|].
    + rewrite !map_app. reflexivity.
    + destruct (wordBoundary (lastChar w) (hd_error r)); reflexivity.
Qed.

Lemma matchPhrasesFuel_map (fuel : nat) :
  forall prev prev' s,
    isWordOpt prev' = isWordOpt prev ->
    matchPhrasesFuel fuel prev' (map newlineToSpace s)
    = map (map newlineToSpace) (matchPhrasesFuel fuel prev s).
Proof.
  induction fuel as [|fuel IH]; intros prev prev' s H; [reflexivity|].
  destruct s as [|c s]; [reflexivity|].
  cbn [matchPhrasesFuel map].
  assert (B : wordBoundary prev' (Some (newlineToSpace c))
              = wordBoundary prev (Some c)).
  { unfold wordBoundary. rewrite H. cbn [isWordOpt].
    rewrite newlineToSpace_word. reflexivity. }
  rewrite B.
  assert (P : phrase (newlineToSpace c :: map newlineToSpace s) =
              match phrase (c :: s) with
              | Some (m, rest) => Some (map newlineToSpace m, map newlineToSpace rest)
              | None => None
              end).
  { unfold phrase. change (newlineToSpace c :: map newlineToSpace s)
      with (map newlineToSpace (c :: s)).
    rewrite length_map. apply phraseFuel_map. }
  rewrite P.
  destruct (wordBoundary prev (Some c)).
  - destruct (phrase (c :: s)) as [[m rest]|].
    + cbn [map]. f_equal. apply IH.
      rewrite lastChar_map. apply isWordOpt_map.
    + apply IH. cbn [isWordOpt]. apply newlineToSpace_word.
  - apply IH. cbn [isWordOpt]. apply newlineToSpace_word.
Qed.

(** The capitalized phrases of the text with a space for every newline are
    those of the text, with a space for every newline in them: [\s] matches
    a newline as it matches a space. *)
Lemma matchPhrases_eachNewlineToSpace (text : str) :
  matchPhrases (eachNewlineToSpace text)
  = map eachNewlineToSpace (matchPhrases text).
Proof.
  unfold matchPhrases. rewrite eachNewlineToSpace_map, length_map.
  apply matchPhrasesFuel_map. reflexivity.
Qed.

Lemma eachNewlineToSpace_newlineFree (m : str) :
  newlineFree m -> eachNewlineToSpace m = m.
Proof.
  intros H. rewrite eachNewlineToSpace_map.
  induction H as [|c m Hc _ IH]; [reflexivity|].
  cbn [map]. rewrite IH. unfold newlineToSpace. rewrite Hc. reflexivity.
Qed.

Lemma matchPhrases_newlineFree (text : str) :
  Forall newlineFree (matchPhrases text) ->
  matchPhrases (eachNewlineToSpace text) = matchPhrases text.
Proof.
  intros H. rewrite matchPhrases_eachNewlineToSpace.
  induction H as [|m l Hm _ IH]; [reflexivity|].
  cbn [map]. rewrite IH, (eachNewlineToSpace_newlineFree m Hm). reflexivity.
Qed.

Lemma headSpace_sameButSpaces (s t : str) :
  sameButSpaces s t -> headSpace s = headSpace t.
Proof.
  intros [|a b s' t' [-> | [A B]] _]; [reflexivity | reflexivity|].
  simpl. rewrite A, B. reflexivity.
Qed.

Lemma split_sameButSpaces (s t : str) :
  sameButSpaces s t -> split isSpace s = split isSpace t.
Proof.
  induction 1 as [|a b s t Hab Hst IH]; [reflexivity|].
  rewrite !split_cons. fold (headSpace s). fold (headSpace t).
  rewrite (headSpace_sameButSpaces s t Hst), IH.
  destruct Hab as [-> | [A B]]; [reflexivity|].
  rewrite A, B. reflexivity.
Qed.

Lemma keywordChar_newlineToSpace (c : ascii) :
  keywordChar (newlineToSpace c) = keywordChar c \/
  (isSpace (keywordChar (newlineToSpace c)) = true /\
   isSpace (keywordChar c) = true).
Proof. each_char c. Qed.

Lemma extractKeywords_eachNewlineToSpace (text : str) :
  extractKeywords (eachNewlineToSpace text) = extractKeywords text.
Proof.
  unfold extractKeywords. rewrite !keywordWords_map.
  rewrite (split_sameButSpaces (map keywordChar (eachNewlineToSpace text))
                               (map keywordChar text)); [reflexivity|].
  rewrite eachNewlineToSpace_map.
  induction text as [|c text IH]; [constructor|].
  cbn [map]. constructor; [apply keywordChar_newlineToSpace | exact IH].
Qed.

(** Without two newlines next to each other, a space for every newline is a
    space for every run of newlines. *)
Lemma replaceRunsFrom_each (s : str) :
  forall b,
    hasNewlineRun s = false ->
    (b = true -> firstSeparator isNewline s = false) ->
    replaceRunsFrom isNewline [" "%char] b s = map newlineToSpace s.
Proof.
  induction s as [|c s IH]; intros b R F; [reflexivity|].
  cbn [hasNewlineRun] in R. apply orb_false_iff in R. destruct R as [R1 R2].
  cbn [replaceRunsFrom map]. unfold newlineToSpace at 1.
  destruct (isNewline c) eqn:N.
  - destruct b; [specialize (F eq_refl); simpl in F; congruence|].
    cbn [app]. f_equal. apply IH; [exact R2 | intros _; exact R1].
  - f_equal. apply IH; [exact R2 | discriminate].
Qed.

Lemma eachNewlineToSpace_newlinesToSpaces (text : str) :
  hasNewlineRun text = false -> eachNewlineToSpace text = newlinesToSpaces text.
Proof.
  intros R. unfold newlinesToSpaces, replaceRuns.
  change (lit " ") with [" "%char].
  rewrite (replaceRunsFrom_each text false R) by discriminate. reflexivity.
Qed.

Lemma visible_eachNewlineToSpace (text : str) :
  visible (eachNewlineToSpace text) = visible text.
Proof.
  rewrite eachNewlineToSpace_map.
  induction text as [|c text IH]; [reflexivity|].
  simpl. rewrite newlineToSpace_space, IH. reflexivity.
Qed.

Lemma generateFAQs_same_parts (a b : str) :
  visible a = visible b ->
  extractSentences a = extractSentences b ->
  extractKeywords a = extractKeywords b ->
  matchPhrases a = matchPhrases b ->
  generateFAQs (VString a) = generateFAQs (VString b).
Proof.
  intros V S K M. rewrite !generateFAQs_string, !trim_empty, V.
  destruct (negb (visible b)); [reflexivity|]. f_equal.
  unfold generateFromText. rewrite S, K.
  unfold identifyTopics. rewrite M. reflexivity.
Qed.

(** C7, as the code has it.  First with one space for every newline.  The
    keywords of the text do not change, and its capitalized phrases are the
    same phrases with a space for every newline in them.  When no two newlines
    stand next to each other the normalized text is what [extractSentences]
    makes of the text itself, and the sentences do not change either; when in
    addition no capitalized phrase of the text contains a newline,
    [generateFAQs] returns the same for the two texts.  Then with one space
    for every run of newlines, which is the replacement [extractSentences]
    does: neither the sentences nor the keywords change, and [generateFAQs]
    returns the same for the two texts when they have the same capitalized
    phrases. *)
Theorem generateFAQs_newlines (text : str) :
  (extractKeywords (eachNewlineToSpace text) = extractKeywords text /\
   matchPhrases (eachNewlineToSpace text)
   = map eachNewlineToSpace (matchPhrases text) /\
   (hasNewlineRun text = false ->
    eachNewlineToSpace text = newlinesToSpaces text /\
    extractSentences (eachNewlineToSpace text) = extractSentences text) /\
   (hasNewlineRun text = false ->
    Forall newlineFree (matchPhrases text) ->
    generateFAQs (VString (eachNewlineToSpace text)) = generateFAQs (VString text)))
  /\
  (extractSentences (newlinesToSpaces text) = extractSentences text /\
   extractKeywords (newlinesToSpaces text) = extractKeywords text /\
   (matchPhrases (newlinesToSpaces text) = matchPhrases text ->
    generateFAQs (VString (newlinesToSpaces text)) = generateFAQs (VString text))).
Proof.
  assert (S : hasNewlineRun text = false ->
              eachNewlineToSpace text = newlinesToSpaces text /\
              extractSentences (eachNewlineToSpace text) = extractSentences text).
  { intros R. pose proof (eachNewlineToSpace_newlinesToSpaces text R) as E.
    split; [exact E|]. rewrite E. apply extractSentences_newlines. }
  split; [split; [|split; [|split]]|split; [|split]].
  - apply extractKeywords_eachNewlineToSpace.
  - apply matchPhrases_eachNewlineToSpace.
  - exact S.
  - intros R M. apply generateFAQs_same_parts.
    + apply visible_eachNewlineToSpace.
    + apply (S R).
    + apply extractKeywords_eachNewlineToSpace.
    + apply matchPhrases_newlineFree. exact M.
  - apply extractSentences_newlines.
  - apply extractKeywords_newlines.
  - intros M. apply generateFAQs_same_parts.
    + unfold newlinesToSpaces, replaceRuns.
      apply visible_replaceRunsFrom_newline.
    + apply extractSentences_newlines.
    + apply extractKeywords_newlines.
    + exact M.
Qed.

Lemma generateFAQs_newlines_witness :
  let text := lit "Widgets help you save time." ++ ["010"%char]
              ++ lit "You can customize Widgets easily." in
  hasNewlineRun text = false /\
  Forall newlineFree (matchPhrases text) /\
  generateFAQs (VString (eachNewlineToSpace text)) = generateFAQs (VString text) /\
  matchPhrases (newlinesToSpaces text) = matchPhrases text /\
  generateFAQs (VString (newlinesToSpaces text)) = generateFAQs (VString text).
Proof.
  intros text.
  assert (R : hasNewlineRun text = false) by reflexivity.
  assert (F : Forall newlineFree (matchPhrases text)).
  { vm_compute. repeat constructor. }
  assert (M : matchPhrases (newlinesToSpaces text) = matchPhrases text)
    by (vm_compute; reflexivity).
  destruct (generateFAQs_newlines text) as ((_ & _ & _ & Each) & (_ & _ & Runs)).
  split; [exact R|]. split; [exact F|]. split; [exact (Each R F)|].
  split; [exact M | exact (Runs M)].
Defined.

(** The claim C7 as it is written fails, in two ways.  A newline between
    two capitalized words is part of the topic, and the topic is part of the
    questions: for the first text the two normalizations agree and the FAQs
    differ.  And two newlines become two spaces, which make a piece longer
    than 20 characters of one that [extractSentences] leaves out: the second
    text has no FAQ, and with a space for every newline it has two. *)
Lemma generateFAQs_newlines_differ :
  (let text := lit "Hello" ++ ["010"%char]
               ++ lit "World offers many great features today." in
   newlinesToSpaces text = lit "Hello World offers many great features today." /\
   eachNewlineToSpace text = newlinesToSpaces text /\
   generateFAQs (VString (eachNewlineToSpace text)) <> generateFAQs (VString text))
  /\
  (let text := lit "we need it" ++ ["010"%char; "010"%char] ++ lit "so much k" in
   eachNewlineToSpace text = lit "we need it  so much k" /\
   matchPhrases text = [] /\
   generateFAQs (VString text) = Normal [] /\
   generateFAQs (VString (eachNewlineToSpace text)) =
   Normal [{| question := lit "What is much?";
              answer := lit "We need it so much k." |};
           {| question := lit "What are the requirements for much?";
              answer := lit "We need it so much k." |}]).
Proof.
  split.
  - intros text. split; [reflexivity|]. split; [reflexivity|].
    intros H.
    apply (f_equal (fun r => match r with
                             | Normal l => map question l
                             | Throw _ => []
                             end)) in H.
    vm_compute in H. discriminate H.
  - vm_compute. repeat split.
Qed.

(** *** The keywords among the topics *)

Lemma identifyTopics_keywords_exact (keywords : list str) :
  forall topics,
  exists added,
    fold_left (fun topics keyword =>
                 if negb (existsb (fun t => str_eqb (toLowerCase t) keyword) topics)
                 then topics ++ [keyword] else topics)
              keywords topics
    = topics ++ added /\
    keywordsAdded topics keywords added.
Proof.
  induction keywords as [|k keywords IH]; intros topics; simpl.
  - exists []. rewrite app_nil_r. split; constructor.
  - destruct (existsb (fun t => str_eqb (toLowerCase t) k) topics) eqn:E; simpl.
    + destruct (IH topics) as (added & Eq & Ad).
      exists added. split; [exact Eq|]. constructor; [|exact Ad].
      apply existsb_exists in E. destruct E as (t & Ht & Et).
      apply str_eqb_eq in Et. exists t. split; assumption.
    + destruct (IH (topics ++ [k])) as (added & Eq & Ad).
      exists (k :: added). rewrite <- app_assoc in Eq.
      split; [exact Eq|]. constructor; [|exact Ad].
      intros t Ht Et. apply str_eqb_eq in Et.
      assert (X : existsb (fun t => str_eqb (toLowerCase t) k) topics = true).
      { apply existsb_exists. exists t. split; assumption. }
      congruence.
Qed.

Lemma keywordsAdded_Subsequence (topics keywords added : list str) :
  keywordsAdded topics keywords added -> Subsequence added keywords.
Proof. induction 1; constructor; assumption. Qed.

Lemma keywordsAdded_unique (topics keywords added : list str) :
  keywordsAdded topics keywords added ->
  forall added', keywordsAdded topics keywords added' -> added' = added.
Proof.
  induction 1 as [topics | topics k keywords added (t & Ht & Et) _ IH
                 | topics k keywords added Fr _ IH];
    intros added' H'; inversion H'; subst.
  - reflexivity.
  - apply IH. assumption.
  - exfalso. match goal with F : forall t, In t topics -> _ |- _ =>
               apply (F t Ht); reflexivity end.
  - exfalso. match goal with X : exists t, _ |- _ =>
               destruct X as (t & Ht & Et) end.
    apply (Fr t Ht Et).
  - f_equal. apply IH. assumption.
Qed.

Lemma keywordsAdded_fresh (topics keywords added : list str) :
  keywordsAdded topics keywords added ->
  forall front k back,
    added = front ++ k :: back ->
    forall t, In t (topics ++ front) -> toLowerCase t <> k.
Proof.
  induction 1 as [topics | topics k keywords added _ _ IH
                 | topics k keywords added Fr _ IH];
    intros front k' back E t Ht.
  - destruct front; discriminate.
  - apply (IH front k' back E t Ht).
  - destruct front as [|x front]; simpl in E; inversion E; subst.
    + rewrite app_nil_r in Ht. apply Fr. exact Ht.
    + apply (IH front k' back eq_refl t).
      rewrite <- app_assoc. exact Ht.
Qed.

Lemma keywordsAdded_covered (topics keywords added : list str) :
  keywordsAdded topics keywords added ->
  forall front k back,
    keywords = front ++ k :: back ->
    (exists front' back',
       added = front' ++ k :: back' /\
       Subsequence front' front /\ Subsequence back' back) \/
    (exists front' t,
       In t (topics ++ front') /\ toLowerCase t = k /\
       Subsequence front' front /\
       exists back', added = front' ++ back' /\ Subsequence back' back).
Proof.
  induction 1 as [topics | topics k keywords added (t & Ht & Et) Ad IH
                 | topics k keywords added Fr Ad IH];
    intros front k' back E.
  - destruct front; discriminate.
  - destruct front as [|x front]; simpl in E; inversion E; subst.
    + right. exists [], t. rewrite app_nil_r.
      split; [exact Ht|]. split; [reflexivity|]. split; [constructor|].
      exists added. split; [reflexivity|].
      apply (keywordsAdded_Subsequence _ _ _ Ad).
    + destruct (IH front k' back eq_refl)
        as [(f' & b' & A & Sf & Sb) | (f' & t' & I & L & Sf & b' & A & Sb)].
      * left. exists f', b'. split; [exact A|].
        split; [constructor; exact Sf | exact Sb].
      * right. exists f', t'. split; [exact I|]. split; [exact L|].
        split; [constructor; exact Sf|]. exists b'. split; assumption.
  - destruct front as [|x front]; simpl in E; inversion E; subst.
    + left. exists [], added. split; [reflexivity|]. split; [constructor|].
      apply (keywordsAdded_Subsequence _ _ _ Ad).
    + destruct (IH front k' back eq_refl)
        as [(f' & b' & A & Sf & Sb) | (f' & t' & I & L & Sf & b' & A & Sb)].
      * left. exists (x :: f'), b'. split; [rewrite A; reflexivity|].
        split; [constructor; exact Sf | exact Sb].
      * right. exists (x :: f'), t'. rewrite <- app_assoc in I.
        split; [exact I|]. split; [exact L|].
        split; [constructor; exact Sf|]. exists b'.
        split; [rewrite A; reflexivity | exact Sb].
Qed.

(** X5. The topics are the first 8 of the capitalized phrases longer than 3
    characters, in the order of the text, followed by keywords: of the first
    5 keywords, in their order, those that no topic in front of them equals
    when the topic is lower-cased, where the topics in front of a keyword are
    the phrases and the keywords added before it.  So a keyword that comes
    twice is added once.  The rule fixes the added keywords: each of the 5
    keywords stands among them at its place, or a topic in front of that
    place lower-cases to it. *)
Theorem identifyTopics_phrases_then_keywords (text : str) (keywords : list str) :
  let phrases := filter (fun m => 3 <? length m) (matchPhrases text) in
  exists added,
    identifyTopics text keywords = firstn 8 (phrases ++ added) /\
    keywordsAdded phrases (firstn 5 keywords) added /\
    (forall added', keywordsAdded phrases (firstn 5 keywords) added' ->
                    added' = added) /\
    Subsequence added (firstn 5 keywords) /\
    (forall front k back,
       added = front ++ k :: back ->
       forall t, In t (phrases ++ front) -> toLowerCase t <> k) /\
    (forall front k back,
       firstn 5 keywords = front ++ k :: back ->
       (exists front' back',
          added = front' ++ k :: back' /\
          Subsequence front' front /\ Subsequence back' back) \/
       (exists front' t,
          In t (phrases ++ front') /\ toLowerCase t = k /\
          Subsequence front' front /\
          exists back', added = front' ++ back' /\ Subsequence back' back)).
Proof.
  intros phrases. unfold identifyTopics.
  rewrite (identifyTopics_phrases_kept (matchPhrases text) []);
    [|apply matchPhrases_upper | constructor].
  simpl app. fold phrases.
  destruct (identifyTopics_keywords_exact (slice0 5 keywords) phrases)
    as (added & Eq & Ad).
  exists added. rewrite Eq. unfold slice0 in *.
  split; [reflexivity|]. split; [exact Ad|].
  split; [apply (keywordsAdded_unique _ _ _ Ad)|].
  split; [apply (keywordsAdded_Subsequence _ _ _ Ad)|].
  split; [apply (keywordsAdded_fresh _ _ _ Ad) | apply (keywordsAdded_covered _ _ _ Ad)].
Qed.

Lemma identifyTopics_phrases_then_keywords_witness :
  let keywords := [lit "abcd"; lit "abcd"; lit "efgh"] in
  identifyTopics (lit "Widgets rock.") keywords
  = [lit "Widgets"; lit "abcd"; lit "efgh"].
Proof.
  intros keywords.
  destruct (identifyTopics_phrases_then_keywords (lit "Widgets rock.") keywords)
    as (added & E & _ & U & _).
  assert (K : keywordsAdded [lit "Widgets"] keywords [lit "abcd"; lit "efgh"]).
  { apply keywordsAdded_keep.
    - intros t [<- | []]. discriminate.
    - apply keywordsAdded_skip.
      + exists (lit "abcd"). split; [right; left; reflexivity | reflexivity].
      + apply keywordsAdded_keep; [|constructor].
        intros t [<- | [<- | []]]; discriminate. }
  rewrite E, <- (U _ K). reflexivity.
Defined.
